(** * network.py: packet codec, interfaces and the distance-vector router

    A shallow embedding of [src/network.py] and the properties of its
    specification.

    Conventions of the model.
    - Python [str] is [string]; slices [s[a:b]] clamp as Python's do.
    - Python [int] is [Z] (unbounded); link costs and the costs carried by a
      distance vector are integers.
    - [rt_tbl_D] and the received vector are dictionaries the router reads
      by key: [gmap string (gmap string Z)]. Their order shows only in the
      text [json.dumps] and [print_routes] produce, which is not modelled.
      [cost_D] and its inner dictionaries are iterated and indexed by
      position, so they are association lists in insertion order.
    - A method returns an [outcome]: it finishes ([Ok]), raises ([Raise]), or
      waits for room in a full queue ([Blocked]); each one carries the state
      the object is left in.
    - The [print] calls of the router are left out. Those of [Host] are
      kept as the lines of its [stdout]: they are all that [udt_receive]
      shows. [print_routes] and the [run] loops with their [stop] flag are
      left out. *)

From Stdlib Require Import ZArith String Ascii List Bool Lia.
From stdpp Require Import gmap strings list fin_maps pretty.

Open Scope string_scope.
Open Scope Z_scope.

(** ** Python string helpers *)

Module PyStr.

(** [s[n:]] *)
Fixpoint drop (n : nat) (s : string) : string :=
  match n, s with
  | O, _ => s
  | S n', EmptyString => EmptyString
  | S n', String _ s' => drop n' s'
  end.

(** [s[:n]] *)
Fixpoint take (n : nat) (s : string) : string :=
  match n, s with
  | O, _ => EmptyString
  | S n', EmptyString => EmptyString
  | S n', String c s' => String c (take n' s')
  end.

(** [s[a:b]] for [0 <= a <= b] *)
Definition slice (a b : nat) (s : string) : string := take (b - a) (drop a s).

Definition is_zero (c : ascii) : bool := Ascii.eqb c "0"%char.

(** [s.lstrip('0')] *)
Fixpoint lstrip0 (s : string) : string :=
  match s with
  | EmptyString => EmptyString
  | String c s' => if is_zero c then lstrip0 s' else s
  end.

(** [s.rstrip('0')] *)
Fixpoint rstrip0 (s : string) : string :=
  match s with
  | EmptyString => EmptyString
  | String c s' =>
      match rstrip0 s' with
      | EmptyString => if is_zero c then EmptyString else String c EmptyString
      | r => String c r
      end
  end.

(** [s.strip('0')]: zeros are removed at both ends. *)
Definition strip0 (s : string) : string := rstrip0 (lstrip0 s).

Fixpoint zeros (n : nat) : string :=
  match n with
  | O => EmptyString
  | S n' => String "0"%char (zeros n')
  end.

(** [s.zfill(width)]: pads on the left with zeros, after a leading sign. *)
Definition zfill (width : nat) (s : string) : string :=
  let pad := zeros (width - String.length s) in
  match s with
  | String c s' =>
      if Ascii.eqb c "+"%char || Ascii.eqb c "-"%char
      then String c (pad +:+ s')
      else pad +:+ s
  | EmptyString => pad
  end.

(** [s.startswith(p)] *)
Definition startswith (p s : string) : bool := String.prefix p s.

End PyStr.

(** ** Exceptions and outcomes *)

Inductive exn : Type :=
| KeyError (k : string)
| IndexError
| TypeError
| RecursionError
| JSONDecodeError
| QueueFull
| Exception (msg : string).

Inductive outcome (S A : Type) : Type :=
| Ok (a : A) (s : S)
| Raise (e : exn) (s : S)
| Blocked (s : S).

Arguments Ok {S A} a s.
Arguments Raise {S A} e s.
Arguments Blocked {S A} s.

Definition M (S A : Type) : Type := S -> outcome S A.

#[export] Instance M_ret {S} : MRet (M S) := fun A a s => Ok a s.

#[export] Instance M_bind {S} : MBind (M S) := fun A B k m s =>
  match m s with
  | Ok a s' => k a s'
  | Raise e s' => Raise e s'
  | Blocked s' => Blocked s'
  end.

Definition raise {S A} (e : exn) : M S A := fun s => Raise e s.

(** Lifts a computation that does not touch the state. *)
Definition lift {S A} (r : exn + A) : M S A := fun s =>
  match r with
  | inl e => Raise e s
  | inr a => Ok a s
  end.

Definition get_state {S} : M S S := fun s => Ok s s.

(** [for x in l: body x] *)
Fixpoint for_each {S A} (l : list A) (body : A -> M S unit) : M S unit :=
  match l with
  | [] => mret tt
  | x :: l' => body x ≫= λ _, for_each l' body
  end.

(** A loop that carries the local variables [b] its body assigns. *)
Fixpoint for_fold {S A B} (l : list A) (body : B -> A -> M S B) (b : B) : M S B :=
  match l with
  | [] => mret b
  | x :: l' => body b x ≫= for_fold l' body
  end.

(** [range(n)] *)
Definition range (n : nat) : list Z := Z.of_nat <$> seq 0 n.

(** [l[i]], with Python's negative indices; [None] is [IndexError]. *)
Definition py_pos {A} (l : list A) (i : Z) : option nat :=
  let n := Z.of_nat (length l) in
  if (0 <=? i) && (i <? n) then Some (Z.to_nat i)
  else if (- n <=? i) && (i <? 0) then Some (Z.to_nat (n + i))
  else None.

Definition py_index {A} (l : list A) (i : Z) : option A :=
  k ← py_pos l i; l !! k.

(** Dictionaries whose iteration order the code relies on. *)
Definition dict (K V : Type) : Type := list (K * V).

Fixpoint dict_get {V} (k : string) (d : dict string V) : option V :=
  match d with
  | [] => None
  | (k', v) :: d' => if String.eqb k k' then Some v else dict_get k d'
  end.

Definition dict_keys {K V} (d : dict K V) : list K := fst <$> d.

Definition dict_in {V} (k : string) (d : dict string V) : bool :=
  bool_decide (is_Some (dict_get k d)).

(** ** NetworkPacket *)

Module NetworkPacket.

Definition dst_S_length : nat := 5.
Definition prot_S_length : nat := 1.

(** [dst] holds [str(self.dst)]. *)
Record t : Type := mk { dst : string; prot_S : string; data_S : string }.

(** [to_byte_S]: the [else] branch formats its message with [%s] of [self],
    that is with [to_byte_S] again, so Python ends in [RecursionError]. *)
Definition to_byte_S (p : t) : exn + string :=
  let byte_S := PyStr.zfill dst_S_length (dst p) in
  if String.eqb (prot_S p) "data" then inr (byte_S +:+ "1" +:+ data_S p)
  else if String.eqb (prot_S p) "control" then inr (byte_S +:+ "2" +:+ data_S p)
  else inl RecursionError.

(** [from_byte_S]: the [else] branch raises a [str], which Python turns into
    [TypeError]. *)
Definition from_byte_S (byte_S : string) : exn + t :=
  let dst := PyStr.strip0 (PyStr.slice 0 dst_S_length byte_S) in
  let prot := PyStr.slice dst_S_length (dst_S_length + prot_S_length) byte_S in
  let data := PyStr.drop (dst_S_length + prot_S_length) byte_S in
  if String.eqb prot "1" then inr (mk dst "data" data)
  else if String.eqb prot "2" then inr (mk dst "control" data)
  else inl TypeError.

End NetworkPacket.


(** ** Interface: a pair of queues *)

Module Interface.

Record t : Type := mk { maxsize : Z; in_queue : list string; out_queue : list string }.

(** [Interface(maxsize)] *)
Definition init (maxsize : Z) : t := mk maxsize [] [].

(** [queue.Queue.full]: a queue with [maxsize <= 0] is unbounded. *)
Definition full (maxsize : Z) (q : list string) : bool :=
  (0 <? maxsize) && (maxsize <=? Z.of_nat (length q)).

(** [queue.Queue.get(False)]; [queue.Empty] is caught by [get], which then
    returns [None]. *)
Definition get (in_or_out : string) : M t (option string) := fun s =>
  if String.eqb in_or_out "in" then
    match in_queue s with
    | [] => Ok None s
    | pkt_S :: q => Ok (Some pkt_S) (mk (maxsize s) q (out_queue s))
    end
  else
    match out_queue s with
    | [] => Ok None s
    | pkt_S :: q => Ok (Some pkt_S) (mk (maxsize s) (in_queue s) q)
    end.

(** [queue.Queue.put(pkt, block)] on a full queue raises [queue.Full] when
    [block] is false and waits when it is true. *)
Definition put (pkt : string) (in_or_out : string) (block : bool) : M t unit := fun s =>
  if String.eqb in_or_out "out" then
    if full (maxsize s) (out_queue s)
    then (if block then Blocked s else Raise QueueFull s)
    else Ok tt (mk (maxsize s) (in_queue s) (out_queue s ++ [pkt]))
  else
    if full (maxsize s) (in_queue s)
    then (if block then Blocked s else Raise QueueFull s)
    else Ok tt (mk (maxsize s) (in_queue s ++ [pkt]) (out_queue s)).

End Interface.

(** ** The routing table and the merge of a distance vector *)

(** [{destination: {router: cost}}] *)
Abbreviation cvec := (gmap string Z).
Abbreviation table := (gmap string (gmap string Z)).

(** The cost the code writes for what it does not know. *)
Definition INF : Z := 999.

Module Merge.

Section merge.

(** [name] is [self.name], [r] the router the vector came from. *)
Variables (name r : string).

(** The body of [for dst in keys] that writes the received vector into the
    table; [rvec] is the local dictionary the body may extend. *)
Definition write_step (rvec : table) (dst : string) : M table table := fun t =>
  let rvec := if bool_decide (is_Some (rvec !! dst)) then rvec
              else <[dst := {[r := INF]}]> rvec in
  let t := if bool_decide (is_Some (t !! dst)) then t
           else <[dst := {[name := INF]}]> t in
  match rvec !! dst with
  | None => Raise (KeyError dst) t
  | Some rrow =>
      match rrow !! r with
      | None => Raise (KeyError r) t
      | Some c =>
          match t !! dst with
          | None => Raise (KeyError dst) t
          | Some row => Ok rvec (<[dst := <[r := c]> row]> t)
          end
      end
  end.

Definition write_phase (keys : list string) (rvec : table) : M table table :=
  for_fold keys write_step rvec.

(** The body of [for v in routers], for the destination [y]; [updated] is
    the flag of the enclosing function. [ycvec] is the row of [y] itself, so
    what is stored in it is stored in the table. *)
Definition relax_step (y : string) (updated : bool) (v : string) : M table bool := fun t =>
  if String.eqb v y then Ok updated t
  else
    match t !! y with
    | None => Raise (KeyError y) t
    | Some ycvec =>
        let ycvec := if bool_decide (is_Some (ycvec !! v)) then ycvec
                     else <[v := INF]> ycvec in
        let t := <[y := ycvec]> t in
        match t !! v with
        | None => Raise (KeyError v) t
        | Some vcvec =>
            match vcvec !! name with
            | None => Raise (KeyError name) t
            | Some a =>
                match ycvec !! v with
                | None => Raise (KeyError v) t
                | Some b =>
                    let bf := a + b in
                    match ycvec !! name with
                    | None => Raise (KeyError name) t
                    | Some c =>
                        if bf <? c
                        then Ok true (<[y := <[name := bf]> ycvec]> t)
                        else Ok updated t
                    end
                end
            end
        end
    end.

Definition relax_phase (keys routers : list string) (updated : bool) : M table bool :=
  for_fold keys (fun updated y => for_fold routers (relax_step y) updated) updated.

(** The two loops of [update_routes] over the table; the result is the
    value of [updated]. *)
Definition merge (keys : list string) (rvec : table) : M table bool :=
  write_phase keys rvec ≫= λ _,
  relax_phase keys (filter (λ key, PyStr.startswith "R" key) keys) false.

End merge.

End Merge.

(** ** What the router takes from Python's libraries

    [json_loads] is [json.loads] on the documents of the wire format, an
    object of objects of integers; [None] is a text that is not one.
    [json_dumps] is [json.dumps] of the routing table. [set_iter] is the
    order in which Python iterates over a [set] of strings: the language
    leaves it open, and every element comes once. *)

(** [keys] is an iteration over the set [s]. *)
Definition iterates (keys : list string) (s : gset string) : Prop :=
  NoDup keys ∧ list_to_set keys = s.

Class PyEnv : Type := {
  json_loads : string -> option table;
  json_dumps : table -> string;
  set_iter : gset string -> list string;
  set_iter_iterates : ∀ s, iterates (set_iter s) s;
}.

(** ** Router *)

Module Router.

Record t : Type := mk {
  name : string;
  intf_L : list Interface.t;
  cost_D : dict string (dict Z Z);   (* {neighbor: {interface: cost}} *)
  rt_tbl_D : table;                  (* {destination: {router: cost}} *)
}.

Definition set_intf_L (R : t) (l : list Interface.t) : t :=
  mk (name R) l (cost_D R) (rt_tbl_D R).

Definition set_rt_tbl_D (R : t) (tbl : table) : t :=
  mk (name R) (intf_L R) (cost_D R) tbl.

(** [{self.name: v for k, v in items}] *)
Definition init_row (name : string) (items : dict Z Z) : cvec :=
  foldl (λ row kv, <[name := kv.2]> row) ∅ items.

(** [Router(name, cost_D, max_queue_size)]; [cost_D[neighbor]] is the value
    listed with the key [neighbor]. *)
Definition init (name : string) (cost_D : dict string (dict Z Z)) (max_queue_size : Z) : t :=
  let intf_L := (λ _, Interface.init max_queue_size) <$> range (length cost_D) in
  let tbl : table := foldl (λ tbl nv, <[nv.1 := init_row name nv.2]> tbl) ∅ cost_D in
  mk name intf_L cost_D (<[name := {[name := 0]}]> tbl).

(** Runs a method of [self.intf_L[i]]. *)
Definition at_intf {A} (i : Z) (m : M Interface.t A) : M t A := fun R =>
  match py_pos (intf_L R) i with
  | None => Raise IndexError R
  | Some k =>
      match intf_L R !! k with
      | None => Raise IndexError R
      | Some intf =>
          match m intf with
          | Ok a intf' => Ok a (set_intf_L R (<[k := intf']> (intf_L R)))
          | Raise e intf' => Raise e (set_intf_L R (<[k := intf']> (intf_L R)))
          | Blocked intf' => Blocked (set_intf_L R (<[k := intf']> (intf_L R)))
          end
      end
  end.

(** Runs code that works on [self.rt_tbl_D]. *)
Definition on_table {A} (m : M table A) : M t A := fun R =>
  match m (rt_tbl_D R) with
  | Ok a tbl => Ok a (set_rt_tbl_D R tbl)
  | Raise e tbl => Raise e (set_rt_tbl_D R tbl)
  | Blocked tbl => Blocked (set_rt_tbl_D R tbl)
  end.

(** [try: m except queue.Full: pass] *)
Definition except_full (m : M t unit) : M t unit := fun R =>
  match m R with
  | Raise QueueFull R' => Ok tt R'
  | o => o
  end.

(** [self.rt_tbl_D[d][k]] *)
Definition tbl_get (tbl : table) (d k : string) : exn + Z :=
  match tbl !! d with
  | None => inl (KeyError d)
  | Some row =>
      match row !! k with
      | None => inl (KeyError k)
      | Some c => inr c
      end
  end.

(** The body of the loop of [forward_packet] over the neighbouring routers;
    the locals are [(cfwd, ccost)]. *)
Definition choose_step (name dst : string) (tbl : table)
    (acc : string * Z) (router : string) : exn + string * Z :=
  match tbl_get tbl dst router with
  | inl e => inl e
  | inr a =>
      match tbl_get tbl router name with
      | inl e => inl e
      | inr b =>
          let cost := a + b in
          if cost <? acc.2 then inr (router, cost) else inr acc
      end
  end.

Fixpoint choose_loop (name dst : string) (tbl : table)
    (routers : list string) (acc : string * Z) : exn + string * Z :=
  match routers with
  | [] => inr acc
  | router :: rest =>
      match choose_step name dst tbl acc router with
      | inl e => inl e
      | inr acc' => choose_loop name dst tbl rest acc'
      end
  end.

(** The neighbours whose name starts with [R], in the order of [cost_D]. *)
Definition neighbor_routers (R : t) : list string :=
  filter (λ key, PyStr.startswith "R" key) (dict_keys (cost_D R)).

(** The value of [cfwd] when [forward_packet] leaves its [if]. *)
Definition choose_cfwd (R : t) (dst : string) : exn + string :=
  if dict_in dst (cost_D R) then inr dst
  else
    match choose_loop (name R) dst (rt_tbl_D R) (neighbor_routers R) ("", INF) with
    | inl e => inl e
    | inr acc => inr acc.1
    end.

(** [list(self.cost_D[cfwd].keys())[0]] *)
Definition out_of (R : t) (cfwd : string) : exn + Z :=
  match dict_get cfwd (cost_D R) with
  | None => inl (KeyError cfwd)
  | Some items =>
      match dict_keys items with
      | [] => inl IndexError
      | out :: _ => inr out
      end
  end.

(** [self.intf_L[out].put(p.to_byte_S(), 'out', True)]: the interface is
    looked up before the packet is encoded. *)
Definition put_packet (out : Z) (p : NetworkPacket.t) : M t unit := fun R =>
  match py_index (intf_L R) out with
  | None => Raise IndexError R
  | Some _ =>
      match NetworkPacket.to_byte_S p with
      | inl e => Raise e R
      | inr byte_S => at_intf out (Interface.put byte_S "out" true) R
      end
  end.

Definition forward_packet (p : NetworkPacket.t) (i : Z) : M t unit :=
  except_full (
    R ← get_state;
    cfwd ← lift (choose_cfwd R (NetworkPacket.dst p));
    out ← lift (out_of R cfwd);
    put_packet out p).

Section with_env.
Context `{!PyEnv}.

Definition send_routes (i : Z) : M t unit :=
  R ← get_state;
  let pbody := name R +:+ json_dumps (rt_tbl_D R) in
  let p := NetworkPacket.mk "0" "control" pbody in
  except_full (put_packet i p).

Definition header_length : nat :=
  (NetworkPacket.dst_S_length + NetworkPacket.prot_S_length)%nat.

Definition update_routes (p : NetworkPacket.t) (i : Z) : M t unit :=
  pbody ← lift (NetworkPacket.to_byte_S p);
  let r := PyStr.slice header_length (header_length + 2) pbody in
  rvec ← lift (match json_loads (PyStr.drop (header_length + 2) pbody) with
               | Some rvec => inr rvec
               | None => inl JSONDecodeError
               end);
  R ← get_state;
  let keys := set_iter (dom (rt_tbl_D R) ∪ dom rvec) in
  updated ← on_table (Merge.merge (name R) r keys rvec);
  if updated : bool
  then R ← get_state; for_each (range (length (intf_L R))) send_routes
  else mret tt.

(** The body of the loop of [process_queues]. *)
Definition process_queue (i : Z) : M t unit :=
  pkt_S ← at_intf i (Interface.get "in");
  match pkt_S with
  | None => mret tt
  | Some pkt_S =>
      p ← lift (NetworkPacket.from_byte_S pkt_S);
      if String.eqb (NetworkPacket.prot_S p) "data" then forward_packet p i
      else if String.eqb (NetworkPacket.prot_S p) "control" then update_routes p i
      else raise (Exception "Unknown packet type")
  end.

Definition process_queues : M t unit :=
  R ← get_state;
  for_each (range (length (intf_L R))) process_queue.

End with_env.

End Router.

(** ** The notions the properties are stated with *)

(** The state an outcome leaves behind. *)
Definition state_of {S A} (o : outcome S A) : S :=
  match o with
  | Ok _ s => s
  | Raise _ s => s
  | Blocked s => s
  end.

(** What holds of an outcome: [P] of a result and its state, [Q] of the
    state an exception or a wait leaves. *)
Definition outcome_all {S A} (P : A → S → Prop) (Q : S → Prop) (o : outcome S A) : Prop :=
  match o with
  | Ok a s => P a s
  | Raise _ s => Q s
  | Blocked s => Q s
  end.

(** [table[d][k]], when both keys are there. *)
Definition entry (t : table) (d k : string) : option Z := t !! d ≫= (.!! k).

(** [costToSelf]: the cost the owner [name] has for [d], the sentinel when
    there is none. *)
Definition cost_to_self (name : string) (t : table) (d : string) : Z :=
  default INF (entry t d name).

(** Every row has an entry of the owner. *)
Definition rows_have_self (name : string) (t : table) : Prop :=
  ∀ d row, t !! d = Some row → is_Some (row !! name).

(** No cost of the table is negative. *)
Definition nonneg (t : table) : Prop :=
  ∀ d k c, entry t d k = Some c → 0 ≤ c.

(** The link costs of a cost table satisfy [P]. *)
Definition link_costs (P : Z → Prop) (cost_D : dict string (dict Z Z)) : Prop :=
  ∀ nb items i c, (nb, items) ∈ cost_D → (i, c) ∈ items → P c.

(** Every neighbour of a cost table has an interface. *)
Definition has_interfaces (cost_D : dict string (dict Z Z)) : Prop :=
  ∀ nb items, (nb, items) ∈ cost_D → items ≠ [].

(** Every row of a received vector has the cost of its sender [r]. *)
Definition vector_of (r : string) (rvec : table) : Prop :=
  ∀ d row, rvec !! d = Some row → is_Some (row !! r).

(** The tables a router [name] built from [cost_D] can hold: the one of the
    constructor, and the one any merge leaves, of a vector that [accept]
    admits, with the keys of both in any order, also when the merge
    raises. *)
Inductive reachable (accept : string → table → Prop)
    (name : string) (cost_D : dict string (dict Z Z)) : table → Prop :=
| reach_init q :
    reachable accept name cost_D (Router.rt_tbl_D (Router.init name cost_D q))
| reach_merge t r keys rvec :
    reachable accept name cost_D t →
    accept r rvec →
    iterates keys (dom t ∪ dom rvec) →
    reachable accept name cost_D (state_of (Merge.merge name r keys rvec t)).

(** [t'] has the rows of [t], and more; its rows keep the entry of the
    owner. *)
Definition grows (name : string) (t t' : table) : Prop :=
  (∀ k, is_Some (t !! k) → is_Some (t' !! k)) ∧
  (rows_have_self name t → rows_have_self name t').

(** No cost of the owner is higher in [t'] than in [t]. *)
Definition lowers (name : string) (t t' : table) : Prop :=
  ∀ z, cost_to_self name t' z ≤ cost_to_self name t z.

(** No cost becomes negative, and the owner stays at cost [0] from itself. *)
Definition keeps_zero (name : string) (t t' : table) : Prop :=
  (nonneg t → nonneg t') ∧
  (nonneg t → entry t name name = Some 0 → entry t' name name = Some 0).

(** A part of the relaxation took [(u, t)] to [(u', t')]: the flag is set
    when it was set or some cost of the owner went down. *)
Definition relaxes (name : string) (u : bool) (t : table) (u' : bool) (t' : table) : Prop :=
  grows name t t' ∧ lowers name t t' ∧
  (u' = true ↔ u = true ∨ ∃ z, cost_to_self name t' z < cost_to_self name t z).

(** The relaxation as a minimum: [table[y][name]] becomes the smaller of
    itself and [table[v][name] + table[y][v]], where a missing
    [table[y][v]] is first stored as the sentinel. *)
Definition relax_min_step (name y : string) (t : table) (v : string) : table :=
  if String.eqb v y then t
  else
    let row := default ∅ (t !! y) in
    let b := default INF (row !! v) in
    let c := default INF (row !! name) in
    let a := default INF (entry t v name) in
    <[y := <[name := Z.min c (a + b)]> (<[v := b]> row)]> t.

Definition relax_min (name : string) (keys routers : list string) (t : table) : table :=
  foldl (λ t y, foldl (relax_min_step name y) t routers) t keys.

(** The relaxation in the words of the specification, for one destination
    [y] and one neighbour [v]: the smaller of [table[y][name]] and
    [linkCost[v] + table[v][y]]. [linkCost[v]] is the cost [cost_D] lists
    first for [v]. *)
Definition link_cost (cost_D : dict string (dict Z Z)) (v : string) : Z :=
  match dict_get v cost_D with
  | Some ((_, c) :: _) => c
  | _ => INF
  end.

Definition spec_relaxed (cost_D : dict string (dict Z Z)) (name : string)
    (t : table) (y v : string) : Z :=
  Z.min (cost_to_self name t y) (link_cost cost_D v + default INF (entry t v y)).

(** The same, with [table[v][y]] read as the cost that [v] reports for
    [y], which the table of the code keeps in the row of [y]. *)
Definition spec_relaxed_reported (cost_D : dict string (dict Z Z)) (name : string)
    (t : table) (y v : string) : Z :=
  Z.min (cost_to_self name t y) (link_cost cost_D v + default INF (entry t y v)).

(** A canonical address: a digit string that is not empty, has no leading
    zero and fits the width of the destination field. *)
Definition is_digit (c : ascii) : bool :=
  (48 <=? nat_of_ascii c)%nat && (nat_of_ascii c <=? 57)%nat.

Fixpoint all_digits (s : string) : bool :=
  match s with
  | EmptyString => true
  | String c s' => is_digit c && all_digits s'
  end.

Definition canonical (a : string) : bool :=
  match a with
  | EmptyString => false
  | String c _ =>
      negb (PyStr.is_zero c) && all_digits a
      && (String.length a <=? NetworkPacket.dst_S_length)%nat
  end.

Fixpoint ends_in_zero (s : string) : bool :=
  match s with
  | EmptyString => false
  | String c EmptyString => PyStr.is_zero c
  | String _ s' => ends_in_zero s'
  end.

(** The cost [forward_packet] computes for the next hop [v]. *)
Definition hop_cost (R : Router.t) (dst v : string) : option Z :=
  a ← entry (Router.rt_tbl_D R) dst v;
  b ← entry (Router.rt_tbl_D R) v (Router.name R);
  Some (a + b).

(** An interface after [pkt] has joined its outbound queue. *)
Definition push_out (pkt : string) (intf : Interface.t) : Interface.t :=
  Interface.mk (Interface.maxsize intf) (Interface.in_queue intf)
    (Interface.out_queue intf ++ [pkt]).

(** The outbound queue of an interface takes one more packet. *)
Definition has_room (intf : Interface.t) : Prop :=
  Interface.full (Interface.maxsize intf) (Interface.out_queue intf) = false.

(** The tag of a byte string is neither that of data nor that of control. *)
Definition unknown_tag (byte_S : string) : Prop :=
  let prot := PyStr.slice NetworkPacket.dst_S_length
                (NetworkPacket.dst_S_length + NetworkPacket.prot_S_length) byte_S in
  prot ≠ "1" ∧ prot ≠ "2".

(** ** Two routers and a host

    [R1] is linked to [R2] at cost [1]; [R2] is linked to [R1] at cost [1]
    and to the host [H1] at cost [3]. *)

Definition ex_cost_D : dict string (dict Z Z) := [("R2", [(0, 1)])].

Definition ex_R1 : Router.t := Router.init "R1" ex_cost_D 0.

(** The table of [R2] when it is built, which is the vector it sends. *)
Definition ex_vec : table :=
  Router.rt_tbl_D (Router.init "R2" [("R1", [(0, 1)]); ("H1", [(1, 3)])] 0).

(** An order of the keys of both tables. *)
Definition ex_keys : list string := ["R1"; "R2"; "H1"].

(** ** Three routers and a host

    [R1] is linked to [R2] at cost [10] and to [R3] at cost [1]; [R3] is
    linked to [R2] at cost [1]; the host [H1] is on [R2] at cost [1]. [R1]
    merges the vector of [R3] first and the vector of [R2] next. *)

Definition ex_far_cost_D : dict string (dict Z Z) := [("R2", [(0, 10)]); ("R3", [(1, 1)])].

Definition ex_vec_R3 : table :=
  Router.rt_tbl_D (Router.init "R3" [("R1", [(0, 1)]); ("R2", [(1, 1)])] 0).

Definition ex_vec_R2 : table :=
  Router.rt_tbl_D (Router.init "R2" [("R1", [(0, 10)]); ("R3", [(1, 1)]); ("H1", [(2, 1)])] 0).

Definition ex_far_keys : list string := ["R1"; "R2"; "R3"; "H1"].

(** The table of [R1] after the vector of [R3]. *)
Definition ex_far_first : table :=
  state_of (Merge.merge "R1" "R3" ["R1"; "R2"; "R3"] ex_vec_R3
              (Router.rt_tbl_D (Router.init "R1" ex_far_cost_D 0))).

(** After the vector of [R2] is written into it, and after its merge. *)
Definition ex_far_written : table :=
  state_of (Merge.write_phase "R1" "R2" ex_far_keys ex_vec_R2 ex_far_first).

Definition ex_far_merged : table :=
  state_of (Merge.merge "R1" "R2" ex_far_keys ex_vec_R2 ex_far_first).

(** A vector that names [R1] itself as its sender. *)
Definition ex_own_vec : table := {[ "R1" := {[ "R1" := 5 ]} ]}.

(** A cost table whose neighbour has no interface. *)
Definition ex_bare_cost_D : dict string (dict Z Z) := [("H1", [])].

(** A cost table that lists [R3] before [R2], and a table in which the
    host [H9] is as far through the one as through the other. *)
Definition ex_tie_R : Router.t :=
  Router.mk "R1" [Interface.init 0; Interface.init 0]
    [("R3", [(0, 1)]); ("R2", [(1, 1)])]
    {[ "R1" := {[ "R1" := 0 ]};
       "R2" := {[ "R1" := 1 ]};
       "R3" := {[ "R1" := 1 ]};
       "H9" := {[ "R1" := 6; "R2" := 5; "R3" := 5 ]} ]}.

(** The host [H1] is a neighbour at cost [10], and the table has a path to
    it through [R2] at cost [3]. *)
Definition ex_near_R : Router.t :=
  Router.mk "R1" [Interface.init 0; Interface.init 0]
    [("H1", [(0, 10)]); ("R2", [(1, 1)])]
    {[ "R1" := {[ "R1" := 0 ]};
       "R2" := {[ "R1" := 1; "R2" := 0 ]};
       "H1" := {[ "R1" := 3; "R2" := 2 ]} ]}.

(** A byte string with the tag [X] waits on the first interface, a data
    packet for [H1] on the second. *)
Definition ex_bad_R : Router.t :=
  Router.mk "R1"
    [Interface.mk 0 ["00001Xbad"] []; Interface.mk 0 ["000H11hello"] []]
    [("H1", [(0, 1)]); ("R2", [(1, 1)])]
    (Router.rt_tbl_D (Router.init "R1" [("H1", [(0, 1)]); ("R2", [(1, 1)])] 0)).

(** A data packet for the neighbour [H1] waits on the first interface, a
    byte string with the tag [X] on the second. *)
Definition ex_late_bad_R : Router.t :=
  Router.mk "R1"
    [Interface.mk 0 ["000H11hello"] []; Interface.mk 0 ["00001Xbad"] []]
    [("H1", [(0, 1)]); ("R2", [(1, 1)])]
    (Router.rt_tbl_D (Router.init "R1" [("H1", [(0, 1)]); ("R2", [(1, 1)])] 0)).

(** A stand-in for [json]: the table is written with its keys in the order
    of the map, and the only text read back is the vector of [R2]. *)
Definition quote : string := String (ascii_of_nat 34) EmptyString.

Definition ex_dumps_row (row : gmap string Z) : string :=
  "{" +:+ String.concat ", "
            ((λ kv, quote +:+ kv.1 +:+ quote +:+ ": " +:+ pretty kv.2) <$> map_to_list row)
      +:+ "}".

Definition ex_dumps (t : table) : string :=
  "{" +:+ String.concat ", "
            ((λ kv, quote +:+ kv.1 +:+ quote +:+ ": " +:+ ex_dumps_row kv.2) <$> map_to_list t)
      +:+ "}".

Definition ex_env : PyEnv := {|
  json_loads := λ s, if String.eqb s (ex_dumps ex_vec) then Some ex_vec else None;
  json_dumps := ex_dumps;
  set_iter := elements;
  set_iter_iterates := λ s, conj (NoDup_elements s) (list_to_set_elements_L s);
|}.

(** The control packet [R2] sends when it is built, as [R1] decodes it. *)
Definition ex_update : NetworkPacket.t :=
  NetworkPacket.mk "" "control" ("R2" +:+ ex_dumps ex_vec).


(** ** The notions of the further properties *)

(** The cost the table has for [d] from [k], the sentinel when it has
    none; [cost t d name] is [cost_to_self name t d]. *)
Definition cost (t : table) (d k : string) : Z := default INF (entry t d k).

(** Outside the columns [cols], [t'] has the entries of [t], and [999] in
    some places where [t] had nothing. *)
Definition untouched (cols : list string) (t t' : table) : Prop :=
  ∀ d k, k ∉ cols →
    entry t' d k = entry t d k ∨ (entry t d k = None ∧ entry t' d k = Some INF).

(** No entry of [t] is missing in [t']. *)
Definition keeps_entries (t t' : table) : Prop :=
  ∀ d k, is_Some (entry t d k) → is_Some (entry t' d k).

(** The inequalities of Bellman and Ford over the keys: no cost of the
    owner is above the cost to a router [v] plus what the table has from [v]
    for the destination. *)
Definition stable (name : string) (keys : list string) (t : table) : Prop :=
  ∀ y v, y ∈ keys → v ∈ keys → PyStr.startswith "R" v = true → v ≠ y →
    cost t y name ≤ cost t v name + cost t y v.

(** The table of [R1] after the vector of [R2]. *)
Definition ex_merged : table :=
  state_of (Merge.merge "R1" "R2" ex_keys ex_vec (Router.rt_tbl_D ex_R1)).

(** A vector of [R2] whose row for [H1] has no cost of [R2]. *)
Definition ex_torn_vec : table :=
  {[ "R2" := {[ "R2" := 0 ]}; "H1" := {[ "R9" := 3 ]} ]}.


(** The queue a selector names for [put], and the one it names for [get]:
    [put] takes every selector but ['out'] for the inbound queue, [get]
    every selector but ['in'] for the outbound one. *)
Definition put_queue (sel : string) (intf : Interface.t) : list string :=
  if String.eqb sel "out" then Interface.out_queue intf else Interface.in_queue intf.

Definition get_queue (sel : string) (intf : Interface.t) : list string :=
  if String.eqb sel "in" then Interface.in_queue intf else Interface.out_queue intf.

(** The interface with [q] for the queue that [get] reads under [sel]. *)
Definition set_get_queue (sel : string) (q : list string) (intf : Interface.t) : Interface.t :=
  if String.eqb sel "in"
  then Interface.mk (Interface.maxsize intf) q (Interface.out_queue intf)
  else Interface.mk (Interface.maxsize intf) (Interface.in_queue intf) q.

(** The packets of [pkts] put one after the other. *)
Definition puts (sel : string) (block : bool) (pkts : list string) : M Interface.t unit :=
  for_each pkts (λ pkt, Interface.put pkt sel block).

(** [n] gets in a row, with what each returns. *)
Fixpoint gets (sel : string) (n : nat) : M Interface.t (list (option string)) :=
  match n with
  | O => mret []
  | S n' => pkt ← Interface.get sel; rest ← gets sel n'; mret (pkt :: rest)
  end.

(** Both queues are within the bound of the interface, when it has one. *)
Definition within_bound (intf : Interface.t) : Prop :=
  0 < Interface.maxsize intf →
  Z.of_nat (length (Interface.in_queue intf)) ≤ Interface.maxsize intf ∧
  Z.of_nat (length (Interface.out_queue intf)) ≤ Interface.maxsize intf.

(** The interfaces that puts and gets make of a new one. *)
Inductive used_interface (maxsize : Z) : Interface.t → Prop :=
| used_init : used_interface maxsize (Interface.init maxsize)
| used_put intf pkt sel block :
    used_interface maxsize intf →
    used_interface maxsize (state_of (Interface.put pkt sel block intf))
| used_get intf sel :
    used_interface maxsize intf →
    used_interface maxsize (state_of (Interface.get sel intf)).

(** An address the codec gives back as it is: not empty, at most as wide
    as the destination field, with no zero at either end and no sign in
    front. *)
Definition plain_address (a : string) : bool :=
  match a with
  | EmptyString => false
  | String c _ =>
      negb (PyStr.is_zero c) && negb (Ascii.eqb c "+" || Ascii.eqb c "-")
      && negb (ends_in_zero a)
      && (String.length a <=? NetworkPacket.dst_S_length)%nat
  end.

(** What a pass may do to an interface: its bound stays, its inbound queue
    loses packets at the front, its outbound queue gains packets at the
    end. *)
Definition passes_on (intf intf' : Interface.t) : Prop :=
  Interface.maxsize intf' = Interface.maxsize intf ∧
  Interface.in_queue intf' `suffix_of` Interface.in_queue intf ∧
  Interface.out_queue intf `prefix_of` Interface.out_queue intf'.

(** [R'] is the router [R] with its name, its cost table and its
    interfaces in their places, each interface passed on. *)
Definition same_router (R R' : Router.t) : Prop :=
  Router.name R' = Router.name R ∧ Router.cost_D R' = Router.cost_D R ∧
  Forall2 passes_on (Router.intf_L R) (Router.intf_L R').

(** An interface after [get('in')] has taken the first packet, the rest
    being [q]. *)
Definition taken_in (q : list string) (intf : Interface.t) : Interface.t :=
  Interface.mk (Interface.maxsize intf) q (Interface.out_queue intf).

(** [update_routes] from line 234 on, once the sender [r] and the vector
    [rvec] are read from the packet: the merge, and the routing updates
    when the merge sets its flag. *)
Definition apply_vector `{!PyEnv} (r : string) (rvec : table) : M Router.t unit :=
  R ← get_state;
  let keys := set_iter (dom (Router.rt_tbl_D R) ∪ dom rvec) in
  updated ← Router.on_table (Merge.merge (Router.name R) r keys rvec);
  if updated : bool
  then R ← get_state; for_each (range (length (Router.intf_L R))) Router.send_routes
  else mret tt.

(** [R1] with two links to [R2]: the interface [0] at cost [10] is listed
    before the interface [1] at cost [1]. *)
Definition ex_two_links : dict string (dict Z Z) := [("R2", [(0, 10); (1, 1)])].

(** [R2] as it is built. *)
Definition ex_R2 : Router.t := Router.init "R2" [("R1", [(0, 1)]); ("H1", [(1, 3)])] 0.

(** ** Host *)

(** The address of a host is what its maker passes: the source documents
    an integer, and the formats with [%s] need a string. *)
Inductive pyval : Type :=
| PyInt (z : Z)
| PyString (s : string).

Module Host.

(** [stdout] holds the lines the host has printed. *)
Record t : Type := mk { addr : pyval; intf_L : list Interface.t; stdout : list string }.

(** [Host(addr)]: one interface, with queues that have no bound. *)
Definition init (addr : pyval) : t := mk addr [Interface.init 0] [].

(** [str(self)]: [__str__] returns [self.addr], and Python raises
    [TypeError] when [__str__] returns what is not a string. *)
Definition str (h : t) : exn + string :=
  match addr h with
  | PyString s => inr s
  | PyInt _ => inl TypeError
  end.

Definition print (line : string) : M t unit := fun h =>
  Ok tt (mk (addr h) (intf_L h) (stdout h ++ [line])).

(** Runs a method of [self.intf_L[i]]. *)
Definition at_intf {A} (i : Z) (m : M Interface.t A) : M t A := fun h =>
  match py_pos (intf_L h) i with
  | None => Raise IndexError h
  | Some k =>
      match intf_L h !! k with
      | None => Raise IndexError h
      | Some intf =>
          match m intf with
          | Ok a intf' => Ok a (mk (addr h) (<[k := intf']> (intf_L h)) (stdout h))
          | Raise e intf' => Raise e (mk (addr h) (<[k := intf']> (intf_L h)) (stdout h))
          | Blocked intf' => Blocked (mk (addr h) (<[k := intf']> (intf_L h)) (stdout h))
          end
      end
  end.

(** [udt_send(dst, data_S)]: the line is formatted, [self] first, before
    anything is queued; the put does not wait. *)
Definition udt_send (dst data_S : string) : M t unit :=
  let p := NetworkPacket.mk dst "data" data_S in
  h ← get_state;
  self ← lift (str h);
  p_S ← lift (NetworkPacket.to_byte_S p);
  _ ← print (self +:+ ": sending packet " +:+ quote +:+ p_S +:+ quote);
  h ← get_state;
  _ ← lift (match py_index (intf_L h) 0 with
            | None => inl IndexError
            | Some _ => inr tt
            end);
  byte_S ← lift (NetworkPacket.to_byte_S p);
  at_intf 0 (Interface.put byte_S "out" false).

(** [udt_receive()] *)
Definition udt_receive : M t unit :=
  pkt_S ← at_intf 0 (Interface.get "in");
  match pkt_S with
  | None => mret tt
  | Some pkt_S =>
      h ← get_state;
      self ← lift (str h);
      print (self +:+ ": received packet " +:+ quote +:+ pkt_S +:+ quote)
  end.

End Host.

(** The byte string and the line of a host with the address [a] that sends
    [data] to [dst]. *)
Definition sent_packet (m : string * string) : string :=
  PyStr.zfill 5 m.1 +:+ "1" +:+ m.2.

Definition sending_line (a : string) (m : string * string) : string :=
  a +:+ ": sending packet " +:+ quote +:+ sent_packet m +:+ quote.

Definition received_line (a pkt_S : string) : string :=
  a +:+ ": received packet " +:+ quote +:+ pkt_S +:+ quote.

(** [n] calls of [udt_receive], as the loop of [run] makes them. *)
Fixpoint receives (n : nat) : M Host.t unit :=
  match n with
  | O => mret tt
  | S n' => Host.udt_receive ≫= λ _, receives n'
  end.

(** * Properties *)

(** ** Loops *)

Section loops.
Context {S A B : Type}.

Lemma for_fold_ok (I : B → S → Prop) (body : B → A → M S B) (l : list A) :
  (∀ b s x, x ∈ l → I b s → ∃ b' s', body b x s = Ok b' s' ∧ I b' s') →
  ∀ b s, I b s → ∃ b' s', for_fold l body b s = Ok b' s' ∧ I b' s'.
Proof.
  induction l as [|x l IH]; intros Hbody b s HI; simpl.
  - by exists b, s.
  - unfold mbind, M_bind.
    destruct (Hbody b s x (list_elem_of_here _ _) HI) as (b' & s' & -> & HI').
    apply IH; auto. intros b0 s0 x0 Hin. apply Hbody. by apply list_elem_of_further.
Qed.

End loops.

(** ** The codec *)

Lemma length_append (s r : string) :
  String.length (s +:+ r) = (String.length s + String.length r)%nat.
Proof. induction s as [|c s IH]; simpl; [done|]. by rewrite IH. Qed.

Lemma append_cons c (s r : string) : String c s +:+ r = String c (s +:+ r).
Proof. reflexivity. Qed.

Lemma append_assoc (s r q : string) : (s +:+ r) +:+ q = s +:+ (r +:+ q).
Proof. induction s as [|c s IH]; [done|]. rewrite !append_cons. by rewrite IH. Qed.

Lemma length_zeros (n : nat) : String.length (PyStr.zeros n) = n.
Proof. induction n as [|n IH]; simpl; [done|]. by rewrite IH. Qed.

Lemma take_append (s r : string) : PyStr.take (String.length s) (s +:+ r) = s.
Proof.
  induction s as [|c s IH]; [by destruct r|]. rewrite append_cons. simpl. by rewrite IH.
Qed.

Lemma drop_append (s r : string) : PyStr.drop (String.length s) (s +:+ r) = r.
Proof. induction s as [|c s IH]; [done|]. rewrite append_cons. exact IH. Qed.

Lemma lstrip0_zeros (n : nat) (a : string) :
  PyStr.lstrip0 (PyStr.zeros n +:+ a) = PyStr.lstrip0 a.
Proof.
  induction n as [|n IH]; [done|]. simpl PyStr.zeros. rewrite append_cons. exact IH.
Qed.

Lemma rstrip0_unchanged (a : string) :
  a ≠ "" → ends_in_zero a = false → PyStr.rstrip0 a = a.
Proof.
  induction a as [|c a IH]; [done|]. intros _ Hend.
  destruct a as [|c' a'].
  - simpl in *. by rewrite Hend.
  - change (ends_in_zero (String c (String c' a'))) with (ends_in_zero (String c' a')) in Hend.
    change (PyStr.rstrip0 (String c (String c' a'))) with
      (match PyStr.rstrip0 (String c' a') with
       | EmptyString => if PyStr.is_zero c then EmptyString else String c EmptyString
       | r => String c r
       end).
    by rewrite IH.
Qed.

Lemma digit_is_no_sign (c : ascii) :
  is_digit c = true → (Ascii.eqb c "+" || Ascii.eqb c "-")%char = false.
Proof.
  intros Hc. apply orb_false_iff. split; apply Ascii.eqb_neq; intros ->; discriminate.
Qed.

Lemma zfill_digits (width : nat) (c : ascii) (a' : string) :
  is_digit c = true →
  PyStr.zfill width (String c a') =
  PyStr.zeros (width - String.length (String c a')) +:+ String c a'.
Proof. intros Hc. unfold PyStr.zfill. by rewrite (digit_is_no_sign c Hc). Qed.

Lemma lstrip0_unchanged (c : ascii) (a' : string) :
  PyStr.is_zero c = false → PyStr.lstrip0 (String c a') = String c a'.
Proof. intros Hc. simpl. by rewrite Hc. Qed.

(** Decoding a destination field, a tag and a payload. *)
Lemma from_byte_S_framed (h tag rest : string) :
  String.length h = 5%nat → String.length tag = 1%nat →
  NetworkPacket.from_byte_S (h +:+ tag +:+ rest) =
  if String.eqb tag "1" then inr (NetworkPacket.mk (PyStr.strip0 h) "data" rest)
  else if String.eqb tag "2" then inr (NetworkPacket.mk (PyStr.strip0 h) "control" rest)
  else inl TypeError.
Proof.
  intros Hh Htag. unfold NetworkPacket.from_byte_S.
  change (PyStr.slice 0 NetworkPacket.dst_S_length ?s) with (PyStr.take 5 s).
  change (PyStr.slice NetworkPacket.dst_S_length
            (NetworkPacket.dst_S_length + NetworkPacket.prot_S_length) ?s)
    with (PyStr.take 1 (PyStr.drop 5 s)).
  change (NetworkPacket.dst_S_length + NetworkPacket.prot_S_length)%nat with 6%nat.
  assert (PyStr.take 5 (h +:+ tag +:+ rest) = h) as -> by (rewrite <- Hh; apply take_append).
  assert (PyStr.drop 5 (h +:+ tag +:+ rest) = tag +:+ rest) as ->
    by (rewrite <- Hh; apply drop_append).
  assert (PyStr.take 1 (tag +:+ rest) = tag) as -> by (rewrite <- Htag; apply take_append).
  assert (PyStr.drop 6 (h +:+ tag +:+ rest) = rest) as ->.
  { rewrite <- append_assoc.
    replace 6%nat with (String.length (h +:+ tag)) by (rewrite length_append; lia).
    apply drop_append. }
  done.
Qed.

(** The round trip of an address that is canonical and does not end in a
    zero. *)
Lemma round_trip_without_trailing_zero (a prot data : string) :
  canonical a = true → ends_in_zero a = false →
  prot = "data" ∨ prot = "control" →
  ∃ byte_S,
    NetworkPacket.to_byte_S (NetworkPacket.mk a prot data) = inr byte_S ∧
    NetworkPacket.from_byte_S byte_S = inr (NetworkPacket.mk a prot data).
Proof.
  intros Hcan Hend Hprot.
  destruct a as [|c a']; [done|]. unfold canonical in Hcan.
  apply andb_true_iff in Hcan as [[Hc Hdig]%andb_true_iff Hlen].
  apply Nat.leb_le in Hlen. apply negb_true_iff in Hc.
  assert (is_digit c = true) as Hcd by (simpl in Hdig; by apply andb_true_iff in Hdig as [? _]).
  pose proof (zfill_digits NetworkPacket.dst_S_length c a' Hcd) as Hfill.
  pose proof (lstrip0_unchanged c a' Hc) as Hlstrip.
  set (a := String c a') in *.
  set (h := PyStr.zeros (NetworkPacket.dst_S_length - String.length a) +:+ a) in *.
  assert (String.length h = 5%nat) as Hh.
  { unfold h. rewrite length_append, length_zeros. unfold NetworkPacket.dst_S_length in *. lia. }
  assert (PyStr.strip0 h = a) as Hstrip.
  { unfold PyStr.strip0, h. rewrite lstrip0_zeros, Hlstrip. by apply rstrip0_unchanged. }
  unfold NetworkPacket.to_byte_S. simpl NetworkPacket.dst.
  simpl NetworkPacket.prot_S. simpl NetworkPacket.data_S. rewrite Hfill.
  destruct Hprot as [-> | ->]; simpl String.eqb; cbv iota; eexists; (split; [reflexivity|]).
  - by rewrite (from_byte_S_framed h "1" data Hh eq_refl), Hstrip.
  - by rewrite (from_byte_S_framed h "2" data Hh eq_refl), Hstrip.
Qed.

(** C2. The address [10] is canonical, and its round trip gives the address
    [1]: decoding strips the zeros at both ends of the destination field,
    so the zero the address ends in goes with the padding. *)
Theorem round_trip_loses_trailing_zero :
  canonical "10" = true ∧
  NetworkPacket.to_byte_S (NetworkPacket.mk "10" "data" "hello") = inr "000101hello" ∧
  NetworkPacket.from_byte_S "000101hello" = inr (NetworkPacket.mk "1" "data" "hello").
Proof. split_and!; reflexivity. Qed.

(** ** Entries of a table *)

Lemma entry_insert (t : table) (d d' k : string) (row : gmap string Z) :
  entry (<[d := row]> t) d' k = if decide (d = d') then row !! k else entry t d' k.
Proof.
  unfold entry. destruct (decide (d = d')) as [->|Hne].
  - by rewrite lookup_insert_eq.
  - by rewrite lookup_insert_ne.
Qed.

Lemma entry_row (t : table) (d k : string) (row : gmap string Z) :
  t !! d = Some row → entry t d k = row !! k.
Proof. unfold entry. by intros ->. Qed.

Lemma entry_no_row (t : table) (d k : string) :
  t !! d = None → entry t d k = None.
Proof. unfold entry. by intros ->. Qed.

Lemma cost_to_self_insert name (t : table) d z (row : gmap string Z) :
  cost_to_self name (<[d := row]> t) z =
  if decide (d = z) then default INF (row !! name) else cost_to_self name t z.
Proof. unfold cost_to_self. rewrite entry_insert. by case_decide. Qed.

Lemma rows_have_self_insert name (t : table) d (row : gmap string Z) :
  rows_have_self name t → is_Some (row !! name) →
  rows_have_self name (<[d := row]> t).
Proof.
  intros Ht Hrow d' row'. destruct (decide (d = d')) as [->|Hne].
  - rewrite lookup_insert_eq. by intros [= <-].
  - rewrite lookup_insert_ne by done. apply Ht.
Qed.

Lemma nonneg_insert (t : table) d (row : gmap string Z) :
  nonneg t → (∀ k c, row !! k = Some c → 0 ≤ c) → nonneg (<[d := row]> t).
Proof.
  intros Ht Hrow d' k c. rewrite entry_insert. case_decide; eauto.
Qed.

Lemma nonneg_row (t : table) d (row : gmap string Z) k c :
  nonneg t → t !! d = Some row → row !! k = Some c → 0 ≤ c.
Proof. intros Ht Hd Hk. apply (Ht d k c). by rewrite (entry_row _ _ _ _ Hd). Qed.

(** ** The relations between the table before and after *)

Lemma grows_refl name t : grows name t t.
Proof. by split. Qed.

Lemma grows_trans name t1 t2 t3 : grows name t1 t2 → grows name t2 t3 → grows name t1 t3.
Proof. intros [H1 H2] [H3 H4]. split; auto. Qed.

Lemma lowers_refl name t : lowers name t t.
Proof. intros z. lia. Qed.

Lemma lowers_trans name t1 t2 t3 : lowers name t1 t2 → lowers name t2 t3 → lowers name t1 t3.
Proof. intros H1 H2 z. specialize (H1 z). specialize (H2 z). lia. Qed.

Lemma keeps_zero_refl name t : keeps_zero name t t.
Proof. by split. Qed.

Lemma keeps_zero_trans name t1 t2 t3 :
  keeps_zero name t1 t2 → keeps_zero name t2 t3 → keeps_zero name t1 t3.
Proof. intros [H1 H2] [H3 H4]. split; auto. Qed.

Lemma relaxes_refl name u t : relaxes name u t u t.
Proof.
  split_and!; [apply grows_refl|apply lowers_refl|].
  split; [auto|]. intros [?|[z Hz]]; [done|lia].
Qed.

Lemma relaxes_trans name u1 t1 u2 t2 u3 t3 :
  relaxes name u1 t1 u2 t2 → relaxes name u2 t2 u3 t3 → relaxes name u1 t1 u3 t3.
Proof.
  intros (Hg1 & Hl1 & Hf1) (Hg2 & Hl2 & Hf2).
  split_and!; [by eapply grows_trans|by eapply lowers_trans|].
  rewrite Hf2, Hf1. split.
  - intros [[?|[z Hz]]|[z Hz]]; [by left|right; exists z..].
    + specialize (Hl2 z). lia.
    + specialize (Hl1 z). lia.
  - intros [?|[z Hz]]; [by left; left|].
    destruct (Z_lt_dec (cost_to_self name t2 z) (cost_to_self name t1 z)).
    + left; right. by exists z.
    + right. exists z. lia.
Qed.

(** ** The first loop of [update_routes]: the vector is written *)

Section write.
Variables (name r : string).

(** What one step does to the table, whatever its outcome: a row for a
    destination it did not have, and then the cost of [r] in that row. *)
Lemma write_step_cases (rvec : table) dst (t : table) :
  let t0 := if bool_decide (is_Some (t !! dst)) then t else <[dst := {[name := INF]}]> t in
  (∃ e, Merge.write_step name r rvec dst t = Raise e t0) ∨
  (∃ rvec' row c,
      Merge.write_step name r rvec dst t = Ok rvec' (<[dst := <[r := c]> row]> t0) ∧
      t0 !! dst = Some row ∧ entry rvec' dst r = Some c ∧
      rvec' = (if bool_decide (is_Some (rvec !! dst)) then rvec else <[dst := {[r := INF]}]> rvec)).
Proof.
  intros t0. unfold Merge.write_step. fold t0.
  set (rvec' := if bool_decide _ then rvec else _).
  destruct (rvec' !! dst) as [rrow|] eqn:Hrv; [|left; eauto].
  destruct (rrow !! r) as [c|] eqn:Hc; [|left; eauto].
  destruct (t0 !! dst) as [row|] eqn:Hrow; [|left; eauto].
  right. exists rvec', row, c. split_and!; try done.
  by rewrite (entry_row _ _ _ _ Hrv).
Qed.

Lemma new_row_grows (t : table) dst :
  grows name t (if bool_decide (is_Some (t !! dst)) then t else <[dst := {[name := INF]}]> t).
Proof.
  case_bool_decide as Hd; [apply grows_refl|]. split.
  - intros k Hk. destruct (decide (dst = k)) as [->|]; [done|]. by rewrite lookup_insert_ne.
  - intros Ht. apply rows_have_self_insert; [done|]. rewrite lookup_singleton_eq. eauto.
Qed.

Lemma new_row_lowers (t : table) dst :
  lowers name t (if bool_decide (is_Some (t !! dst)) then t else <[dst := {[name := INF]}]> t).
Proof.
  case_bool_decide as Hd; [apply lowers_refl|].
  apply eq_None_not_Some in Hd.
  intros z. rewrite cost_to_self_insert. case_decide as Hz; [subst|lia].
  rewrite lookup_singleton_eq. unfold cost_to_self. rewrite (entry_no_row _ _ _ Hd). simpl. lia.
Qed.

Lemma new_row_keeps_zero (t : table) dst :
  keeps_zero name t (if bool_decide (is_Some (t !! dst)) then t else <[dst := {[name := INF]}]> t).
Proof.
  case_bool_decide as Hd; [apply keeps_zero_refl|].
  apply eq_None_not_Some in Hd. split.
  - intros Ht. apply nonneg_insert; [done|]. intros k c [-> <-]%lookup_singleton_Some. unfold INF; lia.
  - intros _ H0. rewrite entry_insert. case_decide as Hz; [subst|done].
    by rewrite (entry_no_row _ _ _ Hd) in H0.
Qed.

Lemma set_cost_grows (t : table) dst (row : gmap string Z) c :
  t !! dst = Some row → grows name t (<[dst := <[r := c]> row]> t).
Proof.
  intros Hrow. split.
  - intros k Hk. destruct (decide (dst = k)) as [->|]; [by rewrite lookup_insert_eq|].
    by rewrite lookup_insert_ne.
  - intros Ht. apply rows_have_self_insert; [done|].
    destruct (decide (r = name)) as [->|]; [rewrite lookup_insert_eq; eauto|].
    rewrite lookup_insert_ne by done. eauto.
Qed.

Lemma set_cost_lowers (t : table) dst (row : gmap string Z) c :
  r ≠ name → t !! dst = Some row → lowers name t (<[dst := <[r := c]> row]> t).
Proof.
  intros Hr Hrow z. rewrite cost_to_self_insert. case_decide as Hz; [subst|lia].
  rewrite lookup_insert_ne by done. unfold cost_to_self.
  rewrite (entry_row _ _ _ _ Hrow). lia.
Qed.

Lemma set_cost_keeps_zero (t : table) dst (row : gmap string Z) c :
  r ≠ name → 0 ≤ c → t !! dst = Some row → keeps_zero name t (<[dst := <[r := c]> row]> t).
Proof.
  intros Hr Hc Hrow. split.
  - intros Ht. apply nonneg_insert; [done|]. intros k c'.
    destruct (decide (r = k)) as [->|]; [rewrite lookup_insert_eq; by intros [= <-]|].
    rewrite lookup_insert_ne by done. intros Hk. by apply (nonneg_row t dst row k c').
  - intros _ H0. rewrite entry_insert. case_decide as Hz; [subst|done].
    rewrite lookup_insert_ne by done. by rewrite <- (entry_row _ _ _ _ Hrow).
Qed.

Lemma extended_nonneg (rvec : table) dst :
  nonneg rvec →
  nonneg (if bool_decide (is_Some (rvec !! dst)) then rvec else <[dst := {[r := INF]}]> rvec).
Proof.
  intros Hv. case_bool_decide; [done|]. apply nonneg_insert; [done|].
  intros k c [-> <-]%lookup_singleton_Some. unfold INF; lia.
Qed.

Lemma extended_vector_of (rvec : table) dst :
  vector_of r rvec →
  vector_of r (if bool_decide (is_Some (rvec !! dst)) then rvec else <[dst := {[r := INF]}]> rvec).
Proof.
  intros Hv. case_bool_decide; [done|]. intros d row.
  destruct (decide (dst = d)) as [->|].
  - rewrite lookup_insert_eq. intros [= <-]. rewrite lookup_singleton_eq. eauto.
  - rewrite lookup_insert_ne by done. apply Hv.
Qed.

Lemma write_step_grows (rvec : table) dst (t : table) :
  grows name t (state_of (Merge.write_step name r rvec dst t)).
Proof.
  destruct (write_step_cases rvec dst t) as [[e ->]|(rvec' & row & c & -> & Hrow & _)]; simpl.
  - apply new_row_grows.
  - eapply grows_trans; [apply new_row_grows|]. by apply set_cost_grows.
Qed.

Lemma write_step_lowers (rvec : table) dst (t : table) :
  r ≠ name → lowers name t (state_of (Merge.write_step name r rvec dst t)).
Proof.
  intros Hr.
  destruct (write_step_cases rvec dst t) as [[e ->]|(rvec' & row & c & -> & Hrow & _)]; simpl.
  - apply new_row_lowers.
  - eapply lowers_trans; [apply new_row_lowers|]. by apply set_cost_lowers.
Qed.

Lemma write_step_keeps_zero (rvec : table) dst (t : table) :
  r ≠ name → nonneg rvec →
  outcome_all (λ rvec' t', nonneg rvec' ∧ keeps_zero name t t') (keeps_zero name t)
    (Merge.write_step name r rvec dst t).
Proof.
  intros Hr Hv.
  destruct (write_step_cases rvec dst t)
    as [[e ->]|(rvec' & row & c & -> & Hrow & Hc & ->)]; simpl.
  - apply new_row_keeps_zero.
  - pose proof (extended_nonneg rvec dst Hv) as Hv'. split; [done|].
    eapply keeps_zero_trans; [apply new_row_keeps_zero|].
    apply set_cost_keeps_zero; [done| |done]. by apply (Hv' dst r c).
Qed.

Lemma write_step_row (rvec rvec' : table) dst (t t' : table) :
  Merge.write_step name r rvec dst t = Ok rvec' t' → is_Some (t' !! dst).
Proof.
  destruct (write_step_cases rvec dst t)
    as [[e ->]|(rv & row & c & -> & Hrow & _)]; [done|].
  intros [= _ <-]. rewrite lookup_insert_eq. eauto.
Qed.

(** A vector of [r] is written without an exception. *)
Lemma write_step_total (rvec : table) dst (t : table) :
  vector_of r rvec →
  ∃ rvec' t', Merge.write_step name r rvec dst t = Ok rvec' t' ∧ vector_of r rvec'.
Proof.
  intros Hv. pose proof (extended_vector_of rvec dst Hv) as Hv'.
  unfold Merge.write_step.
  set (rv := if bool_decide _ then rvec else _) in *.
  set (t0 := if bool_decide _ then t else _).
  assert (is_Some (rv !! dst)) as [rrow Hrrow].
  { subst rv. case_bool_decide; [done|]. rewrite lookup_insert_eq. eauto. }
  assert (is_Some (t0 !! dst)) as [row Hrow].
  { subst t0. case_bool_decide; [done|]. rewrite lookup_insert_eq. eauto. }
  rewrite Hrrow. destruct (Hv' _ _ Hrrow) as [c ->]. rewrite Hrow. eauto.
Qed.

Lemma write_phase_cons dst keys (rvec : table) (t : table) :
  Merge.write_phase name r (dst :: keys) rvec t =
  match Merge.write_step name r rvec dst t with
  | Ok rvec' t' => Merge.write_phase name r keys rvec' t'
  | Raise e t' => Raise e t'
  | Blocked t' => Blocked t'
  end.
Proof. reflexivity. Qed.

Lemma write_phase_grows keys (rvec : table) (t : table) :
  grows name t (state_of (Merge.write_phase name r keys rvec t)).
Proof.
  revert rvec t. induction keys as [|dst keys IH]; intros rvec t.
  - apply grows_refl.
  - rewrite write_phase_cons. pose proof (write_step_grows rvec dst t) as Hs.
    destruct (Merge.write_step name r rvec dst t) as [rvec' t'|e t'|t']; simpl in *; try done.
    eapply grows_trans; [done|]. apply IH.
Qed.

Lemma write_phase_lowers keys (rvec : table) (t : table) :
  r ≠ name → lowers name t (state_of (Merge.write_phase name r keys rvec t)).
Proof.
  intros Hr. revert rvec t. induction keys as [|dst keys IH]; intros rvec t.
  - apply lowers_refl.
  - rewrite write_phase_cons. pose proof (write_step_lowers rvec dst t Hr) as Hs.
    destruct (Merge.write_step name r rvec dst t) as [rvec' t'|e t'|t']; simpl in *; try done.
    eapply lowers_trans; [done|]. apply IH.
Qed.

Lemma write_phase_keeps_zero keys (rvec : table) (t : table) :
  r ≠ name → nonneg rvec →
  keeps_zero name t (state_of (Merge.write_phase name r keys rvec t)).
Proof.
  intros Hr. revert rvec t. induction keys as [|dst keys IH]; intros rvec t Hv.
  - apply keeps_zero_refl.
  - rewrite write_phase_cons. pose proof (write_step_keeps_zero rvec dst t Hr Hv) as Hs.
    destruct (Merge.write_step name r rvec dst t) as [rvec' t'|e t'|t']; simpl in *; try done.
    destruct Hs as [Hv' Hs]. eapply keeps_zero_trans; [done|]. by apply IH.
Qed.

(** When the loop ends, every key it went through has a row. *)
Lemma write_phase_rows keys (rvec rvec' : table) (t t' : table) :
  Merge.write_phase name r keys rvec t = Ok rvec' t' →
  ∀ k, k ∈ keys → is_Some (t' !! k).
Proof.
  revert rvec t. induction keys as [|dst keys IH]; intros rvec t Hw k Hk.
  - by apply not_elem_of_nil in Hk.
  - rewrite write_phase_cons in Hw.
    destruct (Merge.write_step name r rvec dst t) as [rv1 t1|e t1|t1] eqn:Hs; try done.
    apply elem_of_cons in Hk as [->|Hk]; [|by eapply IH].
    pose proof (write_phase_grows keys rv1 t1) as [Hg _].
    rewrite Hw in Hg. apply Hg.
    by eapply write_step_row.
Qed.

Lemma write_phase_total keys (rvec : table) (t : table) :
  vector_of r rvec →
  ∃ rvec' t', Merge.write_phase name r keys rvec t = Ok rvec' t'.
Proof.
  intros Hv.
  destruct (for_fold_ok (λ rv _, vector_of r rv) (Merge.write_step name r) keys) with rvec t
    as (rv' & t' & Hw & _); [|done|by eauto].
  intros b s x _ Hb. apply write_step_total. done.
Qed.

End write.

(** ** The second loop of [update_routes]: the relaxation *)

Section relax.
Variables (name : string).

(** The row of [y] after [if v not in ycvec: ycvec[v] = 999]. *)
Lemma filled_row (row : gmap string Z) v :
  (if bool_decide (is_Some (row !! v)) then row else <[v := INF]> row)
  = <[v := default INF (row !! v)]> row.
Proof.
  case_bool_decide as Hv.
  - destruct Hv as [b Hb]. rewrite Hb. simpl. by rewrite insert_id.
  - apply eq_None_not_Some in Hv. by rewrite Hv.
Qed.

Lemma fill_grows (t : table) y v (row : gmap string Z) :
  t !! y = Some row → grows name t (<[y := <[v := default INF (row !! v)]> row]> t).
Proof.
  intros Hrow. split.
  - intros k Hk. destruct (decide (y = k)) as [->|]; [by rewrite lookup_insert_eq|].
    by rewrite lookup_insert_ne.
  - intros Ht. apply rows_have_self_insert; [done|].
    destruct (Ht _ _ Hrow) as [c Hc].
    destruct (decide (v = name)) as [->|]; [rewrite lookup_insert_eq; eauto|].
    rewrite lookup_insert_ne by done. eauto.
Qed.

Lemma fill_lowers (t : table) y v (row : gmap string Z) :
  t !! y = Some row → lowers name t (<[y := <[v := default INF (row !! v)]> row]> t).
Proof.
  intros Hrow. destruct (row !! v) as [b|] eqn:Hb; simpl.
  { rewrite (insert_id row v b Hb), (insert_id t y row Hrow). apply lowers_refl. }
  intros z. rewrite cost_to_self_insert. case_decide as Hz; [subst|lia].
  unfold cost_to_self. rewrite (entry_row _ _ _ _ Hrow).
  destruct (decide (v = name)) as [->|]; [rewrite lookup_insert_eq, Hb; simpl; lia|].
  rewrite lookup_insert_ne by done. lia.
Qed.

Lemma fill_keeps_zero (t : table) y v (row : gmap string Z) :
  t !! y = Some row → keeps_zero name t (<[y := <[v := default INF (row !! v)]> row]> t).
Proof.
  intros Hrow. destruct (row !! v) as [b|] eqn:Hb; simpl.
  { rewrite (insert_id row v b Hb), (insert_id t y row Hrow). apply keeps_zero_refl. }
  split.
  - intros Ht. apply nonneg_insert; [done|]. intros k c.
    destruct (decide (v = k)) as [->|]; [rewrite lookup_insert_eq; intros [= <-]; unfold INF; lia|].
    rewrite lookup_insert_ne by done. intros Hk. by apply (nonneg_row t y row k c).
  - intros _ H0. rewrite entry_insert. case_decide as Hz; [subst|done].
    rewrite (entry_row _ _ _ _ Hrow) in H0.
    destruct (decide (v = name)) as [->|]; [congruence|].
    by rewrite lookup_insert_ne.
Qed.

Lemma set_self_grows (t : table) y (row : gmap string Z) bf :
  t !! y = Some row → grows name t (<[y := <[name := bf]> row]> t).
Proof.
  intros Hrow. split.
  - intros k Hk. destruct (decide (y = k)) as [->|]; [by rewrite lookup_insert_eq|].
    by rewrite lookup_insert_ne.
  - intros Ht. apply rows_have_self_insert; [done|]. rewrite lookup_insert_eq. eauto.
Qed.

Lemma set_self_lowers (t : table) y (row : gmap string Z) bf c :
  t !! y = Some row → row !! name = Some c → bf < c →
  lowers name t (<[y := <[name := bf]> row]> t).
Proof.
  intros Hrow Hc Hlt z. rewrite cost_to_self_insert. case_decide as Hz; [subst|lia].
  rewrite lookup_insert_eq. unfold cost_to_self.
  rewrite (entry_row _ _ _ _ Hrow), Hc. simpl. lia.
Qed.

Lemma set_self_keeps_zero (t : table) y (row : gmap string Z) bf c :
  t !! y = Some row → row !! name = Some c → bf < c → (nonneg t → 0 ≤ bf) →
  keeps_zero name t (<[y := <[name := bf]> row]> t).
Proof.
  intros Hrow Hc Hlt Hbf. split.
  - intros Ht. apply nonneg_insert; [done|]. intros k c'.
    destruct (decide (name = k)) as [->|]; [rewrite lookup_insert_eq; intros [= <-]; auto|].
    rewrite lookup_insert_ne by done. intros Hk. by apply (nonneg_row t y row k c').
  - intros Ht H0. rewrite entry_insert. case_decide as Hz; [subst|done].
    rewrite (entry_row _ _ _ _ Hrow), Hc in H0. injection H0 as ->.
    specialize (Hbf Ht). lia.
Qed.

(** The outcomes of one relaxation. *)
Lemma relax_step_cases y u v (t : table) :
  (v = y ∧ Merge.relax_step name y u v t = Ok u t) ∨
  (t !! y = None ∧ Merge.relax_step name y u v t = Raise (KeyError y) t) ∨
  (∃ row, v ≠ y ∧ t !! y = Some row ∧
     let ycvec := <[v := default INF (row !! v)]> row in
     let t1 := <[y := ycvec]> t in
     (∃ e, Merge.relax_step name y u v t = Raise e t1) ∨
     (∃ a b c, entry t v name = Some a ∧ ycvec !! v = Some b ∧ ycvec !! name = Some c ∧
        Merge.relax_step name y u v t =
          if a + b <? c then Ok true (<[y := <[name := a + b]> ycvec]> t1) else Ok u t1)).
Proof.
  unfold Merge.relax_step.
  destruct (String.eqb v y) eqn:Hvy.
  { apply String.eqb_eq in Hvy. by left. }
  apply String.eqb_neq in Hvy. right.
  destruct (t !! y) as [row|] eqn:Hrow; [right|by left].
  exists row. split_and!; try done. rewrite filled_row. simpl.
  rewrite lookup_insert_ne by done.
  destruct (t !! v) as [vcvec|] eqn:Hv; [|left; eauto].
  destruct (vcvec !! name) as [a|] eqn:Ha; [|left; eauto].
  rewrite lookup_insert_eq. simpl.
  destruct (<[v := default INF (row !! v)]> row !! name) as [c|] eqn:Hc; [|left; eauto].
  right. exists a, (default INF (row !! v)), c.
  rewrite (entry_row _ _ _ _ Hv). done.
Qed.

(** Whatever its outcome, one relaxation keeps the rows, lowers costs of
    the owner only, and keeps the costs from becoming negative. *)
Lemma relax_step_keeps y u v (t : table) :
  grows name t (state_of (Merge.relax_step name y u v t)) ∧
  lowers name t (state_of (Merge.relax_step name y u v t)) ∧
  keeps_zero name t (state_of (Merge.relax_step name y u v t)).
Proof.
  destruct (relax_step_cases y u v t)
    as [[_ ->]|[[_ ->]|(row & Hvy & Hrow & [[e ->]|(a & b & c & Ha & Hb & Hc & ->)])]]; simpl.
  - split_and!; [apply grows_refl|apply lowers_refl|apply keeps_zero_refl].
  - split_and!; [apply grows_refl|apply lowers_refl|apply keeps_zero_refl].
  - split_and!; [by apply fill_grows|by apply fill_lowers|by apply fill_keeps_zero].
  - pose proof (fill_grows t y v row Hrow) as Hg.
    pose proof (fill_lowers t y v row Hrow) as Hl.
    pose proof (fill_keeps_zero t y v row Hrow) as Hz.
    destruct (a + b <? c) eqn:Hlt; simpl; [|done].
    apply Z.ltb_lt in Hlt.
    set (ycvec := <[v := default INF (row !! v)]> row) in *.
    set (t1 := <[y := ycvec]> t) in *.
    assert (t1 !! y = Some ycvec) as Hy by (subst t1; by rewrite lookup_insert_eq).
    split_and!.
    + eapply grows_trans; [done|]. by apply set_self_grows.
    + eapply lowers_trans; [done|]. by apply set_self_lowers with c.
    + eapply keeps_zero_trans; [done|]. apply set_self_keeps_zero with c; try done.
      intros Ht1.
      assert (entry t1 v name = Some a) as Ha1.
      { subst t1. rewrite entry_insert. by case_decide. }
      pose proof (Ht1 v name a Ha1).
      pose proof (nonneg_row t1 y ycvec v b Ht1 Hy Hb). lia.
Qed.

(** With the rows and the owner's entries in place, one relaxation is the
    minimum and raises nothing. *)
Lemma relax_step_min y u v (t : table) :
  rows_have_self name t → is_Some (t !! y) → is_Some (t !! v) →
  ∃ u', Merge.relax_step name y u v t = Ok u' (relax_min_step name y t v) ∧
        relaxes name u t u' (relax_min_step name y t v).
Proof.
  intros Ht [row Hrow] [vrow Hvrow].
  destruct (Ht _ _ Hrow) as [c Hc]. destruct (Ht _ _ Hvrow) as [a Ha].
  pose proof (relax_step_keeps y u v t) as (Hg & Hl & _).
  unfold Merge.relax_step, relax_min_step in *.
  destruct (String.eqb v y) eqn:Hvy.
  { exists u. split; [done|apply relaxes_refl]. }
  apply String.eqb_neq in Hvy.
  rewrite Hrow in *. rewrite filled_row in *. simpl in *.
  rewrite (entry_row _ _ _ _ Hvrow), Ha, Hc. simpl.
  rewrite lookup_insert_ne in * by done. rewrite Hvrow, Ha in *.
  rewrite lookup_insert_eq in *.
  set (b := default INF (row !! v)) in *.
  assert (<[v := b]> row !! name = Some c) as Hc'.
  { destruct (decide (v = name)) as [->|]; [|by rewrite lookup_insert_ne].
    rewrite lookup_insert_eq. subst b. by rewrite Hc. }
  rewrite Hc' in *.
  destruct (a + b <? c) eqn:Hlt; simpl in *.
  - apply Z.ltb_lt in Hlt. rewrite Z.min_r by lia.
    rewrite insert_insert_eq in *. exists true. split; [done|].
    split_and!; try done. split; [|done]. intros _. right. exists y.
    rewrite cost_to_self_insert. rewrite decide_True by done.
    rewrite lookup_insert_eq. unfold cost_to_self.
    rewrite (entry_row _ _ _ _ Hrow), Hc. simpl. lia.
  - apply Z.ltb_ge in Hlt. rewrite Z.min_l by lia.
    rewrite (insert_id (<[v := b]> row) name c Hc').
    exists u. split; [done|]. split_and!; try done.
    split; [auto|]. intros [?|[z Hz]]; [done|]. exfalso.
    rewrite cost_to_self_insert in Hz. case_decide as Hyz; [subst z|lia].
    rewrite Hc' in Hz. unfold cost_to_self in Hz.
    rewrite (entry_row _ _ _ _ Hrow), Hc in Hz. simpl in Hz. lia.
Qed.

(** A loop whose body is such a minimum is the fold of the minima. *)
Lemma for_fold_relaxes {A} (body : bool → A → M table bool)
    (f : table → A → table) (l : list A) :
  ∀ t0,
    (∀ u t x, x ∈ l → grows name t0 t →
       ∃ u', body u x t = Ok u' (f t x) ∧ relaxes name u t u' (f t x)) →
    ∀ u, ∃ u', for_fold l body u t0 = Ok u' (foldl f t0 l) ∧
               relaxes name u t0 u' (foldl f t0 l).
Proof.
  induction l as [|x l IH]; intros t0 Hbody u; simpl.
  - exists u. split; [done|apply relaxes_refl].
  - unfold mbind, M_bind.
    destruct (Hbody u t0 x (list_elem_of_here _ _) (grows_refl _ _)) as (u1 & -> & Hr1).
    destruct (IH (f t0 x)) with u1 as (u' & Hl & Hr2).
    { intros u2 t x0 Hin Hg. apply Hbody; [by apply list_elem_of_further|].
      eapply grows_trans; [|done]. apply Hr1. }
    exists u'. split; [done|]. by eapply relaxes_trans.
Qed.

Lemma relax_phase_min keys routers u (t : table) :
  rows_have_self name t →
  (∀ k, k ∈ keys → is_Some (t !! k)) →
  (∀ v, v ∈ routers → is_Some (t !! v)) →
  ∃ u', Merge.relax_phase name keys routers u t = Ok u' (relax_min name keys routers t) ∧
        relaxes name u t u' (relax_min name keys routers t).
Proof.
  intros Ht Hkeys Hrouters. unfold Merge.relax_phase, relax_min.
  apply (for_fold_relaxes
           (λ updated y, for_fold routers (Merge.relax_step name y) updated)
           (λ t y, foldl (relax_min_step name y) t routers)).
  intros u1 t1 y Hy [Hdom1 Hrows1].
  apply (for_fold_relaxes (Merge.relax_step name y) (relax_min_step name y)).
  intros u2 t2 v Hv [Hdom2 Hrows2].
  apply relax_step_min; auto.
Qed.

(** Whatever its outcome, the relaxation keeps the three relations. *)
Lemma relax_phase_keeps keys routers u (t : table) :
  let t' := state_of (Merge.relax_phase name keys routers u t) in
  grows name t t' ∧ lowers name t t' ∧ keeps_zero name t t'.
Proof.
  set (K := λ t t' : table, grows name t t' ∧ lowers name t t' ∧ keeps_zero name t t').
  assert (∀ t1 t2 t3, K t1 t2 → K t2 t3 → K t1 t3) as Ktrans.
  { intros t1 t2 t3 (? & ? & ?) (? & ? & ?).
    split_and!; [by eapply grows_trans|by eapply lowers_trans|by eapply keeps_zero_trans]. }
  assert (∀ t1, K t1 t1) as Krefl.
  { intros t1. split_and!; [apply grows_refl|apply lowers_refl|apply keeps_zero_refl]. }
  assert (∀ {A} (body : bool → A → M table bool) (l : list A),
            (∀ u x t, K t (state_of (body u x t))) →
            ∀ u t, K t (state_of (for_fold l body u t))) as Hloop.
  { intros A body l Hbody. induction l as [|x l IH]; intros u0 t0; simpl; [done|].
    unfold mbind, M_bind. specialize (Hbody u0 x t0).
    destruct (body u0 x t0) as [u1 t1|e t1|t1]; simpl in *; try done.
    eapply Ktrans; [done|]. apply IH. }
  simpl. unfold Merge.relax_phase. apply Hloop. intros u1 y t1.
  apply Hloop. intros u2 v t2. apply relax_step_keeps.
Qed.

End relax.

(** ** The merge *)

Section merge.
Variables (name r : string).

Lemma merge_unfold keys (rvec : table) (t : table) :
  Merge.merge name r keys rvec t =
  match Merge.write_phase name r keys rvec t with
  | Ok _ t1 =>
      Merge.relax_phase name keys (filter (λ key, PyStr.startswith "R" key) keys) false t1
  | Raise e t1 => Raise e t1
  | Blocked t1 => Blocked t1
  end.
Proof. reflexivity. Qed.

Lemma merge_grows keys (rvec : table) (t : table) :
  grows name t (state_of (Merge.merge name r keys rvec t)).
Proof.
  rewrite merge_unfold. pose proof (write_phase_grows name r keys rvec t) as Hw.
  destruct (Merge.write_phase name r keys rvec t) as [rv t1|e t1|t1]; simpl in *; try done.
  eapply grows_trans; [done|]. apply relax_phase_keeps.
Qed.

Lemma merge_lowers keys (rvec : table) (t : table) :
  r ≠ name → lowers name t (state_of (Merge.merge name r keys rvec t)).
Proof.
  intros Hr.
  rewrite merge_unfold. pose proof (write_phase_lowers name r keys rvec t Hr) as Hw.
  destruct (Merge.write_phase name r keys rvec t) as [rv t1|e t1|t1]; simpl in *; try done.
  eapply lowers_trans; [done|]. apply relax_phase_keeps.
Qed.

Lemma merge_keeps_zero keys (rvec : table) (t : table) :
  r ≠ name → nonneg rvec → keeps_zero name t (state_of (Merge.merge name r keys rvec t)).
Proof.
  intros Hr Hv.
  rewrite merge_unfold. pose proof (write_phase_keeps_zero name r keys rvec t Hr Hv) as Hw.
  destruct (Merge.write_phase name r keys rvec t) as [rv t1|e t1|t1]; simpl in *; try done.
  eapply keeps_zero_trans; [done|]. apply relax_phase_keeps.
Qed.

Lemma routers_in_keys (keys : list string) v :
  v ∈ filter (λ key, PyStr.startswith "R" key) keys → v ∈ keys.
Proof. intros Hv. by apply list_elem_of_filter in Hv as [_ ?]. Qed.

(** After a vector that was written, the relaxation is the fold of the
    minima. *)
Lemma merge_min keys (rvec rvec' : table) (t t1 : table) :
  rows_have_self name t →
  Merge.write_phase name r keys rvec t = Ok rvec' t1 →
  let routers := filter (λ key, PyStr.startswith "R" key) keys in
  ∃ u, Merge.merge name r keys rvec t = Ok u (relax_min name keys routers t1) ∧
       relaxes name false t1 u (relax_min name keys routers t1).
Proof.
  intros Ht Hw routers. rewrite merge_unfold, Hw.
  pose proof (write_phase_grows name r keys rvec t) as [_ Hrows].
  rewrite Hw in Hrows. simpl in Hrows.
  pose proof (write_phase_rows name r keys rvec rvec' t t1 Hw) as Hkeys.
  apply relax_phase_min; auto.
  intros v Hv. apply Hkeys. by apply routers_in_keys.
Qed.

End merge.

(** ** The table of the constructor *)

Section init.
Variables (name : string).

Lemma init_row_self (items : dict Z Z) (row : gmap string Z) :
  is_Some (row !! name) ∨ items ≠ [] →
  is_Some (foldl (λ row kv, <[name := kv.2]> row) row items !! name).
Proof.
  revert row. induction items as [|kv items IH]; intros row [Hrow|Hne]; simpl; try done.
  - apply IH. left. rewrite lookup_insert_eq. eauto.
  - apply IH. left. rewrite lookup_insert_eq. eauto.
Qed.

Lemma init_row_costs (P : Z → Prop) (items : dict Z Z) (row : gmap string Z) :
  (∀ k c, row !! k = Some c → P c) →
  (∀ i c, (i, c) ∈ items → P c) →
  ∀ k c, foldl (λ row kv, <[name := kv.2]> row) row items !! k = Some c → P c.
Proof.
  revert row. induction items as [|[i0 c0] items IH]; intros row Hrow Hitems; simpl; [done|].
  apply IH.
  - intros k c. destruct (decide (name = k)) as [->|].
    + rewrite lookup_insert_eq. intros [= <-]. apply (Hitems i0). apply list_elem_of_here.
    + rewrite lookup_insert_ne by done. apply Hrow.
  - intros i c Hin. apply (Hitems i). by apply list_elem_of_further.
Qed.

Lemma init_rows_fold (P : gmap string Z → Prop) (cost_D : dict string (dict Z Z)) (acc : table) :
  (∀ d row, acc !! d = Some row → P row) →
  (∀ nb items, (nb, items) ∈ cost_D → P (Router.init_row name items)) →
  ∀ d row,
    foldl (λ tbl nv, <[nv.1 := Router.init_row name nv.2]> tbl) acc cost_D !! d = Some row →
    P row.
Proof.
  revert acc. induction cost_D as [|[nb items] cost_D IH]; intros acc Hacc Hrows; simpl; [done|].
  apply IH.
  - intros d row. destruct (decide (nb = d)) as [->|].
    + rewrite lookup_insert_eq. intros [= <-]. apply (Hrows d). apply list_elem_of_here.
    + rewrite lookup_insert_ne by done. apply Hacc.
  - intros nb' items' Hin. apply (Hrows nb'). by apply list_elem_of_further.
Qed.

Lemma init_rows_dom (cost_D : dict string (dict Z Z)) (acc : table) k :
  k ∈ dict_keys cost_D ∨ is_Some (acc !! k) →
  is_Some (foldl (λ tbl nv, <[nv.1 := Router.init_row name nv.2]> tbl) acc cost_D !! k).
Proof.
  revert acc. induction cost_D as [|[nb items] cost_D IH]; intros acc [Hk|Hk]; simpl.
  - by apply not_elem_of_nil in Hk.
  - done.
  - apply IH. unfold dict_keys in Hk. rewrite fmap_cons in Hk. simpl in Hk.
    apply elem_of_cons in Hk as [->|Hk]; [right; by rewrite lookup_insert_eq|by left].
  - apply IH. right. destruct (decide (nb = k)) as [->|]; [by rewrite lookup_insert_eq|].
    by rewrite lookup_insert_ne.
Qed.

Lemma init_rows_have_self cost_D q :
  has_interfaces cost_D → rows_have_self name (Router.rt_tbl_D (Router.init name cost_D q)).
Proof.
  intros Hi. simpl. apply rows_have_self_insert; [|rewrite lookup_singleton_eq; eauto].
  intros d row. apply (init_rows_fold (λ row, is_Some (row !! name))); [done|].
  intros nb items Hin. apply init_row_self. right. by apply (Hi nb).
Qed.

Lemma init_neighbor_rows cost_D q nb :
  nb ∈ dict_keys cost_D →
  is_Some (Router.rt_tbl_D (Router.init name cost_D q) !! nb).
Proof.
  intros Hnb. simpl. destruct (decide (name = nb)) as [->|]; [by rewrite lookup_insert_eq|].
  rewrite lookup_insert_ne by done. apply init_rows_dom. by left.
Qed.

Lemma init_nonneg cost_D q :
  link_costs (λ c, 0 ≤ c) cost_D → nonneg (Router.rt_tbl_D (Router.init name cost_D q)).
Proof.
  intros Hc. simpl. apply nonneg_insert.
  - intros d k c. unfold entry.
    destruct (foldl _ _ _ !! d) as [row|] eqn:Hrow; [simpl|done]. revert k c.
    revert d row Hrow.
    apply (init_rows_fold (λ row, ∀ k c, row !! k = Some c → 0 ≤ c)); [done|].
    intros nb items Hin k c. apply (init_row_costs (λ c, 0 ≤ c)); [done|].
    intros i c' Hi. by apply (Hc nb items i).
  - intros k c [-> <-]%lookup_singleton_Some. lia.
Qed.

Lemma init_self_zero cost_D q :
  entry (Router.rt_tbl_D (Router.init name cost_D q)) name name = Some 0.
Proof. simpl. rewrite entry_insert, decide_True by done. by rewrite lookup_singleton_eq. Qed.

End init.

(** ** The properties of the merge *)

(** Splits the membership in a list that is written out. *)
Ltac list_cases :=
  repeat match goal with
    | H : _ ∈ [] |- _ => by apply not_elem_of_nil in H
    | H : _ ∈ _ :: _ |- _ => apply elem_of_cons in H as [H|H]; simplify_eq
    end.

(** C1, as the code has it. Once the received vector is written into the
    table (the table is then [t1]), the merge raises nothing and leaves the
    table the fold of the minima describes: for every key [y] and every key
    [v] that starts with [R], [v] other than [y], in the order of the keys,
    [table[y][name]] becomes the smaller of itself and
    [table[v][name] + table[y][v]], a missing [table[y][v]] being stored as
    [999] first. Its flag is set exactly when some cost of the owner ends
    lower than it was in [t1]. *)
Theorem merge_relaxes_to_minimum (name r : string) (keys : list string)
    (rvec rvec' t t1 : table) :
  rows_have_self name t →
  Merge.write_phase name r keys rvec t = Ok rvec' t1 →
  let t' := relax_min name keys (filter (λ key, PyStr.startswith "R" key) keys) t1 in
  ∃ updated,
    Merge.merge name r keys rvec t = Ok updated t' ∧
    (updated = true ↔ ∃ y, cost_to_self name t' y < cost_to_self name t1 y).
Proof.
  intros Ht Hw t'.
  destruct (merge_min name r keys rvec rvec' t t1 Ht Hw) as (u & Hm & _ & _ & Hflag).
  exists u. split; [done|]. rewrite Hflag. split; [|by right].
  by intros [?|?].
Qed.

Lemma ex_R1_rows : rows_have_self "R1" (Router.rt_tbl_D ex_R1).
Proof.
  apply init_rows_have_self. intros nb items Hin. unfold ex_cost_D in Hin. by list_cases.
Qed.

Lemma merge_relaxes_to_minimum_witness :
  let t1 := state_of (Merge.write_phase "R1" "R2" ex_keys ex_vec (Router.rt_tbl_D ex_R1)) in
  let t' := relax_min "R1" ex_keys (filter (λ key, PyStr.startswith "R" key) ex_keys) t1 in
  cost_to_self "R1" t1 "H1" = 999 ∧ cost_to_self "R1" t' "H1" = 4 ∧
  ∃ updated,
    Merge.merge "R1" "R2" ex_keys ex_vec (Router.rt_tbl_D ex_R1) = Ok updated t' ∧
    (updated = true ↔ ∃ y, cost_to_self "R1" t' y < cost_to_self "R1" t1 y).
Proof.
  intros t1 t'. split; [vm_compute; reflexivity|]. split; [vm_compute; reflexivity|].
  apply (merge_relaxes_to_minimum "R1" "R2" ex_keys ex_vec ex_vec (Router.rt_tbl_D ex_R1) t1).
  - exact ex_R1_rows.
  - vm_compute. reflexivity.
Defined.

(** C1, as the specification words it, fails. [R1] is linked to [R2] at
    cost [10] and has learnt from [R3] a path to [R2] of cost [2]. When it
    merges the vector of [R2], which has [H1] at cost [1], its cost to [H1]
    becomes [3], its cost to [R2] plus what [R2] reports. The formula of the
    specification, with the link cost of [R2], gives [999] with
    [table[R2][H1]] read as the table has it, and [11] with it read as the
    cost [R2] reports for [H1]; through [R3] it gives [999] either way. *)
Lemma relaxation_is_not_the_spec_formula :
  iterates ["R1"; "R2"; "R3"]
    (dom (Router.rt_tbl_D (Router.init "R1" ex_far_cost_D 0)) ∪ dom ex_vec_R3) ∧
  iterates ex_far_keys (dom ex_far_first ∪ dom ex_vec_R2) ∧
  cost_to_self "R1" ex_far_first "R2" = 2 ∧
  link_cost ex_far_cost_D "R2" = 10 ∧
  cost_to_self "R1" ex_far_written "H1" = 999 ∧
  cost_to_self "R1" ex_far_merged "H1" = 3 ∧
  spec_relaxed ex_far_cost_D "R1" ex_far_written "H1" "R2" = 999 ∧
  spec_relaxed ex_far_cost_D "R1" ex_far_written "H1" "R3" = 999 ∧
  spec_relaxed_reported ex_far_cost_D "R1" ex_far_written "H1" "R2" = 11 ∧
  spec_relaxed_reported ex_far_cost_D "R1" ex_far_written "H1" "R3" = 999.
Proof.
  split; [split; apply (bool_decide_unpack _); vm_compute; exact I|].
  split; [split; apply (bool_decide_unpack _); vm_compute; exact I|].
  vm_compute. split_and!; reflexivity.
Qed.

(** C3, as the code has it. With link costs that are not negative, and
    after any number of merges of vectors whose costs are not negative and
    whose sender is not the owner, the owner has cost [0] to itself. This
    holds of the table a merge leaves when it raises as well. *)
Theorem self_cost_stays_zero (name : string) (cost_D : dict string (dict Z Z)) (t : table) :
  link_costs (λ c, 0 ≤ c) cost_D →
  reachable (λ r rvec, r ≠ name ∧ nonneg rvec) name cost_D t →
  entry t name name = Some 0 ∧ cost_to_self name t name = 0.
Proof.
  intros Hc Hreach.
  assert (nonneg t ∧ entry t name name = Some 0) as [_ H0].
  { induction Hreach as [q|t r keys rvec _ [IHn IH0] [Hr Hv] _].
    - split; [by apply init_nonneg|apply init_self_zero].
    - destruct (merge_keeps_zero name r keys rvec t Hr Hv) as [Hn Hz]. auto. }
  split; [done|]. unfold cost_to_self. by rewrite H0.
Qed.

Lemma ex_keys_iterate : iterates ex_keys (dom (Router.rt_tbl_D ex_R1) ∪ dom ex_vec).
Proof. split; apply (bool_decide_unpack _); vm_compute; exact I. Qed.

Lemma ex_own_keys_iterate :
  iterates ["R1"; "R2"] (dom (Router.rt_tbl_D ex_R1) ∪ dom ex_own_vec).
Proof. split; apply (bool_decide_unpack _); vm_compute; exact I. Qed.

Lemma ex_vec_nonneg : nonneg ex_vec.
Proof. apply init_nonneg. intros nb items i c Hnb Hi. list_cases; lia. Qed.

Lemma ex_cost_D_nonneg : link_costs (λ c, 0 ≤ c) ex_cost_D.
Proof. intros nb items i c Hnb Hi. unfold ex_cost_D in Hnb. list_cases; lia. Qed.

Lemma self_cost_stays_zero_witness :
  entry (state_of (Merge.merge "R1" "R2" ex_keys ex_vec (Router.rt_tbl_D ex_R1))) "R1" "R1"
    = Some 0 ∧
  cost_to_self "R1"
    (state_of (Merge.merge "R1" "R2" ex_keys ex_vec (Router.rt_tbl_D ex_R1))) "R1" = 0.
Proof.
  apply (self_cost_stays_zero "R1" ex_cost_D).
  - exact ex_cost_D_nonneg.
  - apply reach_merge; [apply (reach_init _ "R1" ex_cost_D 0)| |exact ex_keys_iterate].
    split; [discriminate|exact ex_vec_nonneg].
Defined.

Lemma ex_own_vec_nonneg : nonneg ex_own_vec.
Proof.
  intros d k c. unfold entry, ex_own_vec.
  destruct (decide (d = "R1")) as [->|]; [|by rewrite lookup_singleton_ne].
  rewrite lookup_singleton_eq. simpl. intros [_ <-]%lookup_singleton_Some. lia.
Qed.

(** C3, as the specification words it, fails: a vector whose costs are not
    negative and that names the owner as its sender overwrites the owner's
    cost to itself. *)
Lemma self_cost_overwritten_by_own_vector :
  ¬ (∀ name cost_D t,
       link_costs (λ c, 0 ≤ c) cost_D →
       reachable (λ _ rvec, nonneg rvec) name cost_D t →
       entry t name name = Some 0).
Proof.
  intros Hspec.
  specialize (Hspec "R1" ex_cost_D
    (state_of (Merge.merge "R1" "R1" ["R1"; "R2"] ex_own_vec (Router.rt_tbl_D ex_R1)))
    ex_cost_D_nonneg).
  assert (entry (state_of (Merge.merge "R1" "R1" ["R1"; "R2"] ex_own_vec (Router.rt_tbl_D ex_R1)))
            "R1" "R1" = Some 5) as H5 by (vm_compute; reflexivity).
  rewrite Hspec in H5; [discriminate|].
  apply reach_merge;
    [apply (reach_init _ "R1" ex_cost_D 0)|exact ex_own_vec_nonneg|exact ex_own_keys_iterate].
Qed.

(** C4, as the code has it. A merge of a vector whose sender is not the
    owner raises no cost of the owner: for every destination [y], the cost
    the merge leaves is at most the cost before it, an absent cost counting
    as [999]; this holds of the table a merge leaves when it raises as
    well. *)
Theorem merge_never_raises_a_cost (name r : string) (keys : list string) (rvec t : table) :
  r ≠ name →
  ∀ y, cost_to_self name (state_of (Merge.merge name r keys rvec t)) y ≤ cost_to_self name t y.
Proof. intros Hr. by apply merge_lowers. Qed.

Lemma merge_never_raises_a_cost_witness :
  cost_to_self "R1" (state_of (Merge.merge "R1" "R2" ex_keys ex_vec (Router.rt_tbl_D ex_R1))) "H1"
  ≤ cost_to_self "R1" (Router.rt_tbl_D ex_R1) "H1".
Proof. apply (merge_never_raises_a_cost "R1" "R2"). discriminate. Defined.

(** C4, as the specification words it, fails: with positive link costs, a
    vector that names the owner as its sender raises the owner's cost to
    its neighbour [R2] from [1] to [999]. *)
Lemma own_vector_raises_a_cost :
  ¬ (∀ name cost_D r keys rvec t y,
       link_costs (λ c, 0 < c) cost_D →
       reachable (λ _ _, True) name cost_D t →
       iterates keys (dom t ∪ dom rvec) →
       cost_to_self name (state_of (Merge.merge name r keys rvec t)) y ≤ cost_to_self name t y).
Proof.
  intros Hspec.
  specialize (Hspec "R1" ex_cost_D "R1" ["R1"; "R2"] ex_own_vec (Router.rt_tbl_D ex_R1) "R2").
  assert (cost_to_self "R1"
            (state_of (Merge.merge "R1" "R1" ["R1"; "R2"] ex_own_vec (Router.rt_tbl_D ex_R1))) "R2"
          = 999) as H1 by (vm_compute; reflexivity).
  assert (cost_to_self "R1" (Router.rt_tbl_D ex_R1) "R2" = 1) as H2 by (vm_compute; reflexivity).
  rewrite H1, H2 in Hspec.
  assert (999 ≤ 1); [|lia]. apply Hspec.
  - intros nb items i c Hnb Hi. unfold ex_cost_D in Hnb. list_cases; lia.
  - apply (reach_init _ "R1" ex_cost_D 0).
  - exact ex_own_keys_iterate.
Qed.

(** C10, as the code has it. When every neighbour of the cost table has
    an interface, every row of the table has a cost of the owner, after the
    constructor and after every merge, also one that raises. So the table
    has [table[nb][name]] for every neighbour [nb], which is what
    forwarding reads, and the merge of a vector that has the cost of its
    sender in every row ends without an exception. *)
Theorem rows_keep_the_cost_of_the_owner (name : string)
    (cost_D : dict string (dict Z Z)) (t : table) :
  has_interfaces cost_D →
  reachable (λ _ _, True) name cost_D t →
  rows_have_self name t ∧
  (∀ nb, nb ∈ dict_keys cost_D → is_Some (entry t nb name)) ∧
  (∀ r keys rvec, vector_of r rvec →
     ∃ updated t', Merge.merge name r keys rvec t = Ok updated t').
Proof.
  intros Hi Hreach.
  assert (rows_have_self name t ∧ ∀ nb, nb ∈ dict_keys cost_D → is_Some (t !! nb)) as [Hrows Hnb].
  { induction Hreach as [q|t r keys rvec _ [IHr IHn] _ _].
    - split; [by apply init_rows_have_self|]. intros nb. apply init_neighbor_rows.
    - destruct (merge_grows name r keys rvec t) as [Hdom Hrows]. split; auto. }
  split_and!; [done| |].
  - intros nb [row Hrow]%Hnb. rewrite (entry_row _ _ _ _ Hrow). by apply (Hrows nb).
  - intros r keys rvec Hv.
    destruct (write_phase_total name r keys rvec t Hv) as (rvec' & t1 & Hw).
    destruct (merge_min name r keys rvec rvec' t t1 Hrows Hw) as (u & Hm & _). eauto.
Qed.

Lemma rows_keep_the_cost_of_the_owner_witness :
  rows_have_self "R1" (state_of (Merge.merge "R1" "R2" ex_keys ex_vec (Router.rt_tbl_D ex_R1))).
Proof.
  apply (rows_keep_the_cost_of_the_owner "R1" ex_cost_D).
  - intros nb items Hin. unfold ex_cost_D in Hin. by list_cases.
  - apply reach_merge; [apply (reach_init _ "R1" ex_cost_D 0)|exact I|exact ex_keys_iterate].
Defined.

(** C10, as the specification words it, fails: the constructor gives a
    neighbour without an interface an empty row. *)
Lemma bare_neighbor_has_an_empty_row :
  ¬ (∀ name cost_D t, reachable (λ _ _, True) name cost_D t → rows_have_self name t).
Proof.
  intros Hspec.
  specialize (Hspec "R1" ex_bare_cost_D _ (reach_init _ "R1" ex_bare_cost_D 0) "H1" ∅).
  destruct Hspec as [c Hc]; [by vm_compute|]. by rewrite lookup_empty in Hc.
Qed.

(** ** Interfaces of a router *)

Lemma py_pos_nat {A} (l : list A) (k : nat) :
  (k < length l)%nat → py_pos l (Z.of_nat k) = Some k.
Proof.
  intros Hk. unfold py_pos.
  rewrite (proj2 (Z.leb_le 0 (Z.of_nat k))) by lia.
  rewrite (proj2 (Z.ltb_lt (Z.of_nat k) (Z.of_nat (length l)))) by lia.
  simpl. by rewrite Nat2Z.id.
Qed.

Lemma py_index_pos {A} (l : list A) (i : Z) (k : nat) (x : A) :
  py_pos l i = Some k → l !! k = Some x → py_index l i = Some x.
Proof. unfold py_index. intros -> Hx. simpl. exact Hx. Qed.

(** A put that waits raises nothing: it ends or it waits. *)
Lemma put_blocking (pkt : string) (intf : Interface.t) :
  Interface.put pkt "out" true intf =
  if Interface.full (Interface.maxsize intf) (Interface.out_queue intf)
  then Blocked intf else Ok tt (push_out pkt intf).
Proof. reflexivity. Qed.

Lemma at_intf_put (R : Router.t) (out : Z) (k : nat) (intf : Interface.t) (pkt : string) :
  py_pos (Router.intf_L R) out = Some k → Router.intf_L R !! k = Some intf →
  Router.at_intf out (Interface.put pkt "out" true) R =
  if Interface.full (Interface.maxsize intf) (Interface.out_queue intf)
  then Blocked R
  else Ok tt (Router.set_intf_L R (<[k := push_out pkt intf]> (Router.intf_L R))).
Proof.
  intros Hk Hintf. unfold Router.at_intf. rewrite Hk, Hintf, put_blocking.
  destruct (Interface.full _ _); [|done].
  rewrite list_insert_id by done. by destruct R.
Qed.

Lemma except_full_at_intf_put (R : Router.t) (out : Z) (k : nat) (intf : Interface.t) pkt :
  py_pos (Router.intf_L R) out = Some k → Router.intf_L R !! k = Some intf →
  Router.except_full (Router.at_intf out (Interface.put pkt "out" true)) R =
  Router.at_intf out (Interface.put pkt "out" true) R.
Proof.
  intros Hk Hintf. unfold Router.except_full. rewrite (at_intf_put R out k intf) by done.
  by destruct (Interface.full _ _).
Qed.

(** ** Forwarding *)

Lemma forward_packet_unfold (p : NetworkPacket.t) (i : Z) (R : Router.t) :
  Router.forward_packet p i R =
  Router.except_full (λ R,
    match Router.choose_cfwd R (NetworkPacket.dst p) with
    | inl e => Raise e R
    | inr cfwd =>
        match Router.out_of R cfwd with
        | inl e => Raise e R
        | inr out => Router.put_packet out p R
        end
    end) R.
Proof.
  unfold Router.forward_packet, Router.except_full, mbind, M_bind, get_state, lift.
  destruct (Router.choose_cfwd R (NetworkPacket.dst p)) as [e|cfwd]; [done|].
  by destruct (Router.out_of R cfwd).
Qed.

Lemma data_to_byte_S (p : NetworkPacket.t) :
  NetworkPacket.prot_S p = "data" →
  NetworkPacket.to_byte_S p =
  inr (PyStr.zfill 5 (NetworkPacket.dst p) +:+ "1" +:+ NetworkPacket.data_S p).
Proof. unfold NetworkPacket.to_byte_S. by intros ->. Qed.

(** Once the next hop [cfwd] is chosen, the packet is put on the first
    interface that [cost_D] lists for it. *)
Lemma forward_packet_chosen (p : NetworkPacket.t) (i : Z) (R : Router.t)
    (cfwd : string) (out c : Z) (rest : dict Z Z) (k : nat) (intf : Interface.t) :
  NetworkPacket.prot_S p = "data" →
  Router.choose_cfwd R (NetworkPacket.dst p) = inr cfwd →
  dict_get cfwd (Router.cost_D R) = Some ((out, c) :: rest) →
  py_pos (Router.intf_L R) out = Some k → Router.intf_L R !! k = Some intf →
  let byte_S := PyStr.zfill 5 (NetworkPacket.dst p) +:+ "1" +:+ NetworkPacket.data_S p in
  Router.forward_packet p i R = Router.at_intf out (Interface.put byte_S "out" true) R ∧
  (has_room intf →
   Router.forward_packet p i R =
   Ok tt (Router.set_intf_L R (<[k := push_out byte_S intf]> (Router.intf_L R)))).
Proof.
  intros Hp Hc Hout Hk Hintf byte_S.
  assert (Router.forward_packet p i R = Router.at_intf out (Interface.put byte_S "out" true) R)
    as Hfw.
  { rewrite forward_packet_unfold. unfold Router.except_full at 1.
    rewrite Hc. unfold Router.out_of. rewrite Hout. simpl.
    unfold Router.put_packet. rewrite (py_index_pos _ _ _ _ Hk Hintf), (data_to_byte_S p Hp).
    fold byte_S. pose proof (except_full_at_intf_put R out k intf byte_S Hk Hintf) as He.
    unfold Router.except_full in He. exact He. }
  split; [done|]. intros Hroom. rewrite Hfw, (at_intf_put R out k intf) by done.
  unfold has_room in Hroom. by rewrite Hroom.
Qed.

(** C6. A data packet for a direct neighbour is put, by a put that waits
    for room, on the first interface [cost_D] lists for that neighbour,
    whatever the routing table holds; when the queue has room the packet
    joins its end. *)
Theorem neighbor_is_forwarded_directly (R : Router.t) (p : NetworkPacket.t) (i : Z)
    (out c : Z) (rest : dict Z Z) (k : nat) (intf : Interface.t) :
  NetworkPacket.prot_S p = "data" →
  dict_get (NetworkPacket.dst p) (Router.cost_D R) = Some ((out, c) :: rest) →
  py_pos (Router.intf_L R) out = Some k → Router.intf_L R !! k = Some intf →
  ∀ tbl : table,
    let R' := Router.set_rt_tbl_D R tbl in
    let byte_S := PyStr.zfill 5 (NetworkPacket.dst p) +:+ "1" +:+ NetworkPacket.data_S p in
    Router.forward_packet p i R' = Router.at_intf out (Interface.put byte_S "out" true) R' ∧
    (has_room intf →
     Router.forward_packet p i R' =
     Ok tt (Router.set_intf_L R' (<[k := push_out byte_S intf]> (Router.intf_L R)))).
Proof.
  intros Hp Hdst Hk Hintf tbl R' byte_S.
  apply (forward_packet_chosen p i R' (NetworkPacket.dst p) out c rest k intf); try done.
  unfold Router.choose_cfwd, dict_in. simpl. rewrite Hdst.
  by rewrite bool_decide_eq_true_2.
Qed.

Lemma neighbor_is_forwarded_directly_witness :
  hop_cost ex_near_R "H1" "R2" = Some 3 ∧
  Router.forward_packet (NetworkPacket.mk "H1" "data" "hello") 1 ex_near_R =
  Ok tt (Router.set_intf_L ex_near_R
           [Interface.mk 0 [] ["000H11hello"]; Interface.init 0]).
Proof.
  split; [reflexivity|].
  apply (neighbor_is_forwarded_directly ex_near_R (NetworkPacket.mk "H1" "data" "hello") 1
           0 10 [] 0%nat (Interface.init 0) eq_refl eq_refl eq_refl eq_refl
           (Router.rt_tbl_D ex_near_R)).
  reflexivity.
Defined.

(** *** The choice of the next hop *)

Section choose.
Variables (R : Router.t) (dst : string).

Lemma tbl_get_entry (tbl : table) d k c :
  entry tbl d k = Some c → Router.tbl_get tbl d k = inr c.
Proof.
  unfold entry, Router.tbl_get. destruct (tbl !! d) as [row|]; [simpl|done]. by intros ->.
Qed.

Lemma choose_step_hop_cost acc v cv :
  hop_cost R dst v = Some cv →
  Router.choose_step (Router.name R) dst (Router.rt_tbl_D R) acc v =
  inr (if cv <? acc.2 then (v, cv) else acc).
Proof.
  unfold hop_cost, Router.choose_step. intros Hcv.
  destruct (entry (Router.rt_tbl_D R) dst v) as [a|] eqn:Ha; [simpl in Hcv|done].
  destruct (entry (Router.rt_tbl_D R) v (Router.name R)) as [b|] eqn:Hb; [simpl in Hcv|done].
  injection Hcv as <-. rewrite (tbl_get_entry _ _ _ _ Ha), (tbl_get_entry _ _ _ _ Hb).
  by destruct (a + b <? acc.2).
Qed.

Lemma choose_loop_app l1 l2 acc :
  Router.choose_loop (Router.name R) dst (Router.rt_tbl_D R) (l1 ++ l2) acc =
  match Router.choose_loop (Router.name R) dst (Router.rt_tbl_D R) l1 acc with
  | inl e => inl e
  | inr acc' => Router.choose_loop (Router.name R) dst (Router.rt_tbl_D R) l2 acc'
  end.
Proof.
  revert acc. induction l1 as [|v l1 IH]; intros acc; simpl; [done|].
  destruct (Router.choose_step _ _ _ acc v); [done|]. apply IH.
Qed.

(** Routers that cost more than [cw] leave the cost in hand above [cw]. *)
Lemma choose_loop_above cw l acc :
  (∀ v, v ∈ l → ∃ cv, hop_cost R dst v = Some cv ∧ cw < cv) →
  cw < acc.2 →
  ∃ acc', Router.choose_loop (Router.name R) dst (Router.rt_tbl_D R) l acc = inr acc' ∧
          cw < acc'.2.
Proof.
  revert acc. induction l as [|v l IH]; intros acc Hl Hacc; simpl; [by eauto|].
  destruct (Hl v (list_elem_of_here _ _)) as (cv & Hcv & Hlt).
  rewrite (choose_step_hop_cost acc v cv Hcv).
  apply IH.
  - intros v' Hv'. apply Hl. by apply list_elem_of_further.
  - by destruct (cv <? acc.2).
Qed.

(** Routers that cost no less than the cost in hand leave the choice. *)
Lemma choose_loop_keep l acc :
  (∀ v, v ∈ l → ∃ cv, hop_cost R dst v = Some cv ∧ acc.2 ≤ cv) →
  Router.choose_loop (Router.name R) dst (Router.rt_tbl_D R) l acc = inr acc.
Proof.
  induction l as [|v l IH]; intros Hl; simpl; [done|].
  destruct (Hl v (list_elem_of_here _ _)) as (cv & Hcv & Hle).
  rewrite (choose_step_hop_cost acc v cv Hcv).
  rewrite (proj2 (Z.ltb_ge cv acc.2)) by done.
  apply IH. intros v' Hv'. apply Hl. by apply list_elem_of_further.
Qed.

Lemma choose_loop_first_cheapest l1 w l2 cw :
  hop_cost R dst w = Some cw → cw < INF →
  (∀ v, v ∈ l1 → ∃ cv, hop_cost R dst v = Some cv ∧ cw < cv) →
  (∀ v, v ∈ l2 → ∃ cv, hop_cost R dst v = Some cv ∧ cw ≤ cv) →
  Router.choose_loop (Router.name R) dst (Router.rt_tbl_D R) (l1 ++ w :: l2) ("", INF)
  = inr (w, cw).
Proof.
  intros Hw Hinf H1 H2. rewrite choose_loop_app.
  destruct (choose_loop_above cw l1 ("", INF) H1 Hinf) as (acc & -> & Hacc).
  simpl. rewrite (choose_step_hop_cost acc w cw Hw).
  rewrite (proj2 (Z.ltb_lt cw acc.2)) by done.
  by apply choose_loop_keep.
Qed.

End choose.

(** C7, as the code has it. For a data packet whose destination is not a
    neighbour, the next hop is the first neighbour [w], in the order of
    [cost_D], among those whose name starts with [R], whose cost
    [table[dst][w] + table[w][name]] is the least and below [999]: every
    such neighbour listed before [w] costs more, every one listed after it
    costs as much or more. The packet is put, by a put that waits for room,
    on the first interface [cost_D] lists for [w]; when the queue has room
    the packet joins its end. *)
Theorem next_hop_is_first_cheapest (R : Router.t) (p : NetworkPacket.t) (i : Z)
    (l1 l2 : list string) (w : string) (cw out c : Z) (rest : dict Z Z)
    (k : nat) (intf : Interface.t) :
  NetworkPacket.prot_S p = "data" →
  dict_get (NetworkPacket.dst p) (Router.cost_D R) = None →
  Router.neighbor_routers R = (l1 ++ w :: l2)%list →
  hop_cost R (NetworkPacket.dst p) w = Some cw → cw < INF →
  (∀ v, v ∈ l1 → ∃ cv, hop_cost R (NetworkPacket.dst p) v = Some cv ∧ cw < cv) →
  (∀ v, v ∈ l2 → ∃ cv, hop_cost R (NetworkPacket.dst p) v = Some cv ∧ cw ≤ cv) →
  dict_get w (Router.cost_D R) = Some ((out, c) :: rest) →
  py_pos (Router.intf_L R) out = Some k → Router.intf_L R !! k = Some intf →
  let byte_S := PyStr.zfill 5 (NetworkPacket.dst p) +:+ "1" +:+ NetworkPacket.data_S p in
  Router.choose_cfwd R (NetworkPacket.dst p) = inr w ∧
  Router.forward_packet p i R = Router.at_intf out (Interface.put byte_S "out" true) R ∧
  (has_room intf →
   Router.forward_packet p i R =
   Ok tt (Router.set_intf_L R (<[k := push_out byte_S intf]> (Router.intf_L R)))).
Proof.
  intros Hp Hdst Hrs Hw Hinf H1 H2 Hout Hk Hintf byte_S.
  assert (Router.choose_cfwd R (NetworkPacket.dst p) = inr w) as Hc.
  { unfold Router.choose_cfwd, dict_in. rewrite Hdst.
    rewrite bool_decide_eq_false_2 by (by intros [? ?]).
    by rewrite Hrs, (choose_loop_first_cheapest R _ l1 w l2 cw). }
  split; [done|].
  by apply (forward_packet_chosen p i R w out c rest k intf).
Qed.

Lemma next_hop_is_first_cheapest_witness :
  Router.forward_packet (NetworkPacket.mk "H9" "data" "hello") 1 ex_tie_R =
  Ok tt (Router.set_intf_L ex_tie_R
           [Interface.mk 0 [] ["000H91hello"]; Interface.init 0]).
Proof.
  apply (next_hop_is_first_cheapest ex_tie_R (NetworkPacket.mk "H9" "data" "hello") 1
           [] ["R2"] "R3" 6 0 1 [] 0%nat (Interface.init 0)); try reflexivity.
  - intros v Hv. by apply not_elem_of_nil in Hv.
  - intros v Hv. apply list_elem_of_singleton in Hv as ->. exists 6. split; [reflexivity|lia].
Defined.

(** C7, as the specification words it, fails: [R2] and [R3] are equally
    cheap next hops for [H9], and the packet leaves on the interface of
    [R3], which [cost_D] lists first, not on that of [R2], the lower
    name. *)
Lemma tie_is_not_broken_by_ascending_id :
  hop_cost ex_tie_R "H9" "R2" = Some 6 ∧
  hop_cost ex_tie_R "H9" "R3" = Some 6 ∧
  String.ltb "R2" "R3" = true ∧
  Router.choose_cfwd ex_tie_R "H9" = inr "R3" ∧
  Router.forward_packet (NetworkPacket.mk "H9" "data" "hello") 1 ex_tie_R =
  Ok tt (Router.set_intf_L ex_tie_R
           [Interface.mk 0 [] ["000H91hello"]; Interface.init 0]).
Proof. split_and!; reflexivity. Qed.

(** C8, as the code has it. For a data packet whose destination is neither
    a neighbour nor a row of the routing table, forwarding raises
    [KeyError] and puts nothing on any interface: the lookup of
    [table[dst]] raises it when some neighbour has a name that starts with
    [R], the lookup of [cost_D['']] when there is none and [cost_D] has no
    empty key. *)
Theorem unknown_destination_raises (R : Router.t) (p : NetworkPacket.t) (i : Z) :
  dict_get (NetworkPacket.dst p) (Router.cost_D R) = None →
  Router.rt_tbl_D R !! NetworkPacket.dst p = None →
  Router.neighbor_routers R ≠ [] ∨ dict_get "" (Router.cost_D R) = None →
  ∃ key, Router.forward_packet p i R = Raise (KeyError key) R.
Proof.
  intros Hdst Hrow Hcases. rewrite forward_packet_unfold.
  unfold Router.except_full, Router.choose_cfwd, dict_in. rewrite Hdst.
  rewrite bool_decide_eq_false_2 by (by intros [? ?]).
  destruct (Router.neighbor_routers R) as [|v rs] eqn:Hrs.
  - destruct Hcases as [?|Hempty]; [done|]. simpl.
    unfold Router.out_of. rewrite Hempty. by exists "".
  - simpl. unfold Router.choose_step, Router.tbl_get. rewrite Hrow.
    by exists (NetworkPacket.dst p).
Qed.

Lemma unknown_destination_raises_witness :
  ∃ key, Router.forward_packet (NetworkPacket.mk "H9" "data" "hello") 0 ex_R1
         = Raise (KeyError key) ex_R1.
Proof.
  apply (unknown_destination_raises ex_R1 (NetworkPacket.mk "H9" "data" "hello") 0).
  - reflexivity.
  - reflexivity.
  - left. discriminate.
Defined.

(** C8, as the specification words it, fails: [R1] knows no [H9], and
    forwarding a data packet for [H9] raises [KeyError] instead of sending
    it somewhere. *)
Lemma unknown_destination_is_an_error :
  Router.forward_packet (NetworkPacket.mk "H9" "data" "hello") 0 ex_R1
  = Raise (KeyError "H9") ex_R1.
Proof. reflexivity. Qed.

(** ** The pass over the interfaces *)

Section loops_of_a_router.
Context {S A : Type}.

Lemma for_each_app (body : A → M S unit) (l1 l2 : list A) (s : S) :
  for_each (l1 ++ l2) body s =
  match for_each l1 body s with
  | Ok _ s' => for_each l2 body s'
  | Raise e s' => Raise e s'
  | Blocked s' => Blocked s'
  end.
Proof.
  revert s. induction l1 as [|x l1 IH]; intros s; simpl; [done|].
  unfold mbind, M_bind. destruct (body x s) as [[] s'|e s'|s']; [apply IH|done..].
Qed.

End loops_of_a_router.

Lemma range_split (n k : nat) :
  (k < n)%nat →
  range n = ((Z.of_nat <$> seq 0 k) ++ Z.of_nat k :: (Z.of_nat <$> seq (S k) (n - S k)))%list.
Proof.
  intros Hk. unfold range.
  replace n with (k + S (n - S k))%nat at 1 by lia.
  rewrite seq_app, fmap_app. simpl. done.
Qed.

Section process.
Context `{!PyEnv}.

Lemma unknown_tag_from_byte_S (byte_S : string) :
  unknown_tag byte_S → NetworkPacket.from_byte_S byte_S = inl TypeError.
Proof.
  intros [H1 H2]. unfold NetworkPacket.from_byte_S.
  apply String.eqb_neq in H1, H2. by rewrite H1, H2.
Qed.

(** A byte string with an unknown tag is taken off its queue, and decoding
    it raises. *)
Lemma process_queue_unknown_tag (R : Router.t) (k : nat) (intf : Interface.t)
    (pkt_S : string) (q : list string) :
  Router.intf_L R !! k = Some intf → Interface.in_queue intf = pkt_S :: q →
  unknown_tag pkt_S →
  Router.process_queue (Z.of_nat k) R =
  Raise TypeError
    (Router.set_intf_L R
       (<[k := Interface.mk (Interface.maxsize intf) q (Interface.out_queue intf)]>
          (Router.intf_L R))).
Proof.
  intros Hk Hq Htag. unfold Router.process_queue, mbind, M_bind, Router.at_intf.
  rewrite py_pos_nat by (by eapply lookup_lt_Some).
  rewrite Hk. unfold Interface.get. simpl. rewrite Hq.
  unfold lift. by rewrite (unknown_tag_from_byte_S pkt_S Htag).
Qed.

(** C9, as the code has it. When a pass comes to an interface whose next
    inbound packet is a byte string with a tag that is not a known one, it
    takes the byte string off its queue, decoding raises [TypeError], which
    nothing catches, and the pass ends there with the exception: the
    interfaces after it are not looked at. [R1] is the router as the
    interfaces before it left it. *)
Theorem unknown_tag_ends_the_pass (R R1 : Router.t) (k : nat) (intf : Interface.t)
    (pkt_S : string) (q : list string) :
  (k < length (Router.intf_L R))%nat →
  for_each (range k) Router.process_queue R = Ok tt R1 →
  Router.intf_L R1 !! k = Some intf → Interface.in_queue intf = pkt_S :: q →
  unknown_tag pkt_S →
  Router.process_queues R =
  Raise TypeError
    (Router.set_intf_L R1
       (<[k := Interface.mk (Interface.maxsize intf) q (Interface.out_queue intf)]>
          (Router.intf_L R1))).
Proof.
  intros Hlt Hbefore Hk Hq Htag.
  unfold Router.process_queues, mbind, M_bind, get_state.
  rewrite (range_split _ k Hlt), for_each_app.
  unfold range in Hbefore. rewrite Hbefore.
  simpl. unfold mbind, M_bind.
  by rewrite (process_queue_unknown_tag R1 k intf pkt_S q).
Qed.

End process.

Lemma unknown_tag_ends_the_pass_witness :
  @Router.process_queues ex_env ex_late_bad_R =
  Raise TypeError
    (Router.set_intf_L ex_late_bad_R
       [Interface.mk 0 [] ["000H11hello"]; Interface.mk 0 [] []]).
Proof.
  apply (@unknown_tag_ends_the_pass ex_env ex_late_bad_R
           (Router.set_intf_L ex_late_bad_R
              [Interface.mk 0 [] ["000H11hello"]; Interface.mk 0 ["00001Xbad"] []])
           1%nat (Interface.mk 0 ["00001Xbad"] []) "00001Xbad" []).
  - simpl. lia.
  - reflexivity.
  - reflexivity.
  - reflexivity.
  - split; discriminate.
Defined.

(** C9, as the specification words it, fails: the byte string with the tag
    [X] on the first interface ends the pass with an exception, and the
    data packet that waits on the second interface stays where it is. *)
Lemma unknown_tag_is_fatal_to_the_pass :
  ∃ R', @Router.process_queues ex_env ex_bad_R = Raise TypeError R' ∧
        Interface.in_queue <$> Router.intf_L R' = [[]; ["000H11hello"]] ∧
        Interface.out_queue <$> Router.intf_L R' = [[]; []].
Proof. eexists. split_and!; reflexivity. Qed.

(** ** Routing updates *)

Section update.
Context `{!PyEnv}.

(** The routing update a router with this name and table sends. *)
Lemma send_routes_room (R : Router.t) (k : nat) (intf : Interface.t) :
  Router.intf_L R !! k = Some intf → has_room intf →
  Router.send_routes (Z.of_nat k) R =
  Ok tt (Router.set_intf_L R
           (<[k := push_out ("000002" +:+ Router.name R +:+ json_dumps (Router.rt_tbl_D R)) intf]>
              (Router.intf_L R))).
Proof.
  intros Hk Hroom.
  pose proof (py_pos_nat (Router.intf_L R) k (lookup_lt_Some _ _ _ Hk)) as Hpos.
  unfold Router.send_routes, mbind, M_bind, get_state, Router.except_full, Router.put_packet.
  rewrite (py_index_pos _ _ _ _ Hpos Hk). simpl.
  rewrite (at_intf_put R (Z.of_nat k) k intf) by done.
  unfold has_room in Hroom. by rewrite Hroom.
Qed.

Lemma flood_from (name : string) (cost_D : dict string (dict Z Z)) (tbl : table)
    (todo sent : list Interface.t) :
  Forall has_room todo →
  for_each (Z.of_nat <$> seq (length sent) (length todo)) Router.send_routes
    (Router.mk name (sent ++ todo) cost_D tbl) =
  Ok tt (Router.mk name (sent ++ (push_out ("000002" +:+ name +:+ json_dumps tbl) <$> todo))
           cost_D tbl).
Proof.
  revert sent. induction todo as [|intf todo IH]; intros sent Hroom; [done|].
  apply Forall_cons in Hroom as [Hintf Hroom].
  rewrite length_cons, <- cons_seq, fmap_cons. simpl. unfold mbind, M_bind.
  rewrite (send_routes_room _ (length sent) intf); [|by apply list_lookup_middle|done].
  unfold Router.set_intf_L. simpl.
  rewrite insert_app_r_alt by lia. rewrite Nat.sub_diag. simpl.
  specialize (IH (sent ++ [push_out ("000002" +:+ name +:+ json_dumps tbl) intf])%list Hroom).
  rewrite length_app, <- !app_assoc in IH. simpl in IH.
  replace (length sent + 1)%nat with (S (length sent)) in IH by lia.
  exact IH.
Qed.

Lemma flood (R : Router.t) :
  Forall has_room (Router.intf_L R) →
  for_each (range (length (Router.intf_L R))) Router.send_routes R =
  Ok tt (Router.set_intf_L R
           (push_out ("000002" +:+ Router.name R +:+ json_dumps (Router.rt_tbl_D R))
              <$> Router.intf_L R)).
Proof.
  intros Hroom. destruct R as [name intf_L cost_D tbl].
  apply (flood_from name cost_D tbl intf_L [] Hroom).
Qed.

(** C5. A control packet whose vector merges without an exception sends
    routing updates exactly when the merge sets its flag. When the flag is
    not set, no interface changes. When it is set, and every outbound queue
    has room, every interface gets one packet more, the control packet with
    the name of the router and its new table. *)
Theorem flood_exactly_when_changed (R : Router.t) (p : NetworkPacket.t) (i : Z)
    (rvec : table) (updated : bool) (tbl' : table) :
  NetworkPacket.prot_S p = "control" →
  let pbody := PyStr.zfill 5 (NetworkPacket.dst p) +:+ "2" +:+ NetworkPacket.data_S p in
  json_loads (PyStr.drop (Router.header_length + 2) pbody) = Some rvec →
  Merge.merge (Router.name R)
    (PyStr.slice Router.header_length (Router.header_length + 2) pbody)
    (set_iter (dom (Router.rt_tbl_D R) ∪ dom rvec)) rvec (Router.rt_tbl_D R)
    = Ok updated tbl' →
  (updated = true → Forall has_room (Router.intf_L R)) →
  Router.update_routes p i R =
  Ok tt (Router.mk (Router.name R)
           (if updated
            then push_out ("000002" +:+ Router.name R +:+ json_dumps tbl') <$> Router.intf_L R
            else Router.intf_L R)
           (Router.cost_D R) tbl').
Proof.
  intros Hp pbody Hjson Hmerge Hroom.
  assert (NetworkPacket.to_byte_S p = inr pbody) as Hbody.
  { unfold NetworkPacket.to_byte_S. by rewrite Hp. }
  unfold Router.update_routes, mbind, M_bind, lift, get_state, Router.on_table.
  rewrite Hbody, Hjson, Hmerge.
  destruct updated; [|done].
  by rewrite (flood (Router.set_rt_tbl_D R tbl') (Hroom eq_refl)).
Qed.

End update.

Lemma flood_exactly_when_changed_witness :
  ∃ tbl',
    cost_to_self "R1" tbl' "H1" = 4 ∧
    @Router.update_routes ex_env ex_update 0 ex_R1 =
    Ok tt (Router.mk "R1"
             [Interface.mk 0 [] ["000002R1" +:+ ex_dumps tbl']]
             ex_cost_D tbl').
Proof.
  exists (state_of (Merge.merge "R1" "R2" ex_keys ex_vec (Router.rt_tbl_D ex_R1))).
  split; [vm_compute; reflexivity|].
  apply (@flood_exactly_when_changed ex_env ex_R1 ex_update 0 ex_vec true).
  - reflexivity.
  - vm_compute. reflexivity.
  - vm_compute. reflexivity.
  - intros _. repeat constructor.
Defined.


(** * Further properties *)

(** ** The relaxation, seen through the costs *)

Section costs.
Variables (name : string).

Lemma cost_row (t : table) (d k : string) :
  default INF (default ∅ (t !! d) !! k) = cost t d k.
Proof. unfold cost, entry. by destruct (t !! d). Qed.

(** One minimum changes one cost. *)
Lemma cost_relax_min_step (t : table) (y v d k : string) :
  cost (relax_min_step name y t v) d k =
  if decide (d = y ∧ k = name ∧ v ≠ y)
  then Z.min (cost t y name) (cost t v name + cost t y v)
  else cost t d k.
Proof.
  unfold relax_min_step. destruct (String.eqb v y) eqn:Hvy.
  { apply String.eqb_eq in Hvy. rewrite decide_False; [done|]. by intros (_ & _ & ?). }
  apply String.eqb_neq in Hvy.
  unfold cost at 1. rewrite entry_insert.
  destruct (decide (y = d)) as [<-|Hd]; [|rewrite decide_False; [done|by intros (-> & _)]].
  destruct (decide (k = name)) as [->|Hk].
  - rewrite decide_True by done. rewrite lookup_insert_eq. simpl.
    by rewrite !cost_row.
  - rewrite decide_False by (by intros (_ & ? & _)).
    rewrite lookup_insert_ne by done.
    destruct (decide (v = k)) as [->|]; [rewrite lookup_insert_eq; simpl; apply cost_row|].
    rewrite lookup_insert_ne by done. apply cost_row.
Qed.

(** The relaxation of one destination [y] through the routers. *)
Lemma cost_relax_inner (routers : list string) (y : string) (t : table) :
  let t' := foldl (relax_min_step name y) t routers in
  (∀ d k, ¬ (d = y ∧ k = name) → cost t' d k = cost t d k) ∧
  cost t' y name ≤ cost t y name ∧
  (∀ v, v ∈ routers → v ≠ y → cost t' y name ≤ cost t v name + cost t y v).
Proof.
  revert t. induction routers as [|v routers IH]; intros t; simpl.
  { split_and!; [done|lia|]. intros v Hv. by apply not_elem_of_nil in Hv. }
  destruct (IH (relax_min_step name y t v)) as (Hsame & Hle & Hbound).
  assert (∀ d k, ¬ (d = y ∧ k = name) → cost (relax_min_step name y t v) d k = cost t d k)
    as Hstep.
  { intros d k Hdk. rewrite cost_relax_min_step. rewrite decide_False; [done|].
    intros (? & ? & _). by apply Hdk. }
  assert (cost (relax_min_step name y t v) y name ≤ cost t y name) as Hstep_le.
  { rewrite cost_relax_min_step. case_decide; lia. }
  split_and!.
  - intros d k Hdk. by rewrite Hsame, Hstep.
  - lia.
  - intros w Hw Hwy. apply elem_of_cons in Hw as [->|Hw].
    + assert (cost (relax_min_step name y t v) y name ≤ cost t v name + cost t y v).
      { rewrite cost_relax_min_step. rewrite decide_True by done. lia. }
      lia.
    + specialize (Hbound w Hw Hwy).
      rewrite (Hstep w name) in Hbound by (by intros [? _]).
      destruct (decide (w = name)) as [->|Hwn].
      * lia.
      * rewrite (Hstep y w) in Hbound by (by intros [_ ?]). lia.
Qed.

(** The whole relaxation: the costs from other routers stay, the costs of
    the owner go down, below every sum the first table offers. *)
Lemma cost_relax_min (keys routers : list string) (t : table) :
  let t' := relax_min name keys routers t in
  (∀ d k, k ≠ name → cost t' d k = cost t d k) ∧
  (∀ d, cost t' d name ≤ cost t d name) ∧
  (∀ y v, y ∈ keys → v ∈ routers → v ≠ y → cost t' y name ≤ cost t v name + cost t y v).
Proof.
  unfold relax_min. revert t. induction keys as [|y keys IH]; intros t; simpl.
  { split_and!; [done|intros; lia|]. intros y v Hy. by apply not_elem_of_nil in Hy. }
  destruct (cost_relax_inner routers y t) as (Hsame & Hle & Hbound).
  set (t1 := foldl (relax_min_step name y) t routers) in *.
  destruct (IH t1) as (Hsame' & Hle' & Hbound').
  assert (∀ d, cost t1 d name ≤ cost t d name) as Hle1.
  { intros d. destruct (decide (d = y)) as [->|Hd]; [done|].
    rewrite Hsame; [lia|]. by intros [? _]. }
  assert (∀ d k, k ≠ name → cost t1 d k = cost t d k) as Hsame1.
  { intros d k Hk. apply Hsame. by intros [_ ?]. }
  split_and!.
  - intros d k Hk. by rewrite Hsame', Hsame1.
  - intros d. specialize (Hle' d). specialize (Hle1 d). lia.
  - intros z v Hz Hv Hvz. apply elem_of_cons in Hz as [->|Hz].
    + specialize (Hbound v Hv Hvz). specialize (Hle' y). lia.
    + specialize (Hbound' z v Hz Hv Hvz).
      pose proof (Hle1 v) as Hv1. pose proof (Hle1 z) as Hz1.
      destruct (decide (v = name)) as [->|Hvn].
      * lia.
      * rewrite (Hsame1 z v Hvn) in Hbound'. lia.
Qed.

(** A table that satisfies the inequalities is left with its costs. *)
Lemma cost_relax_min_stable (keys0 keys : list string) (t : table) :
  (∀ y, y ∈ keys → y ∈ keys0) →
  stable name keys0 t →
  ∀ d k, cost (relax_min name keys (filter (λ key, PyStr.startswith "R" key) keys0) t) d k
         = cost t d k.
Proof.
  unfold relax_min. revert t. induction keys as [|y keys IH]; intros t Hsub Hst d k; simpl; [done|].
  assert (∀ routers, (∀ v, v ∈ routers → v ∈ keys0 ∧ PyStr.startswith "R" v = true) →
            ∀ d k, cost (foldl (relax_min_step name y) t routers) d k = cost t d k) as Hinner.
  { intros routers. revert t Hst. clear IH.
    induction routers as [|v routers IHr]; intros t Hst Hr d' k'; simpl; [done|].
    assert (∀ d k, cost (relax_min_step name y t v) d k = cost t d k) as Hstep.
    { intros d0 k0. rewrite cost_relax_min_step. case_decide as Hc; [|done].
      destruct Hc as (-> & -> & Hvy).
      destruct (Hr v (list_elem_of_here _ _)) as [Hv HR].
      specialize (Hst y v (Hsub y (list_elem_of_here _ _)) Hv HR Hvy). lia. }
    rewrite IHr, Hstep; [done| |].
    - intros y0 v0 Hy0 Hv0 HR0 Hne. rewrite !Hstep. by apply Hst.
    - intros v0 Hv0. apply Hr. by apply list_elem_of_further. }
  set (routers := filter (λ key, PyStr.startswith "R" key) keys0) in *.
  assert (∀ d k, cost (foldl (relax_min_step name y) t routers) d k = cost t d k) as Hy.
  { apply Hinner. intros v Hv. apply list_elem_of_filter in Hv as [HR Hv].
    split; [done|]. by destruct (PyStr.startswith "R" v). }
  rewrite IH, Hy; [done| |].
  - intros y0 Hy0. apply Hsub. by apply list_elem_of_further.
  - intros y0 v0 Hy0 Hv0 HR0 Hne. rewrite !Hy. by apply Hst.
Qed.

End costs.


(** ** What a merge keeps *)

Section state_relations.
Context {S A B : Type}.

(** A loop whose body keeps a preorder between the states keeps it. *)
Lemma for_fold_state_rel (R : S → S → Prop) (body : B → A → M S B) :
  (∀ s, R s s) → (∀ s1 s2 s3, R s1 s2 → R s2 s3 → R s1 s3) →
  (∀ b x s, R s (state_of (body b x s))) →
  ∀ l b s, R s (state_of (for_fold l body b s)).
Proof.
  intros Hrefl Htrans Hbody l. induction l as [|x l IH]; intros b s; simpl; [done|].
  unfold mbind, M_bind. specialize (Hbody b x s).
  destruct (body b x s) as [b' s'|e s'|s']; simpl in *; try done.
  eapply Htrans; [done|]. apply IH.
Qed.

End state_relations.

Section kept.
Variables (name r : string).

(** [t'] keeps what [t] has outside [cols], and keeps every entry. *)
Lemma kept_refl cols (t : table) : untouched cols t t ∧ keeps_entries t t.
Proof. split; [intros d k _; by left|by intros d k]. Qed.

Lemma kept_trans cols (t1 t2 t3 : table) :
  untouched cols t1 t2 ∧ keeps_entries t1 t2 →
  untouched cols t2 t3 ∧ keeps_entries t2 t3 →
  untouched cols t1 t3 ∧ keeps_entries t1 t3.
Proof.
  intros [Hu1 Hk1] [Hu2 Hk2]. split; [|intros d k ?; by apply Hk2, Hk1].
  intros d k Hk. destruct (Hu1 d k Hk) as [H1|[H1 H1']], (Hu2 d k Hk) as [H2|[H2 H2']].
  - left. congruence.
  - right. split; congruence.
  - right. split; congruence.
  - congruence.
Qed.

Lemma kept_new_row cols (t : table) dst col :
  col ∈ cols → t !! dst = None →
  untouched cols t (<[dst := {[col := INF]}]> t) ∧ keeps_entries t (<[dst := {[col := INF]}]> t).
Proof.
  intros Hcol Hd. split.
  - intros d k Hk. left. rewrite entry_insert. case_decide as Hdd; [subst|done].
    rewrite (entry_no_row _ _ _ Hd). apply lookup_singleton_ne. by intros ->.
  - intros d k. rewrite entry_insert. case_decide as Hdd; [subst|done].
    rewrite (entry_no_row _ _ _ Hd). by intros [? ?].
Qed.

Lemma kept_set_entry cols (t : table) d col c (row : gmap string Z) :
  col ∈ cols → t !! d = Some row →
  untouched cols t (<[d := <[col := c]> row]> t) ∧
  keeps_entries t (<[d := <[col := c]> row]> t).
Proof.
  intros Hcol Hd. split.
  - intros d' k Hk. left. rewrite entry_insert. case_decide as Hdd; [subst|done].
    rewrite (entry_row _ _ _ _ Hd). apply lookup_insert_ne. by intros ->.
  - intros d' k. rewrite entry_insert. case_decide as Hdd; [subst|done].
    rewrite (entry_row _ _ _ _ Hd).
    destruct (decide (col = k)) as [->|]; [by rewrite lookup_insert_eq|].
    by rewrite lookup_insert_ne.
Qed.

Lemma kept_fill cols (t : table) y v (row : gmap string Z) :
  t !! y = Some row →
  untouched cols t (<[y := <[v := default INF (row !! v)]> row]> t) ∧
  keeps_entries t (<[y := <[v := default INF (row !! v)]> row]> t).
Proof.
  intros Hy. destruct (row !! v) as [b|] eqn:Hb; simpl.
  { rewrite (insert_id row v b Hb), (insert_id t y row Hy). apply kept_refl. }
  split.
  - intros d k _. rewrite entry_insert. case_decide as Hdd; [subst|by left].
    rewrite (entry_row _ _ _ _ Hy).
    destruct (decide (v = k)) as [->|]; [right; by rewrite lookup_insert_eq|].
    left. by rewrite lookup_insert_ne.
  - intros d k. rewrite entry_insert. case_decide as Hdd; [subst|done].
    rewrite (entry_row _ _ _ _ Hy).
    destruct (decide (v = k)) as [->|]; [by rewrite lookup_insert_eq|].
    by rewrite lookup_insert_ne.
Qed.

Lemma untouched_more cols cols' (t t' : table) :
  (∀ k, k ∈ cols → k ∈ cols') → untouched cols t t' → untouched cols' t t'.
Proof. intros Hsub Hu d k Hk. apply Hu. intros ?. by apply Hk, Hsub. Qed.

Lemma write_step_kept (rvec : table) dst (t : table) :
  let t' := state_of (Merge.write_step name r rvec dst t) in
  untouched [r; name] t t' ∧ keeps_entries t t'.
Proof.
  assert (untouched [r; name] t
            (if bool_decide (is_Some (t !! dst)) then t else <[dst := {[name := INF]}]> t) ∧
          keeps_entries t
            (if bool_decide (is_Some (t !! dst)) then t else <[dst := {[name := INF]}]> t))
    as H0.
  { case_bool_decide as Hd; [apply kept_refl|]. apply eq_None_not_Some in Hd.
    apply kept_new_row; [|done]. apply list_elem_of_further, list_elem_of_here. }
  destruct (write_step_cases name r rvec dst t) as [[e ->]|(rvec' & row & c & -> & Hrow & _)];
    simpl; [exact H0|].
  eapply kept_trans; [exact H0|]. apply kept_set_entry; [apply list_elem_of_here|done].
Qed.

Lemma relax_step_kept y u v (t : table) :
  let t' := state_of (Merge.relax_step name y u v t) in
  untouched [name] t t' ∧ keeps_entries t t'.
Proof.
  destruct (relax_step_cases name y u v t)
    as [[_ ->]|[[_ ->]|(row & Hvy & Hrow & [[e ->]|(a & b & c & Ha & Hb & Hc & ->)])]]; simpl.
  - apply kept_refl.
  - apply kept_refl.
  - by apply kept_fill.
  - pose proof (kept_fill [name] t y v row Hrow) as Hfill.
    destruct (a + b <? c); simpl; [|exact Hfill].
    eapply kept_trans; [exact Hfill|]. apply kept_set_entry; [apply list_elem_of_here|].
    by rewrite lookup_insert_eq.
Qed.

Lemma write_phase_kept keys (rvec : table) (t : table) :
  let t' := state_of (Merge.write_phase name r keys rvec t) in
  untouched [r; name] t t' ∧ keeps_entries t t'.
Proof.
  apply (for_fold_state_rel (λ t t', untouched [r; name] t t' ∧ keeps_entries t t')).
  - apply kept_refl.
  - apply kept_trans.
  - intros b x s. apply write_step_kept.
Qed.

Lemma relax_phase_kept keys routers u (t : table) :
  let t' := state_of (Merge.relax_phase name keys routers u t) in
  untouched [name] t t' ∧ keeps_entries t t'.
Proof.
  apply (for_fold_state_rel (λ t t', untouched [name] t t' ∧ keeps_entries t t'));
    [apply kept_refl|apply kept_trans|].
  intros b y s.
  apply (for_fold_state_rel (λ t t', untouched [name] t t' ∧ keeps_entries t t'));
    [apply kept_refl|apply kept_trans|].
  intros b' v s'. apply relax_step_kept.
Qed.

End kept.


(** ** Further properties of the merge *)

Section merge_more.
Variables (name r : string).

(** A merge that ends has written the vector. *)
Lemma merge_ok_written keys (rvec : table) (t : table) u t' :
  Merge.merge name r keys rvec t = Ok u t' →
  ∃ rvec' t1,
    Merge.write_phase name r keys rvec t = Ok rvec' t1 ∧
    Merge.relax_phase name keys (filter (λ key, PyStr.startswith "R" key) keys) false t1
    = Ok u t'.
Proof.
  rewrite merge_unfold.
  destruct (Merge.write_phase name r keys rvec t) as [rvec' t1|e t1|t1]; [|done..].
  intros Hr. by exists rvec', t1.
Qed.

Lemma merge_kept keys (rvec : table) (t : table) :
  let t' := state_of (Merge.merge name r keys rvec t) in
  untouched [r; name] t t' ∧ keeps_entries t t'.
Proof.
  rewrite merge_unfold. pose proof (write_phase_kept name r keys rvec t) as Hw.
  destruct (Merge.write_phase name r keys rvec t) as [rv t1|e t1|t1]; simpl in *;
    [|exact Hw..].
  eapply kept_trans; [exact Hw|].
  destruct (relax_phase_kept name keys (filter (λ key, PyStr.startswith "R" key) keys) false t1)
    as [Hu Hk].
  split; [|exact Hk]. eapply untouched_more; [|exact Hu].
  intros k Hk'. by apply list_elem_of_further.
Qed.

(** The vector the first loop reads, with the rows it adds, has the costs
    of the vector it was given. *)
Lemma write_step_vector (rvec rvec' : table) dst (t t' : table) :
  Merge.write_step name r rvec dst t = Ok rvec' t' →
  (∀ d, cost rvec' d r = cost rvec d r) ∧
  entry t' dst r = Some (cost rvec dst r) ∧
  (∀ d, d ≠ dst → entry t' d r = entry t d r).
Proof.
  destruct (write_step_cases name r rvec dst t)
    as [[e ->]|(rv & row & c & -> & Hrow & Hc & Hrv)]; [done|].
  intros [= <- <-].
  assert (∀ d, cost rv d r = cost rvec d r) as Hcost.
  { intros d. subst rv. case_bool_decide as Hd; [done|]. apply eq_None_not_Some in Hd.
    unfold cost. rewrite entry_insert. case_decide as Hdd; [subst|done].
    by rewrite lookup_singleton_eq, (entry_no_row _ _ _ Hd). }
  split_and!; [done| |].
  - rewrite entry_insert, decide_True by done. rewrite lookup_insert_eq.
    rewrite <- Hcost. unfold cost. by rewrite Hc.
  - intros d Hd. rewrite entry_insert, decide_False by done.
    destruct (bool_decide (is_Some (t !! dst))); [done|].
    rewrite entry_insert. by rewrite decide_False.
Qed.

Lemma write_phase_vector keys (rvec0 rvec rvec' : table) (t t' : table) :
  Merge.write_phase name r keys rvec t = Ok rvec' t' →
  (∀ d, cost rvec d r = cost rvec0 d r) →
  ∀ d, d ∈ keys ∨ entry t d r = Some (cost rvec0 d r) →
       entry t' d r = Some (cost rvec0 d r).
Proof.
  revert rvec t. induction keys as [|dst keys IH]; intros rvec t Hw Hrv d Hd.
  { injection Hw as <- <-. destruct Hd as [Hd|Hd]; [by apply not_elem_of_nil in Hd|done]. }
  rewrite write_phase_cons in Hw.
  destruct (Merge.write_step name r rvec dst t) as [rv1 t1|e t1|t1] eqn:Hs; try done.
  destruct (write_step_vector rvec rv1 dst t t1 Hs) as (Hcost & Hdst & Hother).
  apply (IH rv1 t1 Hw).
  - intros d'. by rewrite Hcost.
  - destruct (decide (d = dst)) as [->|Hne]; [right; by rewrite Hdst, Hrv|].
    destruct Hd as [Hd|Hd].
    + apply elem_of_cons in Hd as [?|Hd]; [done|by left].
    + right. by rewrite Hother.
Qed.

(** A step of the first loop raises nothing but the [KeyError] of the
    sender. *)
Lemma write_step_raises (rvec : table) dst (t : table) e t' :
  Merge.write_step name r rvec dst t = Raise e t' → e = KeyError r.
Proof.
  unfold Merge.write_step.
  set (rv := if bool_decide _ then rvec else _).
  set (t0 := if bool_decide _ then t else _).
  assert (is_Some (rv !! dst)) as [rrow ->].
  { subst rv. case_bool_decide; [done|]. rewrite lookup_insert_eq. eauto. }
  assert (is_Some (t0 !! dst)) as [row ->].
  { subst t0. case_bool_decide; [done|]. rewrite lookup_insert_eq. eauto. }
  destruct (rrow !! r); [done|]. by intros [= <- _].
Qed.

Lemma write_step_bad_row (rvec : table) dst (t : table) (row : gmap string Z) :
  rvec !! dst = Some row → row !! r = None →
  ∃ t', Merge.write_step name r rvec dst t = Raise (KeyError r) t'.
Proof.
  intros Hrow Hr. unfold Merge.write_step.
  rewrite bool_decide_eq_true_2 by (by rewrite Hrow). rewrite Hrow, Hr. eauto.
Qed.

Lemma write_step_keeps_rows (rvec rvec' : table) dst (t t' : table) d (row : gmap string Z) :
  Merge.write_step name r rvec dst t = Ok rvec' t' →
  rvec !! d = Some row → rvec' !! d = Some row.
Proof.
  destruct (write_step_cases name r rvec dst t)
    as [[e ->]|(rv & row' & c & -> & _ & _ & Hrv)]; [done|].
  intros [= <- _] Hd. subst rv. case_bool_decide as Hdst; [done|].
  rewrite lookup_insert_ne; [done|]. intros ->. apply Hdst. by rewrite Hd.
Qed.

Lemma write_phase_bad_row keys (rvec : table) (t : table) dst (row : gmap string Z) :
  dst ∈ keys → rvec !! dst = Some row → row !! r = None →
  ∃ t', Merge.write_phase name r keys rvec t = Raise (KeyError r) t'.
Proof.
  revert rvec t. induction keys as [|k keys IH]; intros rvec t Hin Hrow Hr.
  { by apply not_elem_of_nil in Hin. }
  rewrite write_phase_cons.
  destruct (decide (k = dst)) as [->|Hne].
  { destruct (write_step_bad_row rvec dst t row Hrow Hr) as [t' ->]. eauto. }
  apply elem_of_cons in Hin as [?|Hin]; [done|].
  destruct (Merge.write_step name r rvec k t) as [rv1 t1|e t1|t1] eqn:Hs.
  - apply IH; [done| |done]. by eapply write_step_keeps_rows.
  - rewrite (write_step_raises rvec k t e t1 Hs). eauto.
  - exfalso. by destruct (write_step_cases name r rvec k t) as [[e He]|(? & ? & ? & He & _)];
      rewrite He in Hs.
Qed.

Lemma write_step_nonneg (rvec : table) dst (t : table) :
  nonneg rvec → nonneg t →
  outcome_all (λ rvec' t', nonneg rvec' ∧ nonneg t') nonneg
    (Merge.write_step name r rvec dst t).
Proof.
  intros Hv Ht.
  assert (nonneg (if bool_decide (is_Some (t !! dst)) then t else <[dst := {[name := INF]}]> t))
    as Ht0.
  { case_bool_decide; [done|]. apply nonneg_insert; [done|].
    intros k c [-> <-]%lookup_singleton_Some. unfold INF; lia. }
  destruct (write_step_cases name r rvec dst t)
    as [[e ->]|(rvec' & row & c & -> & Hrow & Hc & ->)]; simpl; [done|].
  pose proof (extended_nonneg r rvec dst Hv) as Hv'. split; [done|].
  apply nonneg_insert; [done|]. intros k c'.
  destruct (decide (r = k)) as [->|].
  - rewrite lookup_insert_eq. intros [= <-]. by apply (Hv' dst k c).
  - rewrite lookup_insert_ne by done. intros Hk.
    by apply (nonneg_row _ dst row k c' Ht0).
Qed.

Lemma merge_nonneg keys (rvec : table) (t : table) :
  nonneg rvec → nonneg t → nonneg (state_of (Merge.merge name r keys rvec t)).
Proof.
  intros Hv Ht. rewrite merge_unfold.
  assert (outcome_all (λ _ t', nonneg t') nonneg (Merge.write_phase name r keys rvec t)) as Hw.
  { revert rvec t Hv Ht. induction keys as [|dst keys IH]; intros rvec t Hv Ht; [done|].
    rewrite write_phase_cons. pose proof (write_step_nonneg rvec dst t Hv Ht) as Hs.
    destruct (Merge.write_step name r rvec dst t) as [rv1 t1|e t1|t1]; simpl in *; try done.
    destruct Hs. by apply IH. }
  destruct (Merge.write_phase name r keys rvec t) as [rv t1|e t1|t1]; simpl in *; try done.
  by apply (relax_phase_keeps name keys _ false t1).
Qed.

End merge_more.


Lemma rows_have_self_decide (name : string) (t : table) :
  map_Forall (λ _ (row : gmap string Z), is_Some (row !! name)) t → rows_have_self name t.
Proof. intros H d row. apply H. Qed.

Lemma ex_merged_rows : rows_have_self "R1" ex_merged.
Proof. apply rows_have_self_decide, (bool_decide_unpack _). vm_compute. exact I. Qed.

(** X1. A merge deletes nothing and touches two columns: every entry the
    table had is still there afterwards, and an entry in a column other
    than that of the sender and that of the owner keeps its value; where
    there was none there is none, or [999]. This holds of the table a merge
    leaves when it raises as well. *)
Theorem merge_keeps_the_other_columns (name r : string) (keys : list string) (rvec t : table) :
  let t' := state_of (Merge.merge name r keys rvec t) in
  (∀ d k, is_Some (entry t d k) → is_Some (entry t' d k)) ∧
  (∀ d k, k ≠ r → k ≠ name →
     entry t' d k = entry t d k ∨ (entry t d k = None ∧ entry t' d k = Some 999)).
Proof.
  destruct (merge_kept name r keys rvec t) as [Hu Hk]. split; [exact Hk|].
  intros d k Hr Hn. apply Hu. intros Hin.
  apply elem_of_cons in Hin as [->|Hin]; [done|].
  apply elem_of_cons in Hin as [->|Hin]; [done|]. by apply not_elem_of_nil in Hin.
Qed.

(** X2. A merge that ends has recorded the vector in the column of its
    sender [r], when [r] is not the owner: for every key, the table has from
    [r] the cost the vector gives, and [999] for a destination the vector
    does not list, whatever the table had from [r] before. *)
Theorem merge_records_the_vector (name r : string) (keys : list string)
    (rvec t : table) (updated : bool) (t' : table) :
  r ≠ name →
  Merge.merge name r keys rvec t = Ok updated t' →
  ∀ dst, dst ∈ keys → entry t' dst r = Some (cost rvec dst r).
Proof.
  intros Hr Hm dst Hdst.
  destruct (merge_ok_written name r keys rvec t updated t' Hm) as (rvec' & t1 & Hw & Hrelax).
  assert (entry t1 dst r = Some (cost rvec dst r)) as H1.
  { apply (write_phase_vector name r keys rvec rvec rvec' t t1 Hw); [done|by left]. }
  destruct (relax_phase_kept name keys (filter (λ key, PyStr.startswith "R" key) keys) false t1)
    as [Hu _].
  rewrite Hrelax in Hu. simpl in Hu.
  destruct (Hu dst r) as [Heq|[Hnone _]]; [|congruence|congruence].
  intros Hin. apply list_elem_of_singleton in Hin. done.
Qed.

Lemma merge_records_the_vector_witness :
  entry ex_merged "H1" "R2" = Some 3 ∧ entry ex_merged "R1" "R2" = Some 1.
Proof.
  assert (Merge.merge "R1" "R2" ex_keys ex_vec (Router.rt_tbl_D ex_R1) = Ok true ex_merged)
    as Hm by (vm_compute; reflexivity).
  assert ("R2" ≠ "R1") as Hr by discriminate.
  split.
  - rewrite (merge_records_the_vector "R1" "R2" ex_keys ex_vec _ true ex_merged Hr Hm "H1").
    + reflexivity.
    + apply list_elem_of_further, list_elem_of_further, list_elem_of_here.
  - rewrite (merge_records_the_vector "R1" "R2" ex_keys ex_vec _ true ex_merged Hr Hm "R1").
    + reflexivity.
    + apply list_elem_of_here.
Defined.

(** X3. After a merge that ends, of a vector whose sender is not the
    owner, the cost of the owner to a key [y] is at most its cost to [v]
    before the merge plus the cost the table now has from [v] for [y], for
    every other key [v] that starts with [R] and is not the owner. *)
Theorem merge_bounds_the_costs (name r : string) (keys : list string)
    (rvec t : table) (updated : bool) (t' : table) :
  r ≠ name → rows_have_self name t →
  Merge.merge name r keys rvec t = Ok updated t' →
  ∀ y v, y ∈ keys → v ∈ keys → PyStr.startswith "R" v = true → v ≠ y → v ≠ name →
    cost_to_self name t' y ≤ cost_to_self name t v + cost t' y v.
Proof.
  intros Hr Ht Hm y v Hy Hv HR Hvy Hvn.
  destruct (merge_ok_written name r keys rvec t updated t' Hm) as (rvec' & t1 & Hw & _).
  destruct (merge_min name r keys rvec rvec' t t1 Ht Hw) as (u & Hm' & _).
  rewrite Hm in Hm'. injection Hm' as _ ->.
  destruct (cost_relax_min name keys (filter (λ key, PyStr.startswith "R" key) keys) t1)
    as (Hsame & _ & Hbound).
  pose proof (write_phase_lowers name r keys rvec t Hr v) as Hlow.
  rewrite Hw in Hlow. simpl in Hlow.
  assert (v ∈ filter (λ key, PyStr.startswith "R" key) keys) as Hvr.
  { apply list_elem_of_filter. split; [by rewrite HR|done]. }
  specialize (Hbound y v Hy Hvr Hvy). rewrite (Hsame y v Hvn).
  unfold cost_to_self in *. unfold cost in *. lia.
Qed.

Lemma merge_bounds_the_costs_witness :
  cost_to_self "R1" ex_merged "H1" ≤ cost_to_self "R1" (Router.rt_tbl_D ex_R1) "R2"
                                      + cost ex_merged "H1" "R2".
Proof.
  apply (merge_bounds_the_costs "R1" "R2" ex_keys ex_vec (Router.rt_tbl_D ex_R1) true ex_merged).
  - discriminate.
  - exact ex_R1_rows.
  - vm_compute. reflexivity.
  - apply list_elem_of_further, list_elem_of_further, list_elem_of_here.
  - apply list_elem_of_further, list_elem_of_here.
  - reflexivity.
  - discriminate.
  - discriminate.
Defined.

(** X4. The flag of a merge is the test of a fixed point: once the vector
    is written (the table is then [t1]), the merge reports no change
    exactly when [t1] satisfies the inequalities of Bellman and Ford over
    the keys; the table it leaves then has the costs of [t1] and satisfies
    them too. *)
Theorem no_change_exactly_when_stable (name r : string) (keys : list string)
    (rvec rvec' t t1 : table) (updated : bool) (t' : table) :
  rows_have_self name t →
  Merge.write_phase name r keys rvec t = Ok rvec' t1 →
  Merge.merge name r keys rvec t = Ok updated t' →
  (updated = false ↔ stable name keys t1) ∧
  (updated = false → (∀ d k, cost t' d k = cost t1 d k) ∧ stable name keys t').
Proof.
  intros Ht Hw Hm.
  destruct (merge_min name r keys rvec rvec' t t1 Ht Hw) as (u & Hm' & _ & _ & Hflag).
  rewrite Hm in Hm'. injection Hm' as <- ->.
  set (routers := filter (λ key, PyStr.startswith "R" key) keys) in *.
  destruct (cost_relax_min name keys routers t1) as (_ & Hle & Hbound).
  assert (stable name keys t1 → ∀ d k, cost (relax_min name keys routers t1) d k = cost t1 d k)
    as Hfix.
  { intros Hst. by apply cost_relax_min_stable. }
  assert (updated = false ↔ stable name keys t1) as Hiff.
  { split.
    - intros Hu y v Hy Hv HR Hvy.
      assert (v ∈ routers) as Hvr.
      { apply list_elem_of_filter. split; [by rewrite HR|done]. }
      specialize (Hbound y v Hy Hvr Hvy).
      assert (¬ cost (relax_min name keys routers t1) y name < cost t1 y name) as Hno.
      { intros Hlt. assert (updated = true); [|congruence].
        apply Hflag. right. by exists y. }
      lia.
    - intros Hst. destruct updated; [|done]. exfalso.
      destruct (proj1 Hflag eq_refl) as [?|[z Hz]]; [done|].
      unfold cost_to_self in Hz. pose proof (Hfix Hst z name) as Heq.
      unfold cost in Heq. lia. }
  split; [exact Hiff|]. intros Hu. apply Hiff in Hu.
  split; [by apply Hfix|].
  intros y v Hy Hv HR Hvy. rewrite !(Hfix Hu). by apply Hu.
Qed.

Lemma no_change_exactly_when_stable_witness :
  stable "R1" ex_keys (state_of (Merge.write_phase "R1" "R2" ex_keys ex_vec ex_merged)) ∧
  stable "R1" ex_keys (state_of (Merge.merge "R1" "R2" ex_keys ex_vec ex_merged)).
Proof.
  destruct (no_change_exactly_when_stable "R1" "R2" ex_keys ex_vec ex_vec ex_merged
              (state_of (Merge.write_phase "R1" "R2" ex_keys ex_vec ex_merged))
              false
              (state_of (Merge.merge "R1" "R2" ex_keys ex_vec ex_merged)))
    as [Hiff Hafter].
  - exact ex_merged_rows.
  - vm_compute. reflexivity.
  - vm_compute. reflexivity.
  - split; [by apply Hiff|]. by apply Hafter.
Defined.

(** X5. With link costs that are not negative, no cost of the table is
    ever negative, after the constructor and after any number of merges of
    vectors whose costs are not negative, whoever sent them, also a merge
    that raises. *)
Theorem costs_never_negative (name : string) (cost_D : dict string (dict Z Z)) (t : table) :
  link_costs (λ c, 0 ≤ c) cost_D →
  reachable (λ _ rvec, nonneg rvec) name cost_D t →
  nonneg t.
Proof.
  intros Hc Hreach. induction Hreach as [q|t r keys rvec _ IH Hv _].
  - by apply init_nonneg.
  - by apply merge_nonneg.
Qed.

Lemma costs_never_negative_witness : nonneg ex_merged.
Proof.
  apply (costs_never_negative "R1" ex_cost_D).
  - exact ex_cost_D_nonneg.
  - apply reach_merge; [apply (reach_init _ "R1" ex_cost_D 0)|exact ex_vec_nonneg|].
    exact ex_keys_iterate.
Defined.

(** X6. A vector with a row that lacks the cost of its sender [r] makes the
    merge raise [KeyError] for [r], whatever else the vector and the table
    hold, when the destination of the row is one of the keys: the first
    loop stops there and the second is not run. *)
Theorem vector_without_sender_cost_raises (name r : string) (keys : list string)
    (rvec t : table) (dst : string) (row : gmap string Z) :
  dst ∈ keys → rvec !! dst = Some row → row !! r = None →
  ∃ t', Merge.merge name r keys rvec t = Raise (KeyError r) t'.
Proof.
  intros Hin Hrow Hr. rewrite merge_unfold.
  destruct (write_phase_bad_row name r keys rvec t dst row Hin Hrow Hr) as [t' ->]. eauto.
Qed.

Lemma vector_without_sender_cost_raises_witness :
  ∃ t', Merge.merge "R1" "R2" ex_keys ex_torn_vec (Router.rt_tbl_D ex_R1)
        = Raise (KeyError "R2") t'.
Proof.
  apply (vector_without_sender_cost_raises "R1" "R2" ex_keys ex_torn_vec _ "H1"
           {[ "R9" := 3 ]}).
  - apply list_elem_of_further, list_elem_of_further, list_elem_of_here.
  - reflexivity.
  - reflexivity.
Defined.


(** ** Interfaces *)

Lemma full_nil (maxsize : Z) : Interface.full maxsize [] = false.
Proof.
  unfold Interface.full. simpl.
  destruct (0 <? maxsize) eqn:Hpos; [|done]. apply Z.ltb_lt in Hpos. simpl.
  apply Z.leb_gt. lia.
Qed.

Lemma put_room (pkt sel : string) (block : bool) (intf : Interface.t) :
  sel = "in" ∨ sel = "out" →
  Interface.full (Interface.maxsize intf) (get_queue sel intf) = false →
  Interface.put pkt sel block intf = Ok tt (set_get_queue sel (get_queue sel intf ++ [pkt])%list intf).
Proof.
  intros [-> | ->] Hroom; unfold Interface.put, get_queue, set_get_queue in *; simpl in *;
    by rewrite Hroom.
Qed.

Lemma get_queue_set (sel : string) (q : list string) (intf : Interface.t) :
  get_queue sel (set_get_queue sel q intf) = q.
Proof. unfold get_queue, set_get_queue. by destruct (String.eqb sel "in"). Qed.

Lemma set_get_queue_twice (sel : string) (q q' : list string) (intf : Interface.t) :
  set_get_queue sel q' (set_get_queue sel q intf) = set_get_queue sel q' intf.
Proof. unfold set_get_queue. by destruct (String.eqb sel "in"). Qed.

Lemma maxsize_set_get_queue (sel : string) (q : list string) (intf : Interface.t) :
  Interface.maxsize (set_get_queue sel q intf) = Interface.maxsize intf.
Proof. unfold set_get_queue. by destruct (String.eqb sel "in"). Qed.

Lemma puts_room (sel : string) (block : bool) (pkts : list string) (intf : Interface.t) :
  sel = "in" ∨ sel = "out" →
  Interface.maxsize intf ≤ 0 ∨
    Z.of_nat (length (get_queue sel intf) + length pkts) ≤ Interface.maxsize intf →
  puts sel block pkts intf = Ok tt (set_get_queue sel (get_queue sel intf ++ pkts)%list intf).
Proof.
  intros Hsel. revert intf. induction pkts as [|pkt pkts IH]; intros intf Hroom.
  { unfold puts. simpl. rewrite app_nil_r. f_equal. unfold set_get_queue, get_queue.
    destruct (String.eqb sel "in"); by destruct intf. }
  unfold puts in *. simpl. unfold mbind, M_bind.
  rewrite (put_room pkt sel block intf Hsel).
  - rewrite IH.
    + by rewrite get_queue_set, set_get_queue_twice, <- app_assoc.
    + rewrite get_queue_set, maxsize_set_get_queue, length_app. simpl in *.
      destruct Hroom as [?|?]; [by left|right; lia].
  - unfold Interface.full. simpl in Hroom.
    destruct (0 <? Interface.maxsize intf) eqn:Hpos; [|done]. simpl.
    apply Z.ltb_lt in Hpos. apply Z.leb_gt. lia.
Qed.

Lemma gets_all (sel : string) (q : list string) (intf : Interface.t) :
  get_queue sel intf = q →
  gets sel (S (length q)) intf = Ok ((Some <$> q) ++ [None])%list (set_get_queue sel [] intf).
Proof.
  revert intf. induction q as [|pkt q IH]; intros intf Hq.
  - destruct intf as [m qi qo]. simpl.
    unfold mbind, M_bind, Interface.get, get_queue, set_get_queue in *. simpl in *.
    destruct (String.eqb sel "in"); by subst.
  - change (gets sel (S (length (pkt :: q))) intf)
      with ((Interface.get sel ≫= λ p, gets sel (S (length q)) ≫= λ rest, mret (p :: rest)) intf).
    unfold mbind at 1, M_bind at 1.
    assert (Interface.get sel intf = Ok (Some pkt) (set_get_queue sel q intf)) as ->.
    { unfold Interface.get, get_queue, set_get_queue in *.
      destruct (String.eqb sel "in"); by rewrite Hq. }
    unfold mbind, M_bind. rewrite IH by apply get_queue_set.
    by rewrite set_get_queue_twice.
Qed.

(** X7. A queue of an interface is first in, first out: packets put on the
    inbound or on the outbound queue, with room for them, come out of it
    after those that were there, in the order they were put, each once; the
    get after the last returns nothing, and the other queue is as it was. *)
Theorem queue_is_first_in_first_out (sel : string) (block : bool)
    (pkts : list string) (intf : Interface.t) :
  sel = "in" ∨ sel = "out" →
  Interface.maxsize intf ≤ 0 ∨
    Z.of_nat (length (get_queue sel intf) + length pkts) ≤ Interface.maxsize intf →
  (puts sel block pkts ≫= λ _, gets sel (S (length (get_queue sel intf) + length pkts))) intf
  = Ok ((Some <$> (get_queue sel intf ++ pkts)%list) ++ [None])%list (set_get_queue sel [] intf).
Proof.
  intros Hsel Hroom. unfold mbind, M_bind.
  rewrite (puts_room sel block pkts intf Hsel Hroom).
  rewrite <- length_app.
  rewrite (gets_all sel (get_queue sel intf ++ pkts)%list) by apply get_queue_set.
  by rewrite set_get_queue_twice.
Qed.

Lemma queue_is_first_in_first_out_witness :
  (puts "out" false ["b"; "c"] ≫= λ _, gets "out" 4) (Interface.mk 3 ["x"] ["a"])
  = Ok [Some "a"; Some "b"; Some "c"; None] (Interface.mk 3 ["x"] []).
Proof.
  apply (queue_is_first_in_first_out "out" false ["b"; "c"] (Interface.mk 3 ["x"] ["a"])).
  - by right.
  - right. simpl. lia.
Defined.

(** X8. No queue of an interface ever holds more packets than its bound,
    whatever is put on it and got from it, with or without waiting. *)
Theorem queues_stay_within_bound (maxsize : Z) (intf : Interface.t) :
  used_interface maxsize intf → within_bound intf.
Proof.
  induction 1 as [|intf pkt sel block _ IH|intf sel _ IH].
  - unfold within_bound, Interface.init. simpl. lia.
  - unfold Interface.put.
    destruct (String.eqb sel "out").
    + destruct (Interface.full _ (Interface.out_queue intf)) eqn:Hfull.
      { by destruct block. }
      simpl. intros Hpos. simpl in *. specialize (IH Hpos).
      unfold Interface.full in Hfull. rewrite (proj2 (Z.ltb_lt _ _) Hpos) in Hfull.
      simpl in Hfull. apply Z.leb_gt in Hfull. rewrite length_app. simpl. lia.
    + destruct (Interface.full _ (Interface.in_queue intf)) eqn:Hfull.
      { by destruct block. }
      simpl. intros Hpos. simpl in *. specialize (IH Hpos).
      unfold Interface.full in Hfull. rewrite (proj2 (Z.ltb_lt _ _) Hpos) in Hfull.
      simpl in Hfull. apply Z.leb_gt in Hfull. rewrite length_app. simpl. lia.
  - unfold Interface.get.
    destruct (String.eqb sel "in").
    + destruct (Interface.in_queue intf) as [|pkt q] eqn:Hq; simpl; [done|].
      intros Hpos. simpl in *. specialize (IH Hpos). rewrite Hq in IH. simpl in IH. lia.
    + destruct (Interface.out_queue intf) as [|pkt q] eqn:Hq; simpl; [done|].
      intros Hpos. simpl in *. specialize (IH Hpos). rewrite Hq in IH. simpl in IH. lia.
Qed.

Lemma queues_stay_within_bound_witness :
  within_bound (state_of (Interface.put "b" "out" false
                            (state_of (Interface.put "a" "out" false (Interface.init 1))))).
Proof.
  apply (queues_stay_within_bound 1). apply used_put, used_put, used_init.
Defined.

(** X9. What is put under a selector is got under the same selector only
    for ['in'] and ['out']: under any other selector the put goes to the
    inbound queue and the get reads the outbound one, so a put on a new
    interface followed by a get returns the packet exactly for these
    two. *)
Theorem put_then_get_by_selector (pkt sel : string) (block : bool) (maxsize : Z) :
  (Interface.put pkt sel block ≫= λ _, Interface.get sel) (Interface.init maxsize)
  = if bool_decide (sel = "in" ∨ sel = "out")
    then Ok (Some pkt) (Interface.init maxsize)
    else Ok None (Interface.mk maxsize [pkt] []).
Proof.
  pose proof (full_nil maxsize) as Hfull.
  unfold mbind, M_bind, Interface.put, Interface.get, Interface.init.
  cbn [Interface.maxsize Interface.in_queue Interface.out_queue].
  rewrite Hfull.
  destruct (String.eqb sel "out") eqn:Hout.
  - apply String.eqb_eq in Hout as ->. reflexivity.
  - apply String.eqb_neq in Hout.
    destruct (String.eqb sel "in") eqn:Hin.
    + apply String.eqb_eq in Hin as ->. reflexivity.
    + apply String.eqb_neq in Hin. simpl.
      by rewrite bool_decide_eq_false_2 by (by intros [?|?]).
Qed.

(** ** More of the codec *)

Lemma take_drop_str (n : nat) (s : string) : PyStr.take n s +:+ PyStr.drop n s = s.
Proof.
  revert s. induction n as [|n IH]; intros [|c s]; try done.
  simpl PyStr.take. simpl PyStr.drop. by rewrite append_cons, IH.
Qed.

Lemma length_take_str (n : nat) (s : string) :
  String.length (PyStr.take n s) = Nat.min n (String.length s).
Proof. revert s. induction n as [|n IH]; intros [|c s]; simpl; try done. by rewrite IH. Qed.

Lemma length_drop_str (n : nat) (s : string) :
  String.length (PyStr.drop n s) = (String.length s - n)%nat.
Proof. revert s. induction n as [|n IH]; intros [|c s]; simpl; try done. Qed.

Lemma drop_drop_str (n m : nat) (s : string) :
  PyStr.drop n (PyStr.drop m s) = PyStr.drop (m + n) s.
Proof.
  revert s. induction m as [|m IH]; intros s; [done|].
  destruct s as [|c s]; simpl; [by destruct n|]. apply IH.
Qed.

Lemma take_append_long (n : nat) (s r : string) :
  (n ≤ String.length s)%nat → PyStr.take n (s +:+ r) = PyStr.take n s.
Proof.
  revert s. induction n as [|n IH]; intros [|c s] Hn; simpl in *; try done; [lia|].
  rewrite IH; [done|lia].
Qed.

Lemma drop_append_long (n : nat) (s r : string) :
  (n ≤ String.length s)%nat → PyStr.drop n (s +:+ r) = PyStr.drop n s +:+ r.
Proof.
  revert s. induction n as [|n IH]; intros [|c s] Hn; simpl in *; try done; [lia|].
  apply IH. lia.
Qed.

Lemma length_lstrip0 (s : string) :
  (String.length (PyStr.lstrip0 s) ≤ String.length s)%nat.
Proof. induction s as [|c s IH]; simpl; [done|]. destruct (PyStr.is_zero c); simpl; lia. Qed.

Lemma length_rstrip0 (s : string) :
  (String.length (PyStr.rstrip0 s) ≤ String.length s)%nat.
Proof.
  induction s as [|c s IH]; simpl; [done|].
  destruct (PyStr.rstrip0 s); simpl in *; [destruct (PyStr.is_zero c); simpl; lia|lia].
Qed.

Lemma length_strip0 (s : string) :
  (String.length (PyStr.strip0 s) ≤ String.length s)%nat.
Proof.
  unfold PyStr.strip0. pose proof (length_rstrip0 (PyStr.lstrip0 s)).
  pose proof (length_lstrip0 s). lia.
Qed.

Lemma length_zfill (width : nat) (s : string) :
  String.length (PyStr.zfill width s) = Nat.max width (String.length s).
Proof.
  unfold PyStr.zfill. destruct s as [|c s].
  - rewrite length_zeros. simpl. lia.
  - destruct (Ascii.eqb c "+" || Ascii.eqb c "-")%char.
    + simpl. rewrite length_append, length_zeros. lia.
    + rewrite length_append, length_zeros. simpl. lia.
Qed.

Lemma zfill_long (width : nat) (s : string) :
  (width ≤ String.length s)%nat → PyStr.zfill width s = s.
Proof.
  intros Hw. unfold PyStr.zfill.
  replace (width - String.length s)%nat with 0%nat by lia.
  destruct s as [|c s]; [done|]. by destruct (Ascii.eqb c "+" || Ascii.eqb c "-")%char.
Qed.

(** The byte string of a packet with a known tag. *)
Lemma to_byte_S_framed (dst prot data : string) :
  prot = "data" ∨ prot = "control" →
  ∃ tag, (tag = "1" ∨ tag = "2") ∧
    (tag = "1" ↔ prot = "data") ∧
    NetworkPacket.to_byte_S (NetworkPacket.mk dst prot data) =
    inr (PyStr.zfill 5 dst +:+ tag +:+ data).
Proof.
  intros [-> | ->]; [exists "1"|exists "2"]; split_and!; try done; by (left + right).
Qed.

(** What a byte string that decodes is made of. *)
Lemma from_byte_S_parts (byte_S : string) (p : NetworkPacket.t) :
  NetworkPacket.from_byte_S byte_S = inr p →
  ∃ tag, (tag = "1" ∧ NetworkPacket.prot_S p = "data" ∨
          tag = "2" ∧ NetworkPacket.prot_S p = "control") ∧
    byte_S = PyStr.take 5 byte_S +:+ tag +:+ NetworkPacket.data_S p ∧
    String.length (PyStr.take 5 byte_S) = 5%nat ∧
    NetworkPacket.dst p = PyStr.strip0 (PyStr.take 5 byte_S).
Proof.
  unfold NetworkPacket.from_byte_S.
  change (PyStr.slice 0 NetworkPacket.dst_S_length byte_S) with (PyStr.take 5 byte_S).
  change (PyStr.slice NetworkPacket.dst_S_length
            (NetworkPacket.dst_S_length + NetworkPacket.prot_S_length) byte_S)
    with (PyStr.take 1 (PyStr.drop 5 byte_S)).
  change (NetworkPacket.dst_S_length + NetworkPacket.prot_S_length)%nat with 6%nat.
  intros Hp.
  assert (∃ tag, (tag = "1" ∧ NetworkPacket.prot_S p = "data" ∨
                  tag = "2" ∧ NetworkPacket.prot_S p = "control") ∧
            PyStr.take 1 (PyStr.drop 5 byte_S) = tag ∧
            NetworkPacket.data_S p = PyStr.drop 6 byte_S ∧
            NetworkPacket.dst p = PyStr.strip0 (PyStr.take 5 byte_S))
    as (tag & Htag & Htake & Hdata & Hdst).
  { destruct (String.eqb (PyStr.take 1 (PyStr.drop 5 byte_S)) "1") eqn:H1.
    - apply String.eqb_eq in H1. injection Hp as <-. exists "1". split_and!; try done. by left.
    - destruct (String.eqb (PyStr.take 1 (PyStr.drop 5 byte_S)) "2") eqn:H2; [|done].
      apply String.eqb_eq in H2. injection Hp as <-. exists "2". split_and!; try done.
      by right. }
  exists tag. split; [done|].
  assert (String.length tag = 1%nat) as Hlen by (by destruct Htag as [[-> _]|[-> _]]).
  assert (6 ≤ String.length byte_S)%nat as Hlong.
  { pose proof (length_take_str 1 (PyStr.drop 5 byte_S)) as Ht. rewrite Htake, Hlen in Ht.
    rewrite length_drop_str in Ht. lia. }
  split_and!; [|rewrite length_take_str; lia|done].
  rewrite Hdata, <- Htake.
  replace (PyStr.drop 6 byte_S) with (PyStr.drop 1 (PyStr.drop 5 byte_S))
    by (by rewrite drop_drop_str).
  by rewrite !take_drop_str.
Qed.

Lemma plain_is_no_sign (c : ascii) (a' : string) :
  plain_address (String c a') = true →
  PyStr.is_zero c = false ∧ (Ascii.eqb c "+" || Ascii.eqb c "-")%char = false ∧
  ends_in_zero (String c a') = false ∧ (String.length (String c a') ≤ 5)%nat.
Proof.
  unfold plain_address.
  intros [[[Hz Hs]%andb_true_iff He]%andb_true_iff Hl]%andb_true_iff.
  apply negb_true_iff in Hz, Hs, He. apply Nat.leb_le in Hl. done.
Qed.

(** A plain address comes out of the destination field as it went in. *)
Lemma strip0_zfill_plain (a : string) :
  plain_address a = true → PyStr.strip0 (PyStr.zfill 5 a) = a.
Proof.
  destruct a as [|c a']; [done|]. intros (Hz & Hs & He & Hl)%plain_is_no_sign.
  unfold PyStr.zfill. rewrite Hs. unfold PyStr.strip0.
  rewrite lstrip0_zeros, (lstrip0_unchanged c a' Hz). by apply rstrip0_unchanged.
Qed.

(** X11. The round trip of the codec gives the packet back whenever the
    address is plain: not empty, at most five characters, no zero at either
    end and no sign in front. The names of hosts and routers, such as [H1]
    and [R2], are of this kind. *)
Theorem round_trip_of_plain_address (a prot data : string) :
  plain_address a = true → prot = "data" ∨ prot = "control" →
  ∃ byte_S,
    NetworkPacket.to_byte_S (NetworkPacket.mk a prot data) = inr byte_S ∧
    NetworkPacket.from_byte_S byte_S = inr (NetworkPacket.mk a prot data).
Proof.
  intros Hplain Hprot.
  destruct (to_byte_S_framed a prot data Hprot) as (tag & Htag & Hiff & ->).
  eexists. split; [done|].
  assert (String.length (PyStr.zfill 5 a) = 5%nat) as Hh.
  { rewrite length_zfill. destruct a as [|c a']; [done|].
    apply plain_is_no_sign in Hplain as (_ & _ & _ & Hl). lia. }
  rewrite (from_byte_S_framed _ tag data Hh) by (by destruct Htag as [-> | ->]).
  rewrite (strip0_zfill_plain a Hplain).
  destruct Htag as [-> | ->], Hprot as [-> | ->]; try done.
  - by destruct (proj1 Hiff eq_refl).
  - by destruct (proj2 Hiff eq_refl).
Qed.

Lemma round_trip_of_plain_address_witness :
  ∃ byte_S,
    NetworkPacket.to_byte_S (NetworkPacket.mk "H1" "data" "hello") = inr byte_S ∧
    NetworkPacket.from_byte_S byte_S = inr (NetworkPacket.mk "H1" "data" "hello").
Proof.
  apply (round_trip_of_plain_address "H1" "data" "hello"); [reflexivity|by left].
Defined.

(** X12. For every address of at most five characters the round trip keeps
    the tag and the payload, and gives for the address what is left of the
    zero-filled field once the zeros at both its ends are stripped; the byte
    string has six characters more than the payload. *)
Theorem round_trip_keeps_tag_and_payload (dst prot data : string) :
  (String.length dst ≤ 5)%nat → prot = "data" ∨ prot = "control" →
  ∃ byte_S,
    NetworkPacket.to_byte_S (NetworkPacket.mk dst prot data) = inr byte_S ∧
    String.length byte_S = (6 + String.length data)%nat ∧
    NetworkPacket.from_byte_S byte_S =
    inr (NetworkPacket.mk (PyStr.strip0 (PyStr.zfill 5 dst)) prot data).
Proof.
  intros Hlen Hprot.
  destruct (to_byte_S_framed dst prot data Hprot) as (tag & Htag & Hiff & ->).
  assert (String.length (PyStr.zfill 5 dst) = 5%nat) as Hh by (rewrite length_zfill; lia).
  assert (String.length tag = 1%nat) as Ht by (by destruct Htag as [-> | ->]).
  eexists. split; [done|]. split.
  { rewrite !length_append, Hh, Ht. lia. }
  rewrite (from_byte_S_framed _ tag data Hh Ht).
  destruct Htag as [-> | ->], Hprot as [-> | ->]; try done.
  - by destruct (proj1 Hiff eq_refl).
  - by destruct (proj2 Hiff eq_refl).
Qed.

Lemma round_trip_keeps_tag_and_payload_witness :
  ∃ byte_S,
    NetworkPacket.to_byte_S (NetworkPacket.mk "-1" "control" "R1{}") = inr byte_S ∧
    String.length byte_S = 10%nat ∧
    NetworkPacket.from_byte_S byte_S = inr (NetworkPacket.mk "-0001" "control" "R1{}").
Proof.
  apply (round_trip_keeps_tag_and_payload "-1" "control" "R1{}"); [simpl; lia|by right].
Defined.

(** X13. An address of more than five characters never comes back: it is
    written without padding, so the decoder takes its first five characters
    for the destination field and reads the tag inside the address. *)
Theorem long_address_never_comes_back (p q : NetworkPacket.t) (byte_S : string) :
  (5 < String.length (NetworkPacket.dst p))%nat →
  NetworkPacket.to_byte_S p = inr byte_S →
  NetworkPacket.from_byte_S byte_S = inr q →
  NetworkPacket.dst q = PyStr.strip0 (PyStr.take 5 (NetworkPacket.dst p)) ∧
  NetworkPacket.dst q ≠ NetworkPacket.dst p ∧
  PyStr.take 1 (PyStr.drop 5 (NetworkPacket.dst p)) +:+ NetworkPacket.data_S q =
    PyStr.drop 5 byte_S.
Proof.
  intros Hlong Hto Hfrom.
  destruct (from_byte_S_parts byte_S q Hfrom) as (tag & Htag & Hb & Hh & Hdst).
  assert (∃ rest, byte_S = NetworkPacket.dst p +:+ rest) as [rest Hrest].
  { unfold NetworkPacket.to_byte_S in Hto. rewrite zfill_long in Hto
      by (unfold NetworkPacket.dst_S_length; lia).
    destruct (String.eqb (NetworkPacket.prot_S p) "data"); [injection Hto as <-; eauto|].
    destruct (String.eqb (NetworkPacket.prot_S p) "control"); [injection Hto as <-; eauto|].
    done. }
  assert (PyStr.take 5 byte_S = PyStr.take 5 (NetworkPacket.dst p)) as Htake.
  { rewrite Hrest. apply take_append_long. lia. }
  rewrite Htake in Hdst. split; [done|]. split.
  - intros Heq. pose proof (length_strip0 (PyStr.take 5 (NetworkPacket.dst p))) as Hs.
    rewrite <- Hdst, Heq, length_take_str in Hs. lia.
  - assert (PyStr.drop 5 byte_S = tag +:+ NetworkPacket.data_S q) as Hd.
    { rewrite Hb at 1. rewrite <- Hh at 1. apply drop_append. }
    rewrite Hd. f_equal.
    assert (PyStr.take 1 (PyStr.drop 5 byte_S) = tag) as Ht.
    { rewrite Hd. by destruct Htag as [[-> _]|[-> _]]. }
    rewrite <- Ht, Hrest, drop_append_long by lia.
    symmetry. apply (take_append_long 1). rewrite length_drop_str. lia.
Qed.

Lemma long_address_never_comes_back_witness :
  NetworkPacket.dst (NetworkPacket.mk "12345" "data" "1hello") = "12345" ∧
  NetworkPacket.dst (NetworkPacket.mk "12345" "data" "1hello") ≠ "123451" ∧
  "1" +:+ "1hello" = PyStr.drop 5 "1234511hello".
Proof.
  apply (long_address_never_comes_back (NetworkPacket.mk "123451" "data" "hello")
           (NetworkPacket.mk "12345" "data" "1hello") "1234511hello");
    [simpl; lia|reflexivity|reflexivity].
Defined.

Lemma take_1_drop (n : nat) (s : string) :
  PyStr.take 1 (PyStr.drop n s) =
  match String.get n s with Some c => String c EmptyString | None => EmptyString end.
Proof.
  revert s. induction n as [|n IH]; intros [|c s]; simpl; try done. apply IH.
Qed.

(** X14. The decoder checks the sixth character and nothing else: a byte
    string decodes exactly when its sixth character is [1] or [2], whatever
    the destination field and the payload hold, and every other byte
    string, the ones of fewer than six characters among them, raises
    [TypeError]. *)
Theorem decoder_checks_only_the_tag (byte_S : string) :
  if bool_decide (String.get 5 byte_S = Some "1"%char ∨ String.get 5 byte_S = Some "2"%char)
  then ∃ prot, (prot = "data" ∨ prot = "control") ∧
         NetworkPacket.from_byte_S byte_S =
         inr (NetworkPacket.mk (PyStr.strip0 (PyStr.take 5 byte_S)) prot (PyStr.drop 6 byte_S))
  else NetworkPacket.from_byte_S byte_S = inl TypeError.
Proof.
  unfold NetworkPacket.from_byte_S.
  change (PyStr.slice 0 NetworkPacket.dst_S_length byte_S) with (PyStr.take 5 byte_S).
  change (PyStr.slice NetworkPacket.dst_S_length
            (NetworkPacket.dst_S_length + NetworkPacket.prot_S_length) byte_S)
    with (PyStr.take 1 (PyStr.drop 5 byte_S)).
  change (NetworkPacket.dst_S_length + NetworkPacket.prot_S_length)%nat with 6%nat.
  rewrite take_1_drop.
  destruct (String.get 5 byte_S) as [c|] eqn:Hget.
  - destruct (decide (c = "1"%char)) as [->|H1].
    { rewrite bool_decide_eq_true_2 by (by left). exists "data". split; [by left|done]. }
    destruct (decide (c = "2"%char)) as [->|H2].
    { rewrite bool_decide_eq_true_2 by (by right). exists "control". split; [by right|done]. }
    rewrite bool_decide_eq_false_2 by (intros [[= ?]|[= ?]]; done).
    assert (String.eqb (String c "") "1" = false) as -> by (apply String.eqb_neq; congruence).
    assert (String.eqb (String c "") "2" = false) as -> by (apply String.eqb_neq; congruence).
    done.
  - by rewrite bool_decide_eq_false_2 by (by intros [?|?]).
Qed.

(** X15. Encoding a decoded packet again, as a router does when it
    forwards, changes at most the five characters of the destination
    field: the tag, the payload and the length are those of the byte string
    that came in. *)
Theorem reencoding_changes_only_the_destination_field (byte_S : string)
    (p : NetworkPacket.t) :
  NetworkPacket.from_byte_S byte_S = inr p →
  ∃ h h' rest,
    byte_S = h +:+ rest ∧ NetworkPacket.to_byte_S p = inr (h' +:+ rest) ∧
    String.length h = 5%nat ∧ String.length h' = 5%nat.
Proof.
  intros Hfrom.
  destruct (from_byte_S_parts byte_S p Hfrom) as (tag & Htag & Hb & Hh & Hdst).
  exists (PyStr.take 5 byte_S), (PyStr.zfill 5 (NetworkPacket.dst p)),
    (tag +:+ NetworkPacket.data_S p).
  split_and!; [done| |done|].
  - unfold NetworkPacket.to_byte_S. by destruct Htag as [[-> ->]|[-> ->]].
  - rewrite length_zfill, Hdst.
    pose proof (length_strip0 (PyStr.take 5 byte_S)). lia.
Qed.

Lemma reencoding_changes_only_the_destination_field_witness :
  ∃ h h' rest,
    "000101hello" = h +:+ rest ∧
    NetworkPacket.to_byte_S (NetworkPacket.mk "1" "data" "hello") = inr (h' +:+ rest) ∧
    String.length h = 5%nat ∧ String.length h' = 5%nat.
Proof.
  apply (reencoding_changes_only_the_destination_field "000101hello"
           (NetworkPacket.mk "1" "data" "hello")).
  reflexivity.
Defined.

(** ** The router as it is built *)

Lemma fmap_const_replicate {A B : Type} (x : B) (l : list A) :
  (λ _, x) <$> l = replicate (length l) x.
Proof. induction l as [|a l IH]; [done|]. by rewrite fmap_cons, IH. Qed.

Lemma length_range (n : nat) : length (range n) = n.
Proof. unfold range. by rewrite length_fmap, length_seq. Qed.

Lemma dict_get_NoDup {V : Type} (d : dict string V) (k : string) (v : V) :
  NoDup (dict_keys d) → (k, v) ∈ d → dict_get k d = Some v.
Proof.
  induction d as [|[k0 v0] d IH]; intros Hnd Hin; [by apply not_elem_of_nil in Hin|].
  unfold dict_keys in Hnd. rewrite fmap_cons in Hnd. apply NoDup_cons in Hnd as [Hk0 Hnd].
  simpl. apply elem_of_cons in Hin as [[= <- <-]|Hin].
  - by rewrite String.eqb_refl.
  - destruct (String.eqb k k0) eqn:Heq; [|by apply IH].
    apply String.eqb_eq in Heq as <-. exfalso. apply Hk0.
    apply list_elem_of_fmap. by exists (k, v).
Qed.

Section built.
Variables (name : string).

Lemma only_key_insert (row : gmap string Z) (c : Z) :
  (∀ k, is_Some (row !! k) → k = name) → <[name := c]> row = {[name := c]}.
Proof.
  intros Hrow. apply map_eq. intros k. destruct (decide (name = k)) as [<-|Hk].
  - by rewrite lookup_insert_eq, lookup_singleton_eq.
  - rewrite lookup_insert_ne, lookup_singleton_ne by done.
    destruct (row !! k) eqn:Hl; [|done]. destruct Hk. symmetry. apply Hrow. by rewrite Hl.
Qed.

Lemma only_key_singleton (c : Z) k : is_Some (({[name := c]} : gmap string Z) !! k) → k = name.
Proof. intros [c' [<- _]%lookup_singleton_Some]. done. Qed.

(** A row of the table as built holds the cost of the interface listed
    last. *)
Lemma init_row_last (items : dict Z Z) (row : gmap string Z) (i c : Z) :
  (∀ k, is_Some (row !! k) → k = name) → last items = Some (i, c) →
  foldl (λ row kv, <[name := kv.2]> row) row items = {[name := c]}.
Proof.
  revert row. induction items as [|kv items IH]; intros row Hrow Hlast; [done|].
  simpl. rewrite (only_key_insert row kv.2 Hrow).
  destruct items as [|kv' items]; [by injection Hlast as ->|].
  apply IH; [apply only_key_singleton|done].
Qed.

Lemma init_row_only_key (items : dict Z Z) k :
  is_Some (Router.init_row name items !! k) → k = name.
Proof.
  unfold Router.init_row.
  assert (∀ row : gmap string Z, (∀ k, is_Some (row !! k) → k = name) →
            ∀ k, is_Some (foldl (λ row kv, <[name := kv.2]> row) row items !! k) → k = name)
    as Hfold.
  { induction items as [|kv items IH]; intros row Hrow; [done|]. simpl.
    apply IH. rewrite (only_key_insert row kv.2 Hrow). apply only_key_singleton. }
  apply Hfold. intros k' [c Hc]. by rewrite lookup_empty in Hc.
Qed.

Lemma init_rows_other (cost_D : dict string (dict Z Z)) (acc : table) k :
  k ∉ dict_keys cost_D →
  foldl (λ tbl nv, <[nv.1 := Router.init_row name nv.2]> tbl) acc cost_D !! k = acc !! k.
Proof.
  revert acc. induction cost_D as [|[nb items] cost_D IH]; intros acc Hk; [done|].
  unfold dict_keys in Hk. rewrite fmap_cons in Hk. apply not_elem_of_cons in Hk as [Hne Hk].
  simpl. rewrite IH by done. by rewrite lookup_insert_ne.
Qed.

Lemma init_rows_lookup (cost_D : dict string (dict Z Z)) (acc : table) nb items :
  NoDup (dict_keys cost_D) → (nb, items) ∈ cost_D →
  foldl (λ tbl nv, <[nv.1 := Router.init_row name nv.2]> tbl) acc cost_D !! nb =
  Some (Router.init_row name items).
Proof.
  revert acc. induction cost_D as [|[nb0 items0] cost_D IH]; intros acc Hnd Hin;
    [by apply not_elem_of_nil in Hin|].
  unfold dict_keys in Hnd. rewrite fmap_cons in Hnd. apply NoDup_cons in Hnd as [Hk0 Hnd].
  simpl. apply elem_of_cons in Hin as [[= <- <-]|Hin]; [|by apply IH].
  rewrite init_rows_other by done. by rewrite lookup_insert_eq.
Qed.

Lemma init_rows_dom_inv (cost_D : dict string (dict Z Z)) (acc : table) k :
  is_Some (foldl (λ tbl nv, <[nv.1 := Router.init_row name nv.2]> tbl) acc cost_D !! k) →
  k ∈ dict_keys cost_D ∨ is_Some (acc !! k).
Proof.
  revert acc. induction cost_D as [|[nb items] cost_D IH]; intros acc Hk; [by right|].
  simpl in Hk. apply IH in Hk as [Hk|Hk].
  - left. unfold dict_keys. rewrite fmap_cons. by apply list_elem_of_further.
  - destruct (decide (nb = k)) as [<-|Hne].
    + left. unfold dict_keys. rewrite fmap_cons. apply list_elem_of_here.
    + right. by rewrite lookup_insert_ne in Hk.
Qed.

End built.

(** X16. The router as its constructor leaves it has one interface with
    empty queues for each neighbour of the cost table, a row for each
    neighbour and one for itself, which holds the cost [0] whatever the
    cost table lists under its own name, and no column but its own. *)
Theorem router_as_built (name : string) (cost_D : dict string (dict Z Z)) (q : Z) :
  let R := Router.init name cost_D q in
  Router.intf_L R = replicate (length cost_D) (Interface.init q) ∧
  dom (Router.rt_tbl_D R) = ({[name]} ∪ list_to_set (dict_keys cost_D) : gset string) ∧
  Router.rt_tbl_D R !! name = Some {[name := 0]} ∧
  ∀ d k, is_Some (entry (Router.rt_tbl_D R) d k) → k = name.
Proof.
  simpl. split_and!.
  - by rewrite fmap_const_replicate, length_range.
  - apply set_eq. intros d.
    rewrite elem_of_dom, elem_of_union, elem_of_singleton, elem_of_list_to_set.
    destruct (decide (name = d)) as [<-|Hne].
    + rewrite lookup_insert_eq. split; [by left|eauto].
    + rewrite lookup_insert_ne by done. split.
      * intros [Hk|[c Hc]]%init_rows_dom_inv; [by right|by rewrite lookup_empty in Hc].
      * intros [->|Hk]; [done|]. apply init_rows_dom. by left.
  - by rewrite lookup_insert_eq.
  - intros d k [c Hc]. unfold entry in Hc.
    destruct (decide (name = d)) as [<-|Hne].
    + rewrite lookup_insert_eq in Hc. simpl in Hc.
      by apply lookup_singleton_Some in Hc as [<- _].
    + rewrite lookup_insert_ne in Hc by done.
      destruct (foldl _ _ _ !! d) as [row|] eqn:Hrow; [simpl in Hc|done].
      revert k c Hc. revert d row Hrow Hne.
      pose proof (init_rows_fold name (λ row, ∀ k c, row !! k = Some c → k = name) cost_D ∅)
        as Hfold.
      intros d row Hrow _. apply (Hfold ltac:(done)) with d; [|done].
      intros nb items _ k c Hc. apply (init_row_only_key name items). by rewrite Hc.
Qed.

(** X17. For a neighbour the cost table lists with several interfaces, the
    table as built holds the cost of the interface listed last, and the
    packets for this neighbour leave through the interface listed first. *)
Theorem built_cost_is_of_the_last_interface (name : string)
    (cost_D : dict string (dict Z Z)) (q : Z) (nb : string) (items : dict Z Z)
    (i0 c0 il cl : Z) :
  NoDup (dict_keys cost_D) → (nb, items) ∈ cost_D → nb ≠ name →
  head items = Some (i0, c0) → last items = Some (il, cl) →
  let R := Router.init name cost_D q in
  entry (Router.rt_tbl_D R) nb name = Some cl ∧ Router.out_of R nb = inr i0.
Proof.
  intros Hnd Hin Hne Hhead Hlast. simpl. split.
  - unfold entry. rewrite lookup_insert_ne by done.
    rewrite (init_rows_lookup name cost_D ∅ nb items Hnd Hin). simpl.
    unfold Router.init_row. rewrite (init_row_last name items ∅ il cl); [|by intros k [c Hc]; rewrite lookup_empty in Hc|done].
    by rewrite lookup_singleton_eq.
  - unfold Router.out_of. simpl. rewrite (dict_get_NoDup cost_D nb items Hnd Hin).
    destruct items as [|[i c] items]; [done|]. by injection Hhead as -> ->.
Qed.

Lemma built_cost_is_of_the_last_interface_witness :
  entry (Router.rt_tbl_D (Router.init "R1" ex_two_links 0)) "R2" "R1" = Some 1 ∧
  Router.out_of (Router.init "R1" ex_two_links 0) "R2" = inr 0.
Proof.
  apply (built_cost_is_of_the_last_interface "R1" ex_two_links 0 "R2" [(0, 10); (1, 1)]
           0 10 1 1).
  - apply (bool_decide_unpack _). vm_compute. exact I.
  - apply list_elem_of_here.
  - discriminate.
  - reflexivity.
  - reflexivity.
Defined.

(** ** What forwarding changes *)

Lemma set_intf_L_same (R : Router.t) (k : nat) (intf : Interface.t) :
  Router.intf_L R !! k = Some intf →
  Router.set_intf_L R (<[k := intf]> (Router.intf_L R)) = R.
Proof. intros Hk. rewrite list_insert_id by done. by destruct R. Qed.

Lemma py_index_inv {A} (l : list A) (i : Z) (x : A) :
  py_index l i = Some x → ∃ k, py_pos l i = Some k ∧ l !! k = Some x.
Proof.
  unfold py_index. destruct (py_pos l i) as [k|]; [|done]. simpl. intros Hk. by exists k.
Qed.

Lemma tbl_get_error (tbl : table) (d k : string) (e : exn) :
  Router.tbl_get tbl d k = inl e → e ≠ QueueFull.
Proof.
  unfold Router.tbl_get. destruct (tbl !! d) as [row|]; [|by intros [= <-]].
  destruct (row !! k); [done|by intros [= <-]].
Qed.

Lemma choose_loop_error (name dst : string) (tbl : table) (routers : list string)
    (acc : string * Z) (e : exn) :
  Router.choose_loop name dst tbl routers acc = inl e → e ≠ QueueFull.
Proof.
  revert acc. induction routers as [|router rest IH]; intros acc; [done|]. simpl.
  unfold Router.choose_step.
  destruct (Router.tbl_get tbl dst router) as [e1|a] eqn:H1.
  { intros [= <-]. by apply tbl_get_error in H1. }
  destruct (Router.tbl_get tbl router name) as [e2|b] eqn:H2.
  { intros [= <-]. by apply tbl_get_error in H2. }
  destruct (a + b <? acc.2); apply IH.
Qed.

Lemma choose_cfwd_error (R : Router.t) (dst : string) (e : exn) :
  Router.choose_cfwd R dst = inl e → e ≠ QueueFull.
Proof.
  unfold Router.choose_cfwd. destruct (dict_in dst (Router.cost_D R)); [done|].
  destruct (Router.choose_loop _ _ _ _ _) as [e'|acc] eqn:Hloop; [|done].
  intros [= <-]. by apply choose_loop_error in Hloop.
Qed.

Lemma out_of_error (R : Router.t) (cfwd : string) (e : exn) :
  Router.out_of R cfwd = inl e → e ≠ QueueFull.
Proof.
  unfold Router.out_of. destruct (dict_get cfwd (Router.cost_D R)) as [items|];
    [|by intros [= <-]].
  destruct (dict_keys items); [by intros [= <-]|done].
Qed.

Lemma to_byte_S_error (p : NetworkPacket.t) (e : exn) :
  NetworkPacket.to_byte_S p = inl e → e = RecursionError.
Proof.
  unfold NetworkPacket.to_byte_S. destruct (String.eqb _ "data"); [done|].
  destruct (String.eqb _ "control"); [done|]. by intros [= <-].
Qed.

(** The put of a packet on an interface, by a put that waits. *)
Lemma put_packet_cases (out : Z) (p : NetworkPacket.t) (R : Router.t) :
  match Router.put_packet out p R with
  | Ok _ R' =>
      ∃ k intf byte_S,
        NetworkPacket.to_byte_S p = inr byte_S ∧
        py_pos (Router.intf_L R) out = Some k ∧
        Router.intf_L R !! k = Some intf ∧ has_room intf ∧
        R' = Router.set_intf_L R (<[k := push_out byte_S intf]> (Router.intf_L R))
  | Raise e R' => R' = R ∧ e ≠ QueueFull
  | Blocked R' => R' = R
  end.
Proof.
  unfold Router.put_packet.
  destruct (py_index (Router.intf_L R) out) as [intf|] eqn:Hidx; [|done].
  apply py_index_inv in Hidx as (k & Hk & Hintf).
  destruct (NetworkPacket.to_byte_S p) as [e|byte_S] eqn:Hb.
  { apply to_byte_S_error in Hb as ->. done. }
  rewrite (at_intf_put R out k intf byte_S Hk Hintf).
  destruct (Interface.full _ _) eqn:Hfull; [done|].
  exists k, intf, byte_S. done.
Qed.

(** X18. Forwarding changes nothing of a router but one outbound queue:
    when [forward_packet] returns, the byte string of the packet has joined
    the end of the outbound queue of one interface, which had room, and
    the name, the cost table, the routing table, the inbound queues and
    the other interfaces are as before; when it raises or waits, the
    router is as before. It never raises [queue.Full] and never returns
    without having queued the packet: the put waits, so the handler that
    reports a lost packet is not reached. *)
Theorem forwarding_queues_the_packet_or_changes_nothing (p : NetworkPacket.t) (i : Z)
    (R : Router.t) :
  match Router.forward_packet p i R with
  | Ok _ R' =>
      ∃ k intf byte_S,
        NetworkPacket.to_byte_S p = inr byte_S ∧
        Router.intf_L R !! k = Some intf ∧ has_room intf ∧
        R' = Router.set_intf_L R (<[k := push_out byte_S intf]> (Router.intf_L R))
  | Raise e R' => R' = R ∧ e ≠ QueueFull
  | Blocked R' => R' = R
  end.
Proof.
  rewrite forward_packet_unfold. unfold Router.except_full.
  destruct (Router.choose_cfwd R (NetworkPacket.dst p)) as [e|cfwd] eqn:Hc.
  { apply choose_cfwd_error in Hc. by destruct e. }
  destruct (Router.out_of R cfwd) as [e|out] eqn:Ho.
  { apply out_of_error in Ho. by destruct e. }
  pose proof (put_packet_cases out p R) as Hput.
  destruct (Router.put_packet out p R) as [[] R'|e R'|R'].
  - destruct Hput as (k & intf & byte_S & ? & ? & ? & ? & ?). by exists k, intf, byte_S.
  - destruct Hput as [-> Hne]. by destruct e.
  - done.
Qed.

(** ** The pass over the interfaces, again *)

Section state_relations_of_loops.
Context {S A : Type}.

Lemma for_each_unchanged (body : A → M S unit) (l : list A) (s : S) :
  (∀ x, x ∈ l → body x s = Ok tt s) → for_each l body s = Ok tt s.
Proof.
  induction l as [|x l IH]; intros Hbody; simpl; [done|].
  unfold mbind, M_bind. rewrite Hbody by apply list_elem_of_here.
  apply IH. intros y Hy. apply Hbody. by apply list_elem_of_further.
Qed.

Variable Rel : S → S → Prop.
Hypothesis Rel_refl : ∀ s, Rel s s.
Hypothesis Rel_trans : ∀ s1 s2 s3, Rel s1 s2 → Rel s2 s3 → Rel s1 s3.

Lemma bind_state_rel {B C : Type} (m : M S B) (k : B → M S C) (s : S) :
  Rel s (state_of (m s)) → (∀ b s', Rel s' (state_of (k b s'))) →
  Rel s (state_of ((m ≫= k) s)).
Proof.
  intros Hm Hk. unfold mbind, M_bind. destruct (m s) as [b s'|e s'|s']; simpl in *; try done.
  eapply Rel_trans; [exact Hm|apply Hk].
Qed.

Lemma lift_state_rel {B : Type} (r : exn + B) (s : S) : Rel s (state_of (lift r s)).
Proof. unfold lift. destruct r; apply Rel_refl. Qed.

Lemma for_each_state_rel (body : A → M S unit) :
  (∀ x s, Rel s (state_of (body x s))) →
  ∀ l s, Rel s (state_of (for_each l body s)).
Proof.
  intros Hbody l. induction l as [|x l IH]; intros s; simpl; [apply Rel_refl|].
  apply bind_state_rel; [apply Hbody|]. intros _ s'. apply IH.
Qed.

End state_relations_of_loops.

Lemma passes_on_refl (intf : Interface.t) : passes_on intf intf.
Proof. split_and!; done. Qed.

Lemma passes_on_trans (i1 i2 i3 : Interface.t) :
  passes_on i1 i2 → passes_on i2 i3 → passes_on i1 i3.
Proof.
  intros (Hm1 & Hi1 & Ho1) (Hm2 & Hi2 & Ho2). split_and!; [congruence|by etrans|by etrans].
Qed.

Lemma passes_on_all_refl (l : list Interface.t) : Forall2 passes_on l l.
Proof. induction l; constructor; [apply passes_on_refl|done]. Qed.

Lemma same_router_refl (R : Router.t) : same_router R R.
Proof. split_and!; try done. apply passes_on_all_refl. Qed.

Lemma same_router_trans (R1 R2 R3 : Router.t) :
  same_router R1 R2 → same_router R2 R3 → same_router R1 R3.
Proof.
  intros (Hn1 & Hc1 & Hi1) (Hn2 & Hc2 & Hi2). split_and!; [congruence..|].
  revert Hi2. generalize (Router.intf_L R3). induction Hi1 as [|i1 i2 l1 l2 H12 _ IH];
    intros l3 Hi2; inversion Hi2; subst; constructor; [by eapply passes_on_trans|by apply IH].
Qed.

Lemma get_in_passes_on (intf : Interface.t) :
  passes_on intf (state_of (Interface.get "in" intf)).
Proof.
  unfold Interface.get. simpl. destruct (Interface.in_queue intf) as [|pkt q] eqn:Hq;
    simpl; [apply passes_on_refl|].
  split_and!; simpl; [done| |done]. rewrite Hq. by apply suffix_cons_r.
Qed.

Lemma put_out_passes_on (pkt : string) (block : bool) (intf : Interface.t) :
  passes_on intf (state_of (Interface.put pkt "out" block intf)).
Proof.
  unfold Interface.put. simpl. destruct (Interface.full _ _).
  { destruct block; apply passes_on_refl. }
  split_and!; simpl; [done..|]. by apply prefix_app_r.
Qed.

Lemma at_intf_same_router {A} (i : Z) (m : M Interface.t A) (R : Router.t) :
  (∀ intf, passes_on intf (state_of (m intf))) →
  same_router R (state_of (Router.at_intf i m R)).
Proof.
  intros Hm. unfold Router.at_intf.
  destruct (py_pos (Router.intf_L R) i) as [k|]; [|apply same_router_refl].
  destruct (Router.intf_L R !! k) as [intf|] eqn:Hk; [|apply same_router_refl].
  assert (same_router R
            (Router.set_intf_L R (<[k := state_of (m intf)]> (Router.intf_L R)))) as Hsame.
  { split_and!; try done. simpl.
    rewrite <- (list_insert_id (Router.intf_L R) k intf Hk) at 1.
    apply Forall2_insert; [apply passes_on_all_refl|apply Hm]. }
  by destruct (m intf).
Qed.

Lemma on_table_same_router {A} (m : M table A) (R : Router.t) :
  same_router R (state_of (Router.on_table m R)).
Proof.
  unfold Router.on_table.
  assert (∀ tbl, same_router R (Router.set_rt_tbl_D R tbl)) as Hset.
  { intros tbl. destruct (same_router_refl R) as (? & ? & ?). by split_and!. }
  destruct (m (Router.rt_tbl_D R)); apply Hset.
Qed.

Lemma except_full_state (m : M Router.t unit) (R : Router.t) :
  state_of (Router.except_full m R) = state_of (m R).
Proof. unfold Router.except_full. destruct (m R) as [[] ?|[] ?|?]; done. Qed.

Lemma put_packet_same_router (out : Z) (p : NetworkPacket.t) (R : Router.t) :
  same_router R (state_of (Router.put_packet out p R)).
Proof.
  unfold Router.put_packet.
  destruct (py_index (Router.intf_L R) out); [|apply same_router_refl].
  destruct (NetworkPacket.to_byte_S p); [apply same_router_refl|].
  apply at_intf_same_router. intros intf. apply put_out_passes_on.
Qed.

Lemma forward_packet_same_router (p : NetworkPacket.t) (i : Z) (R : Router.t) :
  same_router R (state_of (Router.forward_packet p i R)).
Proof.
  rewrite forward_packet_unfold, except_full_state.
  destruct (Router.choose_cfwd R (NetworkPacket.dst p)) as [e|cfwd];
    [apply same_router_refl|].
  destruct (Router.out_of R cfwd); [apply same_router_refl|].
  apply put_packet_same_router.
Qed.

Section pass.
Context `{!PyEnv}.

Lemma send_routes_same_router (i : Z) (R : Router.t) :
  same_router R (state_of (Router.send_routes i R)).
Proof.
  unfold Router.send_routes, mbind, M_bind, get_state.
  rewrite except_full_state. apply put_packet_same_router.
Qed.

Lemma apply_vector_same_router (r : string) (rvec : table) (R : Router.t) :
  same_router R (state_of (apply_vector r rvec R)).
Proof.
  unfold apply_vector.
  apply (bind_state_rel same_router same_router_trans); [apply same_router_refl|].
  intros R0 R1.
  apply (bind_state_rel same_router same_router_trans); [apply on_table_same_router|].
  intros [] R2; [|apply same_router_refl].
  apply (bind_state_rel same_router same_router_trans); [apply same_router_refl|].
  intros R3 R4.
  apply (for_each_state_rel same_router same_router_refl same_router_trans).
  apply send_routes_same_router.
Qed.

(** [update_routes], once the packet is turned into text and the text
    into a sender and a vector. *)
Lemma update_routes_reads (p : NetworkPacket.t) (i : Z) (R : Router.t) :
  Router.update_routes p i R =
  match NetworkPacket.to_byte_S p with
  | inl e => Raise e R
  | inr pbody =>
      match json_loads (PyStr.drop 8 pbody) with
      | None => Raise JSONDecodeError R
      | Some rvec => apply_vector (PyStr.take 2 (PyStr.drop 6 pbody)) rvec R
      end
  end.
Proof.
  unfold Router.update_routes, mbind at 1, M_bind at 1, lift at 1.
  destruct (NetworkPacket.to_byte_S p) as [e|pbody]; [done|].
  unfold mbind at 1, M_bind at 1, lift at 1.
  change (Router.header_length + 2)%nat with 8%nat.
  destruct (json_loads (PyStr.drop 8 pbody)) as [rvec|]; done.
Qed.

Lemma update_routes_same_router (p : NetworkPacket.t) (i : Z) (R : Router.t) :
  same_router R (state_of (Router.update_routes p i R)).
Proof.
  rewrite update_routes_reads.
  destruct (NetworkPacket.to_byte_S p); [apply same_router_refl|].
  destruct (json_loads _); [apply apply_vector_same_router|apply same_router_refl].
Qed.

Lemma process_queue_same_router (i : Z) (R : Router.t) :
  same_router R (state_of (Router.process_queue i R)).
Proof.
  unfold Router.process_queue.
  apply (bind_state_rel same_router same_router_trans).
  { apply at_intf_same_router, get_in_passes_on. }
  intros [pkt_S|] R1; [|apply same_router_refl].
  apply (bind_state_rel same_router same_router_trans).
  { apply (lift_state_rel same_router same_router_refl). }
  intros p R2.
  destruct (String.eqb (NetworkPacket.prot_S p) "data"); [apply forward_packet_same_router|].
  destruct (String.eqb (NetworkPacket.prot_S p) "control");
    [apply update_routes_same_router|apply same_router_refl].
Qed.

(** The pass takes the first packet of an inbound queue and decodes it. *)
Lemma process_queue_takes (R : Router.t) (k : nat) (intf : Interface.t)
    (pkt_S : string) (q : list string) (p : NetworkPacket.t) :
  Router.intf_L R !! k = Some intf → Interface.in_queue intf = pkt_S :: q →
  NetworkPacket.from_byte_S pkt_S = inr p →
  let R1 := Router.set_intf_L R (<[k := taken_in q intf]> (Router.intf_L R)) in
  Router.process_queue (Z.of_nat k) R =
  if String.eqb (NetworkPacket.prot_S p) "data" then Router.forward_packet p (Z.of_nat k) R1
  else if String.eqb (NetworkPacket.prot_S p) "control"
       then Router.update_routes p (Z.of_nat k) R1
       else Raise (Exception "Unknown packet type") R1.
Proof.
  intros Hk Hq Hp R1. unfold Router.process_queue, mbind, M_bind, Router.at_intf.
  rewrite py_pos_nat by (by eapply lookup_lt_Some).
  rewrite Hk. unfold Interface.get. simpl. rewrite Hq.
  unfold lift. rewrite Hp. fold (taken_in q intf). fold R1.
  destruct (String.eqb (NetworkPacket.prot_S p) "data"); [done|].
  by destruct (String.eqb (NetworkPacket.prot_S p) "control").
Qed.

(** X19. A pass over interfaces whose inbound queues are all empty returns
    and leaves the router as it was. *)
Theorem idle_pass_changes_nothing (R : Router.t) :
  Forall (λ intf, Interface.in_queue intf = []) (Router.intf_L R) →
  Router.process_queues R = Ok tt R.
Proof.
  intros Hidle. unfold Router.process_queues, mbind, M_bind, get_state.
  apply for_each_unchanged. intros i Hi.
  unfold range in Hi. apply list_elem_of_fmap in Hi as (k & -> & Hk).
  apply elem_of_seq in Hk as [_ Hk]. simpl in Hk.
  destruct (lookup_lt_is_Some_2 (Router.intf_L R) k Hk) as [intf Hintf].
  rewrite Forall_forall in Hidle. specialize (Hidle intf (list_elem_of_lookup_2 _ _ _ Hintf)).
  unfold Router.process_queue, mbind, M_bind, Router.at_intf.
  rewrite py_pos_nat by done. rewrite Hintf. unfold Interface.get. simpl. rewrite Hidle.
  by rewrite set_intf_L_same.
Qed.

(** X20. A data packet for a neighbour with a plain address crosses the
    router as the bytes it came in: taken from the inbound queue of the
    interface it waits on, the byte string a host made for [dst] and
    [data] joins, unchanged, the outbound queue of the first interface the
    cost table lists for [dst], when that queue has room. *)
Theorem data_packet_crosses_the_router (R : Router.t) (k : nat) (intf : Interface.t)
    (dst data : string) (q : list string) (out c : Z) (rest : dict Z Z)
    (ko : nat) (intf_o : Interface.t) :
  plain_address dst = true →
  Router.intf_L R !! k = Some intf →
  Interface.in_queue intf = sent_packet (dst, data) :: q →
  dict_get dst (Router.cost_D R) = Some ((out, c) :: rest) →
  let R1 := Router.set_intf_L R (<[k := taken_in q intf]> (Router.intf_L R)) in
  py_pos (Router.intf_L R1) out = Some ko → Router.intf_L R1 !! ko = Some intf_o →
  has_room intf_o →
  Router.process_queue (Z.of_nat k) R =
  Ok tt (Router.set_intf_L R1
           (<[ko := push_out (sent_packet (dst, data)) intf_o]> (Router.intf_L R1))).
Proof.
  intros Hplain Hk Hq Hdst R1 Hko Hintf_o Hroom.
  assert (NetworkPacket.from_byte_S (sent_packet (dst, data)) =
          inr (NetworkPacket.mk dst "data" data)) as Hp.
  { unfold sent_packet. simpl.
    assert (String.length (PyStr.zfill 5 dst) = 5%nat) as Hh.
    { rewrite length_zfill. destruct dst as [|c0 a']; [done|].
      apply plain_is_no_sign in Hplain as (_ & _ & _ & Hl). lia. }
    rewrite (from_byte_S_framed _ "1" data Hh eq_refl). simpl.
    by rewrite (strip0_zfill_plain dst Hplain). }
  rewrite (process_queue_takes R k intf _ q _ Hk Hq Hp). simpl. fold R1.
  apply (forward_packet_chosen (NetworkPacket.mk dst "data" data) (Z.of_nat k) R1
           dst out c rest ko intf_o); try done.
  unfold Router.choose_cfwd, dict_in. simpl. rewrite Hdst.
  by rewrite bool_decide_eq_true_2.
Qed.

(** X21. The routing update of a router whose name has two characters is
    read by the router that receives it as the vector of that router: the
    byte string [send_routes] queues decodes to a control packet, and
    [update_routes] of this packet merges the table of the sender under
    the name of the sender, whenever [json.loads] gives back the table
    that [json.dumps] has written. *)
Theorem routing_update_crosses_the_wire (sender receiver : Router.t) (k : nat)
    (intf : Interface.t) (i : Z) :
  String.length (Router.name sender) = 2%nat →
  json_loads (json_dumps (Router.rt_tbl_D sender)) = Some (Router.rt_tbl_D sender) →
  Router.intf_L sender !! k = Some intf → has_room intf →
  ∃ byte_S p,
    Router.send_routes (Z.of_nat k) sender =
      Ok tt (Router.set_intf_L sender
               (<[k := push_out byte_S intf]> (Router.intf_L sender))) ∧
    NetworkPacket.from_byte_S byte_S = inr p ∧
    NetworkPacket.prot_S p = "control" ∧
    Router.update_routes p i receiver =
      apply_vector (Router.name sender) (Router.rt_tbl_D sender) receiver.
Proof.
  intros Hname Hjson Hk Hroom.
  set (body := Router.name sender +:+ json_dumps (Router.rt_tbl_D sender)).
  exists ("000002" +:+ body), (NetworkPacket.mk "" "control" body).
  split_and!.
  - by apply send_routes_room.
  - apply (from_byte_S_framed "00000" "2" body eq_refl eq_refl).
  - done.
  - rewrite update_routes_reads.
    change (NetworkPacket.to_byte_S (NetworkPacket.mk "" "control" body))
      with (@inr exn string ("000002" +:+ body)). cbv iota.
    change (PyStr.drop 8 ("000002" +:+ body)) with (PyStr.drop 2 body).
    change (PyStr.drop 6 ("000002" +:+ body)) with body.
    unfold body. rewrite <- Hname, drop_append, take_append. by rewrite Hjson.
Qed.

(** X22. A pass, however it ends, leaves the name and the cost table of
    the router as they were and its interfaces in their places with their
    bounds; it puts nothing on an inbound queue, from which it only takes
    packets at the front, and takes nothing from an outbound queue, to
    which it only adds packets at the end. *)
Theorem pass_keeps_the_router (R : Router.t) :
  same_router R (state_of (Router.process_queues R)).
Proof.
  unfold Router.process_queues.
  apply (bind_state_rel same_router same_router_trans); [apply same_router_refl|].
  intros R0 R1.
  apply (for_each_state_rel same_router same_router_refl same_router_trans).
  apply process_queue_same_router.
Qed.

End pass.

Lemma pass_keeps_the_router_witness :
  same_router ex_bad_R (state_of (@Router.process_queues ex_env ex_bad_R)).
Proof. apply (@pass_keeps_the_router ex_env ex_bad_R). Defined.

Lemma idle_pass_changes_nothing_witness :
  @Router.process_queues ex_env ex_R1 = Ok tt ex_R1.
Proof.
  apply (@idle_pass_changes_nothing ex_env ex_R1). repeat constructor.
Defined.

Lemma data_packet_crosses_the_router_witness :
  @Router.process_queue ex_env 0 ex_late_bad_R =
  Ok tt (Router.set_intf_L ex_late_bad_R
           [Interface.mk 0 [] ["000H11hello"]; Interface.mk 0 ["00001Xbad"] []]).
Proof.
  apply (@data_packet_crosses_the_router ex_env ex_late_bad_R 0%nat
           (Interface.mk 0 ["000H11hello"] []) "H1" "hello" [] 0 1 [] 0%nat
           (Interface.mk 0 [] [])); try reflexivity.
Defined.

Lemma routing_update_crosses_the_wire_witness :
  ∃ byte_S p,
    @Router.send_routes ex_env 0 ex_R2 =
      Ok tt (Router.set_intf_L ex_R2 [push_out byte_S (Interface.init 0); Interface.init 0]) ∧
    NetworkPacket.from_byte_S byte_S = inr p ∧
    NetworkPacket.prot_S p = "control" ∧
    @Router.update_routes ex_env p 0 ex_R1 = @apply_vector ex_env "R2" ex_vec ex_R1.
Proof.
  apply (@routing_update_crosses_the_wire ex_env ex_R2 ex_R1 0%nat (Interface.init 0) 0).
  - reflexivity.
  - vm_compute. reflexivity.
  - reflexivity.
  - reflexivity.
Defined.

(** ** A queue with a bound *)

(** X10. A queue with the bound [maxsize] above [0] takes [maxsize] packets
    and no more: on a new interface that many puts that do not wait go
    through, and the next put leaves the queue as it is and raises
    [queue.Full] when it does not wait, and waits when it does. *)
Theorem bounded_queue_takes_maxsize_packets (sel : string) (pkts : list string)
    (pkt : string) (maxsize : Z) :
  sel = "in" ∨ sel = "out" → 0 < maxsize → Z.of_nat (length pkts) = maxsize →
  let intf := set_get_queue sel pkts (Interface.init maxsize) in
  puts sel false pkts (Interface.init maxsize) = Ok tt intf ∧
  Interface.put pkt sel false intf = Raise QueueFull intf ∧
  Interface.put pkt sel true intf = Blocked intf.
Proof.
  intros Hsel Hpos Hlen intf.
  assert (get_queue sel (Interface.init maxsize) = []) as Hnil.
  { unfold get_queue. by destruct (String.eqb sel "in"). }
  split.
  { rewrite (puts_room sel false pkts (Interface.init maxsize) Hsel).
    - by rewrite Hnil.
    - right. rewrite Hnil. simpl. lia. }
  assert (Interface.full maxsize pkts = true) as Hfull.
  { unfold Interface.full. apply andb_true_iff. split; [by apply Z.ltb_lt|apply Z.leb_le; lia]. }
  unfold intf, Interface.put, set_get_queue.
  destruct Hsel as [-> | ->]; simpl; by rewrite Hfull.
Qed.

Lemma bounded_queue_takes_maxsize_packets_witness :
  puts "out" false ["a"; "b"] (Interface.init 2) = Ok tt (Interface.mk 2 [] ["a"; "b"]) ∧
  Interface.put "c" "out" false (Interface.mk 2 [] ["a"; "b"]) =
    Raise QueueFull (Interface.mk 2 [] ["a"; "b"]) ∧
  Interface.put "c" "out" true (Interface.mk 2 [] ["a"; "b"]) =
    Blocked (Interface.mk 2 [] ["a"; "b"]).
Proof.
  apply (bounded_queue_takes_maxsize_packets "out" ["a"; "b"] "c" 2);
    [by right|lia|reflexivity].
Defined.

(** ** Hosts *)

Lemma udt_send_queued (a dst data : string) (qi qo : list string)
    (rest : list Interface.t) (out : list string) :
  Host.udt_send dst data (Host.mk (PyString a) (Interface.mk 0 qi qo :: rest) out) =
  Ok tt (Host.mk (PyString a)
           (Interface.mk 0 qi (qo ++ [sent_packet (dst, data)]) :: rest)
           (out ++ [sending_line a (dst, data)])).
Proof. reflexivity. Qed.

Lemma udt_sends_queued (a : string) (msgs : list (string * string)) (qi qo : list string)
    (rest : list Interface.t) (out : list string) :
  for_each msgs (λ m, Host.udt_send m.1 m.2)
    (Host.mk (PyString a) (Interface.mk 0 qi qo :: rest) out) =
  Ok tt (Host.mk (PyString a)
           (Interface.mk 0 qi (qo ++ (sent_packet <$> msgs)) :: rest)
           (out ++ (sending_line a <$> msgs))).
Proof.
  revert qo out. induction msgs as [|[dst data] msgs IH]; intros qo out.
  - simpl. by rewrite !app_nil_r.
  - rewrite !fmap_cons. cbn [for_each]. unfold mbind, M_bind.
    cbn [fst snd]. rewrite udt_send_queued, IH.
    by rewrite <- !app_assoc.
Qed.

(** X23. A host whose address is a string never fails to send: whatever
    it sends, each call of [udt_send] prints its line and queues the byte
    string of the packet, and after any number of calls the outbound queue
    of its interface holds the byte strings in the order of the calls; the
    queue has no bound, so no put finds it full. *)
Theorem host_sends_in_order (a : string) (msgs : list (string * string)) :
  for_each msgs (λ m, Host.udt_send m.1 m.2) (Host.init (PyString a)) =
  Ok tt (Host.mk (PyString a) [Interface.mk 0 [] (sent_packet <$> msgs)]
           (sending_line a <$> msgs)).
Proof. apply (udt_sends_queued a msgs [] [] [] []). Qed.

(** X24. A host whose address is an integer, as the source documents it,
    cannot format its lines: [udt_send] raises [TypeError] before it queues
    anything, and [udt_receive], when a packet waits, takes it off the
    inbound queue and raises [TypeError] before it prints it, so the packet
    is lost. *)
Theorem host_with_integer_address_raises (h : Host.t) (z : Z) :
  Host.addr h = PyInt z →
  (∀ dst data, Host.udt_send dst data h = Raise TypeError h) ∧
  (∀ intf rest pkt_S q,
     Host.intf_L h = intf :: rest → Interface.in_queue intf = pkt_S :: q →
     Host.udt_receive h =
     Raise TypeError (Host.mk (Host.addr h) (taken_in q intf :: rest) (Host.stdout h))).
Proof.
  intros Haddr. split.
  - intros dst data. unfold Host.udt_send, mbind, M_bind, get_state, lift, Host.str.
    by rewrite Haddr.
  - intros intf rest pkt_S q Hl Hq.
    unfold Host.udt_receive, mbind, M_bind, Host.at_intf. rewrite Hl. simpl.
    unfold Interface.get. simpl. rewrite Hq. unfold lift, Host.str. simpl.
    by rewrite Haddr.
Qed.

Lemma host_with_integer_address_raises_witness :
  (∀ dst data, Host.udt_send dst data (Host.mk (PyInt 1) [Interface.mk 0 ["000011hi"] []] [])
               = Raise TypeError (Host.mk (PyInt 1) [Interface.mk 0 ["000011hi"] []] [])) ∧
  (∀ intf rest pkt_S q,
     [Interface.mk 0 ["000011hi"] []] = intf :: rest → Interface.in_queue intf = pkt_S :: q →
     Host.udt_receive (Host.mk (PyInt 1) [Interface.mk 0 ["000011hi"] []] []) =
     Raise TypeError (Host.mk (PyInt 1) (taken_in q intf :: rest) [])).
Proof.
  apply (host_with_integer_address_raises
           (Host.mk (PyInt 1) [Interface.mk 0 ["000011hi"] []] []) 1).
  reflexivity.
Defined.

Lemma udt_receive_reports (a pkt_S : string) (m : Z) (q qo : list string)
    (rest : list Interface.t) (out : list string) :
  Host.udt_receive (Host.mk (PyString a) (Interface.mk m (pkt_S :: q) qo :: rest) out) =
  Ok tt (Host.mk (PyString a) (Interface.mk m q qo :: rest) (out ++ [received_line a pkt_S])).
Proof. reflexivity. Qed.

Lemma udt_receive_idle (a : pyval) (m : Z) (qo : list string)
    (rest : list Interface.t) (out : list string) :
  Host.udt_receive (Host.mk a (Interface.mk m [] qo :: rest) out) =
  Ok tt (Host.mk a (Interface.mk m [] qo :: rest) out).
Proof. reflexivity. Qed.

Lemma receives_idle (n : nat) (a : pyval) (m : Z) (qo : list string)
    (rest : list Interface.t) (out : list string) :
  receives n (Host.mk a (Interface.mk m [] qo :: rest) out) =
  Ok tt (Host.mk a (Interface.mk m [] qo :: rest) out).
Proof.
  induction n as [|n IH]; [done|]. simpl. unfold mbind, M_bind.
  by rewrite udt_receive_idle.
Qed.

(** X25. A host whose address is a string reports what it receives in the
    order of arrival, each packet once: as many calls of [udt_receive] as
    packets wait, or more, empty the inbound queue and print one line for
    each packet, in the order of the queue; the calls that find the queue
    empty do nothing. *)
Theorem host_reports_in_order (a : string) (m : Z) (q qo : list string)
    (rest : list Interface.t) (out : list string) (more : nat) :
  receives (length q + more) (Host.mk (PyString a) (Interface.mk m q qo :: rest) out) =
  Ok tt (Host.mk (PyString a) (Interface.mk m [] qo :: rest)
           (out ++ (received_line a <$> q))).
Proof.
  revert out. induction q as [|pkt_S q IH]; intros out.
  - simpl. rewrite app_nil_r. apply receives_idle.
  - rewrite fmap_cons. cbn [length Nat.add receives]. unfold mbind, M_bind.
    rewrite udt_receive_reports, IH.
    by rewrite <- app_assoc.
Qed.
